(** * terminalv1: the session multiplexer of server.js

    A shallow embedding of the server side of the repository: the
    [RingBuffer] class that keeps each session's scrollback, the session
    registry with its name allocator, the token bucket of each connection
    and the socket handlers that tie them together. *)

From Stdlib Require Import ZArith List Bool Lia String Ascii.
From Stdlib.Strings Require Import Byte.
From Stdlib Require Import NArith QArith Qminmax Qround Qpower Lqa.
From Stdlib Require Import Decimal DecimalString DecimalNat Sorted.
Import ListNotations.

Local Open Scope Z_scope.

(** ** Completion of a call

    JavaScript calls either return or throw; the handlers below record
    which. *)
Inductive Completion : Type :=
| Normal
| Throw.

(** ** Node's Buffer primitives used by the ring

    Buffers are byte lists; indices are the integers the source computes. *)
Module Buffer.

Definition length (b : list byte) : Z := Z.of_nat (List.length b).

(** [Buffer.allocUnsafe(n)]: [n] bytes of whatever the allocator left
    there, given by [junk]. *)
Definition allocUnsafe (junk : nat -> byte) (n : Z) : list byte :=
  map junk (seq 0 (Z.to_nat n)).

(** An index as [slice] reads it: negative counts from the end, and the
    result is clamped to the buffer. *)
Definition clampIndex (l i : Z) : Z :=
  if i <? 0 then Z.max 0 (l + i) else Z.min i l.

(** [buf.slice(a, b)] *)
Definition slice (b : list byte) (from to : Z) : list byte :=
  let a := clampIndex (length b) from in
  let z := clampIndex (length b) to in
  firstn (Z.to_nat (z - a)) (skipn (Z.to_nat a) b).

(** [source.copy(target, targetStart, sourceStart, sourceEnd)]: a range
    error for a negative index or a source start past the end; otherwise
    copies as many bytes of the range as fit in the target. An omitted
    [sourceEnd] is the source's length. *)
Definition copy (source target : list byte)
           (targetStart sourceStart : Z) (sourceEnd : option Z)
  : option (list byte) :=
  let sourceEnd := match sourceEnd with Some e => e | None => length source end in
  if (targetStart <? 0) || (sourceStart <? 0) || (length source <? sourceStart)
     || (sourceEnd <? 0)
  then None
  else if (length target <=? targetStart) || (sourceEnd <=? sourceStart)
  then Some target
  else
    let sourceEnd := Z.min sourceEnd (length source) in
    let nb := Z.min (sourceEnd - sourceStart) (length target - targetStart) in
    Some (firstn (Z.to_nat targetStart) target
            ++ firstn (Z.to_nat nb) (skipn (Z.to_nat sourceStart) source)
            ++ skipn (Z.to_nat (targetStart + nb)) target).

(** [Buffer.concat] of two pieces. *)
Definition concat2 (a b : list byte) : list byte := a ++ b.

(** *** [buf.toString('utf8')]

    A JavaScript string is carried as its UTF-8 encoding, so decoding
    keeps every well-formed sequence as it is and puts U+FFFD (EF BF BD)
    for every malformed one: a byte that can start no sequence, or the
    longest prefix of a sequence that its next byte, or the end of the
    buffer, cuts short. *)
Definition between (lo hi : N) (b : byte) : bool :=
  (lo <=? Byte.to_N b)%N && (Byte.to_N b <=? hi)%N.

Definition continuation (b : byte) : bool := between 0x80 0xbf b.

(** What may follow the lead byte [b0] of a sequence of three or four
    bytes. *)
Definition second (b0 b1 : byte) : bool :=
  match b0 with
  | xe0 => between 0xa0 0xbf b1
  | xed => between 0x80 0x9f b1
  | xf0 => between 0x90 0xbf b1
  | xf4 => between 0x80 0x8f b1
  | _ => continuation b1
  end.

(** U+FFFD in UTF-8. *)
Definition replacement : list byte := [xef; xbf; xbd].

Fixpoint toString (b : list byte) : list byte :=
  match b with
  | [] => []
  | b0 :: r0 =>
      if between 0x00 0x7f b0 then b0 :: toString r0
      else if between 0xc2 0xdf b0 then
        match r0 with
        | [] => replacement
        | b1 :: r1 =>
            if continuation b1 then b0 :: b1 :: toString r1
            else replacement ++ toString r0
        end
      else if between 0xe0 0xef b0 then
        match r0 with
        | [] => replacement
        | b1 :: r1 =>
            if second b0 b1 then
              match r1 with
              | [] => replacement
              | b2 :: r2 =>
                  if continuation b2 then b0 :: b1 :: b2 :: toString r2
                  else replacement ++ toString r1
              end
            else replacement ++ toString r0
        end
      else if between 0xf0 0xf4 b0 then
        match r0 with
        | [] => replacement
        | b1 :: r1 =>
            if second b0 b1 then
              match r1 with
              | [] => replacement
              | b2 :: r2 =>
                  if continuation b2 then
                    match r2 with
                    | [] => replacement
                    | b3 :: r3 =>
                        if continuation b3 then b0 :: b1 :: b2 :: b3 :: toString r3
                        else replacement ++ toString r2
                    end
                  else replacement ++ toString r1
              end
            else replacement ++ toString r0
        end
      else replacement ++ toString r0
  end.

End Buffer.

(** ** class RingBuffer *)
Record RingBuffer : Type := mkRingBuffer {
  buf : list byte;
  limit : Z;
  start : Z;
  len : Z
}.

(** [new RingBuffer(limitBytes)] *)
Definition newRingBuffer (junk : nat -> byte) (limitBytes : Z) : RingBuffer :=
  {| buf := Buffer.allocUnsafe junk limitBytes;
     limit := limitBytes;
     start := 0;
     len := 0 |}.

(** [append(input)], with [input] already a buffer of bytes (a string is
    taken through its UTF-8 encoding first). The fields are assigned before
    the copies run, so a copy that throws leaves them updated. JavaScript's
    [%] is [Z.rem]. *)
Definition append (this : RingBuffer) (b : list byte) : Completion * RingBuffer :=
  if this.(limit) <=? Buffer.length b then
    match Buffer.copy b this.(buf) 0 (Buffer.length b - this.(limit)) None with
    | None => (Throw, this)
    | Some buf' =>
        (Normal, {| buf := buf'; limit := this.(limit);
                    start := 0; len := this.(limit) |})
    end
  else
    let free := this.(limit) - this.(len) in
    let this1 :=
      if free <? Buffer.length b then
        {| buf := this.(buf); limit := this.(limit);
           start := Z.rem (this.(start) + (Buffer.length b - free)) this.(limit);
           len := this.(limit) |}
      else
        {| buf := this.(buf); limit := this.(limit);
           start := this.(start);
           len := this.(len) + Buffer.length b |} in
    let writePos :=
      Z.rem (this1.(start) + this1.(len) - Buffer.length b) this1.(limit) in
    let firstPart := Z.min (Buffer.length b) (this1.(limit) - writePos) in
    match Buffer.copy b this1.(buf) writePos 0 (Some firstPart) with
    | None => (Throw, this1)
    | Some buf1 =>
        let this2 := {| buf := buf1; limit := this1.(limit);
                        start := this1.(start); len := this1.(len) |} in
        if firstPart <? Buffer.length b then
          match Buffer.copy b buf1 0 firstPart None with
          | None => (Throw, this2)
          | Some buf2 =>
              (Normal, {| buf := buf2; limit := this1.(limit);
                          start := this1.(start); len := this1.(len) |})
          end
        else (Normal, this2)
    end.

(** [toString()], with [enc] at its default ['utf8']: the live bytes of
    the ring, decoded. *)
Definition toString (this : RingBuffer) : list byte :=
  if this.(len) =? 0 then []
  else if this.(start) + this.(len) <=? this.(limit) then
    Buffer.toString
      (Buffer.slice this.(buf) this.(start) (this.(start) + this.(len)))
  else
    let tailLen := (this.(start) + this.(len)) - this.(limit) in
    Buffer.toString
      (Buffer.concat2 (Buffer.slice this.(buf) this.(start) this.(limit))
                      (Buffer.slice this.(buf) 0 tailLen)).

(** Appending the chunks of a stream one after the other; stops at the
    first append that throws. *)
Fixpoint appendAll (this : RingBuffer) (chunks : list (list byte))
  : Completion * RingBuffer :=
  match chunks with
  | [] => (Normal, this)
  | b :: rest =>
      match append this b with
      | (Normal, this') => appendAll this' rest
      | (Throw, this') => (Throw, this')
      end
  end.

(** The last [n] elements of a list (the whole list when it is shorter). *)
Definition lastn {A} (n : nat) (l : list A) : list A :=
  skipn (List.length l - n) l.

(** ** JavaScript arithmetic

    A finite number is the rational it stands for, and every operation
    gives the exact result rounded to the nearest double, ties to the even
    significand (IEEE 754 binary64, subnormals included). A result beyond
    the largest double, which JavaScript turns into Infinity, stays finite
    here: no reading of [Date.now()] brings one about in the bucket, which
    caps it at its capacity either way. *)
Module Double.
Local Open Scope Q_scope.

(** The integer part of the binary logarithm of a positive number. *)
Definition ilog2 (x : Q) : Z :=
  if Qle_bool 1 x then Z.log2 (Qfloor x) else (- Z.log2_up (Qceiling (/ x)))%Z.

(** The nearest integer, the even one of two that are equally near. *)
Definition nearestEven (x : Q) : Z :=
  let f := Qfloor x in
  match Qcompare (2 * (x - inject_Z f)) 1 with
  | Lt => f
  | Gt => (f + 1)%Z
  | Eq => if Z.even f then f else (f + 1)%Z
  end.

(** The exponent of the last place of a positive number: 53 significant
    bits, and no place below 2^-1074. *)
Definition exponent (x : Q) : Z := Z.max (-1074) (ilog2 x - 52).

Definition roundPos (x : Q) : Q :=
  let e := exponent x in
  inject_Z (nearestEven (x * 2 ^ (- e))) * 2 ^ e.

Definition round (x : Q) : Q :=
  match Qcompare x 0 with
  | Gt => roundPos x
  | Lt => - roundPos (- x)
  | Eq => 0
  end.

Definition add (x y : Q) : Q := round (x + y).
Definition sub (x y : Q) : Q := round (x - y).
Definition mul (x y : Q) : Q := round (x * y).
Definition div (x y : Q) : Q := round (x / y).
End Double.

(** ** createBucket: the token bucket of a connection

    The clock readings of [Date.now()] are integers (milliseconds)
    supplied by the caller. *)
Record Bucket : Type := mkBucket {
  capacity : Q;
  refillRate : Q;
  tokens : Q;
  last : Z
}.

Definition createBucket (now : Z) (capacity refillRate : Q) : Bucket :=
  {| capacity := capacity; refillRate := refillRate;
     tokens := capacity; last := now |}.

(** The refill at the head of [take]. *)
Definition refill (this : Bucket) (now : Z) : Bucket :=
  let delta := Double.sub (inject_Z now) (inject_Z this.(last)) in
  if negb (Qle_bool delta 0) then
    {| capacity := this.(capacity); refillRate := this.(refillRate);
       tokens := Qmin this.(capacity)
                   (Double.add this.(tokens)
                      (Double.mul (Double.div delta 1000) this.(refillRate)));
       last := now |}
  else this.

(** [take(n)] at clock reading [now]. *)
Definition take (this : Bucket) (now : Z) (n : Q) : bool * Bucket :=
  let this1 := refill this now in
  if Qle_bool n this1.(tokens) then
    (true, {| capacity := this1.(capacity); refillRate := this1.(refillRate);
              tokens := Double.sub this1.(tokens) n; last := this1.(last) |})
  else (false, this1).

(** A run of [take] calls, each with its clock reading and amount; returns
    the answers and the final bucket. *)
Fixpoint takeAll (this : Bucket) (calls : list (Z * Q)) : list bool * Bucket :=
  match calls with
  | [] => ([], this)
  | (now, n) :: rest =>
      let (ok, this1) := take this now n in
      let (oks, this2) := takeAll this1 rest in
      (ok :: oks, this2)
  end.

(** ** A JavaScript Map with string keys

    Kept as an association list in insertion order, which is the order
    [values()] iterates in. *)
Module JsMap.
Section WithValue.
Context {V : Type}.

Fixpoint get (k : string) (m : list (string * V)) : option V :=
  match m with
  | [] => None
  | (k', v) :: rest => if String.eqb k k' then Some v else get k rest
  end.

(** [set] keeps the position of a key that is already present. *)
Fixpoint set (k : string) (v : V) (m : list (string * V)) : list (string * V) :=
  match m with
  | [] => [(k, v)]
  | (k', v') :: rest =>
      if String.eqb k k' then (k, v) :: rest else (k', v') :: set k v rest
  end.

Definition delete (k : string) (m : list (string * V)) : list (string * V) :=
  filter (fun kv => negb (String.eqb k (fst kv))) m.

Definition values (m : list (string * V)) : list V := map snd m.
End WithValue.
End JsMap.

(** ** Numbers in payloads

    What [Number(v)] makes of a payload field: not a number, an infinity,
    or a finite number (minus zero being zero). *)
Inductive JsNumber : Type :=
| NaN
| Infinity (negative : bool)
| Finite (q : Q).

(** The truth value of a number: zero and NaN are false. *)
Definition truthy (v : JsNumber) : bool :=
  match v with
  | NaN => false
  | Infinity _ => true
  | Finite q => negb (Qeq_bool q 0)
  end.

(** [a < b]; false when either side is NaN. *)
Definition lessThan (a b : JsNumber) : bool :=
  match a, b with
  | NaN, _ | _, NaN => false
  | Infinity true, Infinity true => false
  | Infinity true, _ => true
  | _, Infinity true => false
  | Infinity false, _ => false
  | Finite _, Infinity false => true
  | Finite x, Finite y => negb (Qle_bool y x)
  end.

(** ** Sessions *)

(** What the server asks of a pseudo-terminal handle. *)
Inductive PtyCall : Type :=
| PtyWrite (data : string)
| PtyResize (cols rows : JsNumber)
| PtyKill.

(** A session object. The pseudo-terminal is opaque: [pty] is the list of
    calls issued on its handle, oldest first. *)
Record Session : Type := mkSession {
  id : string;
  name : string;
  pty : list PtyCall;
  history : RingBuffer
}.

Definition HISTORY_LIMIT : Z := 1024 * 512.

(** What a connection receives from the server. Payload text is carried as
    its bytes. *)
Inductive ServerEvent : Type :=
| SessionsList (l : list (string * string))
| SessionCreated (id name : string)
| SessionClosed (id name : string)
| Output (d : list byte)
| History (h : list byte)
| Ack (id name : string).

(** A connected socket: the rooms it is in, its bucket, and what has been
    delivered to it, oldest first. *)
Record Socket : Type := mkSocket {
  rooms : list string;
  bucket : Bucket;
  inbox : list ServerEvent
}.

(** The process: session objects live in [heap] and are shared by reference
    between the [sessions] map and the callbacks of their pseudo-terminal;
    [timers] are the sessions whose startup write is still pending. *)
Record Server : Type := mkServer {
  heap : list Session;
  sessions : list (string * nat);
  sockets : list (string * Socket);
  timers : list nat
}.

Definition emptyServer : Server :=
  {| heap := []; sessions := []; sockets := []; timers := [] |}.

Definition setHeap (h : list Session) (s : Server) : Server :=
  {| heap := h; sessions := s.(sessions); sockets := s.(sockets);
     timers := s.(timers) |}.

Definition setSessions (m : list (string * nat)) (s : Server) : Server :=
  {| heap := s.(heap); sessions := m; sockets := s.(sockets);
     timers := s.(timers) |}.

Definition setSockets (k : list (string * Socket)) (s : Server) : Server :=
  {| heap := s.(heap); sessions := s.(sessions); sockets := k;
     timers := s.(timers) |}.

Definition setTimers (t : list nat) (s : Server) : Server :=
  {| heap := s.(heap); sessions := s.(sessions); sockets := s.(sockets);
     timers := t |}.

(** Replace the element at an index of a list; nothing out of range. *)
Fixpoint updateAt {A} (i : nat) (f : A -> A) (l : list A) : list A :=
  match l, i with
  | [], _ => []
  | x :: rest, O => f x :: rest
  | x :: rest, S i' => x :: updateAt i' f rest
  end.

(** [sessions.get(sessionId)]: the reference and the object behind it. *)
Definition getSession (sessionId : string) (s : Server) : option (nat * Session) :=
  match JsMap.get sessionId s.(sessions) with
  | Some ref =>
      match nth_error s.(heap) ref with
      | Some session => Some (ref, session)
      | None => None
      end
  | None => None
  end.

(** [Array.from(sessions.values())] *)
Definition sessionValues (s : Server) : list Session :=
  flat_map (fun ref => match nth_error s.(heap) ref with
                       | Some session => [session]
                       | None => []
                       end)
           (JsMap.values s.(sessions)).

(** The [{id, name}] list sent on connect. *)
Definition listSessions (s : Server) : list (string * string) :=
  map (fun session => (session.(id), session.(name))) (sessionValues s).

(** *** Emitting *)

Definition deliver (e : ServerEvent) (k : Socket) : Socket :=
  {| rooms := k.(rooms); bucket := k.(bucket); inbox := k.(inbox) ++ [e] |}.

Definition inRoom (room : string) (k : Socket) : bool :=
  existsb (String.eqb room) k.(rooms).

(** [io.emit(e)] *)
Definition ioEmit (e : ServerEvent) (s : Server) : Server :=
  setSockets (map (fun kv => (fst kv, deliver e (snd kv))) s.(sockets)) s.

(** [io.to(room).emit(e)] *)
Definition ioToEmit (room : string) (e : ServerEvent) (s : Server) : Server :=
  setSockets (map (fun kv => (fst kv,
                              if inRoom room (snd kv) then deliver e (snd kv)
                              else snd kv))
                  s.(sockets)) s.

(** An update of one socket, by id. *)
Definition withSocket (socketId : string) (f : Socket -> Socket) (s : Server) : Server :=
  setSockets (map (fun kv => (fst kv,
                              if String.eqb socketId (fst kv) then f (snd kv)
                              else snd kv))
                  s.(sockets)) s.

(** [socket.emit(e)] *)
Definition socketEmit (socketId : string) (e : ServerEvent) (s : Server) : Server :=
  withSocket socketId (deliver e) s.

(** *** getNextSessionNumber *)

(** The rest of [s] after the prefix [p], if [s] starts with it. *)
Fixpoint stripPrefix (p s : string) : option string :=
  match p, s with
  | EmptyString, _ => Some s
  | String a p', String b s' => if Ascii.eqb a b then stripPrefix p' s' else None
  | String _ _, EmptyString => None
  end.

(** [s.name.match(/^Session (\d+)$/)] followed by [parseInt(match[1], 10)]:
    [None] is the source's [null]. The number is the one the digits
    write, which is what [parseInt] returns below 2^53; above, [parseInt]
    rounds. *)
Definition sessionNumberOf (name : string) : option nat :=
  match stripPrefix "Session " name with
  | Some digits => option_map Nat.of_uint (NilZero.uint_of_string digits)
  | None => None
  end.

(** [.filter(n => n !== null)] *)
Fixpoint filterNotNull (l : list (option nat)) : list nat :=
  match l with
  | [] => []
  | Some n :: rest => n :: filterNotNull rest
  | None :: rest => filterNotNull rest
  end.

(** [.sort((a, b) => a - b)] *)
Fixpoint insertAsc (n : nat) (l : list nat) : list nat :=
  match l with
  | [] => [n]
  | m :: rest => if (n <=? m)%nat then n :: l else m :: insertAsc n rest
  end.

Definition sortAsc (l : list nat) : list nat := fold_right insertAsc [] l.

(** The loop over [usedNumbers], with its [break]. *)
Fixpoint scanGap (nextNumber : nat) (usedNumbers : list nat) : nat :=
  match usedNumbers with
  | [] => nextNumber
  | num :: rest =>
      if (num =? nextNumber)%nat then scanGap (S nextNumber) rest
      else nextNumber
  end.

Definition usedNumbers (s : Server) : list nat :=
  sortAsc (filterNotNull (map (fun session => sessionNumberOf session.(name))
                              (sessionValues s))).

Definition getNextSessionNumber (s : Server) : nat :=
  scanGap 1 (usedNumbers s).

(** The template literal [`Session ${sessionNumber}`]. *)
Definition sessionName (sessionNumber : nat) : string :=
  ("Session " ++ NilZero.string_of_uint (Nat.to_uint sessionNumber))%string.

(** *** createSession *)

(** What the environment decides in one call of [createSession]: the id
    [uuidv4()] returns, whether [pty.spawn] returns a handle or throws, and
    the bytes left in the freshly allocated history buffer. *)
Record SpawnEnv : Type := mkSpawnEnv {
  uuid : string;
  spawned : bool;
  junk : nat -> byte
}.

(** Returns the reference of the new session object, or [None] for the
    source's [null]. The two callbacks registered on the handle are the
    [PtyData] and [PtyExit] events below. *)
Definition createSession (isInitial : bool) (env : SpawnEnv) (s : Server)
  : Server * option nat :=
  if negb env.(spawned) then (s, None)
  else
    let sessionNumber := getNextSessionNumber s in
    let session := {| id := env.(uuid);
                      name := sessionName sessionNumber;
                      pty := [];
                      history := newRingBuffer env.(junk) HISTORY_LIMIT |} in
    let ref := List.length s.(heap) in
    let s1 := setHeap (s.(heap) ++ [session]) s in
    let s2 := setSessions (JsMap.set session.(id) ref s1.(sessions)) s1 in
    let s3 := ioEmit (SessionCreated session.(id) session.(name)) s2 in
    let s4 := if isInitial then setTimers (s3.(timers) ++ [ref]) s3 else s3 in
    (s4, Some ref).

(** The command written to the initial session by the timer. *)
Definition startupCommand : string :=
  ("cd ~/project/src/ && bash root.sh" ++ String (ascii_of_nat 13) EmptyString)%string.

(** A call on the handle of the session object at [ref]. *)
Definition ptyCall (ref : nat) (c : PtyCall) (s : Server) : Server :=
  setHeap (updateAt ref (fun session =>
                           {| id := session.(id); name := session.(name);
                              pty := session.(pty) ++ [c];
                              history := session.(history) |})
                    s.(heap)) s.

Definition setHistory (ref : nat) (h : RingBuffer) (s : Server) : Server :=
  setHeap (updateAt ref (fun session =>
                           {| id := session.(id); name := session.(name);
                              pty := session.(pty);
                              history := h |})
                    s.(heap)) s.

(** *** The callbacks of a pseudo-terminal *)

(** [ptyProc.on('data', ...)] of the session object at [ref]: an append
    that throws is caught, and then nothing is published. *)
Definition onPtyData (ref : nat) (d : list byte) (s : Server) : Completion * Server :=
  match nth_error s.(heap) ref with
  | None => (Normal, s)
  | Some session =>
      match append session.(history) d with
      | (Normal, h) =>
          (Normal, ioToEmit session.(id) (Output d) (setHistory ref h s))
      | (Throw, h) => (Normal, setHistory ref h s)
      end
  end.

(** [ptyProc.on('exit', ...)] *)
Definition onPtyExit (ref : nat) (s : Server) : Completion * Server :=
  match nth_error s.(heap) ref with
  | None => (Normal, s)
  | Some session =>
      let s1 := setSessions (JsMap.delete session.(id) s.(sessions)) s in
      (Normal, ioEmit (SessionClosed session.(id) session.(name)) s1)
  end.

(** The [setTimeout] callback of the initial session. *)
Definition onStartupTimer (s : Server) : Completion * Server :=
  match s.(timers) with
  | [] => (Normal, s)
  | ref :: rest => (Normal, ptyCall ref (PtyWrite startupCommand) (setTimers rest s))
  end.

(** *** The handlers of a connection *)

Definition connected (socketId : string) (s : Server) : bool :=
  match JsMap.get socketId s.(sockets) with Some _ => true | None => false end.

(** [io.on('connection', ...)]: the socket starts in its own room. *)
Definition onConnection (socketId : string) (now : Z) (s : Server) : Completion * Server :=
  let k := {| rooms := [socketId];
              bucket := createBucket now 32768 16384;
              inbox := [] |} in
  let s1 := setSockets (JsMap.set socketId k s.(sockets)) s in
  (Normal, socketEmit socketId (SessionsList (listSessions s1)) s1).

(** [socket.leave] of every room but the socket's own. *)
Definition leaveRooms (socketId : string) (k : Socket) : Socket :=
  {| rooms := filter (fun room => String.eqb room socketId) k.(rooms);
     bucket := k.(bucket); inbox := k.(inbox) |}.

(** [socket.join(room)] *)
Definition join (room : string) (k : Socket) : Socket :=
  if inRoom room k then k
  else {| rooms := k.(rooms) ++ [room]; bucket := k.(bucket); inbox := k.(inbox) |}.

(** [socket.on('switch-session', ...)] *)
Definition onSwitchSession (socketId sessionId : string) (s : Server)
  : Completion * Server :=
  let s1 := withSocket socketId (leaveRooms socketId) s in
  match getSession sessionId s1 with
  | Some (_, session) =>
      let s2 := withSocket socketId (join sessionId) s1 in
      let h := toString session.(history) in
      match h with
      | [] => (Normal, s2)
      | _ :: _ => (Normal, socketEmit socketId (History h) s2)
      end
  | None => (Normal, s1)
  end.

(** [socket.on('create-session', ...)] *)
Definition onCreateSession (socketId : string) (hasCallback : bool) (env : SpawnEnv)
           (s : Server) : Completion * Server :=
  match createSession false env s with
  | (s1, Some ref) =>
      if hasCallback then
        match nth_error s1.(heap) ref with
        | Some newSession =>
            (Normal, socketEmit socketId (Ack newSession.(id) newSession.(name)) s1)
        | None => (Normal, s1)
        end
      else (Normal, s1)
  | (s1, None) => (Normal, s1)
  end.

(** [socket.on('close-session', ...)]: [kill] is not guarded. *)
Definition onCloseSession (sessionId : string) (killThrows : bool) (s : Server)
  : Completion * Server :=
  match getSession sessionId s with
  | Some (ref, _) =>
      (if killThrows then Throw else Normal, ptyCall ref PtyKill s)
  | None => (Normal, s)
  end.

(** [Buffer.byteLength(String(data), 'utf8')], [data] being its bytes. *)
Definition byteLength (data : string) : Z := Z.of_nat (String.length data).

Definition setBucket (b : Bucket) (k : Socket) : Socket :=
  {| rooms := k.(rooms); bucket := b; inbox := k.(inbox) |}.

(** [socket.on('input', ...)]: a [write] that throws is caught. *)
Definition onInput (socketId sessionId : string) (data : string) (now : Z)
           (writeThrows : bool) (s : Server) : Completion * Server :=
  match getSession sessionId s with
  | None => (Normal, s)
  | Some (ref, _) =>
      match JsMap.get socketId s.(sockets) with
      | None => (Normal, s)
      | Some k =>
          let bytes := byteLength data in
          let (ok, b) := take k.(bucket) now (inject_Z bytes) in
          let s1 := withSocket socketId (setBucket b) s in
          if negb ok then (Normal, s1)
          else (Normal, ptyCall ref (PtyWrite data) s1)
      end
  end.

(** [Number(v) || dflt], [v] being what [Number] made of the payload
    field. *)
Definition numberOr (v dflt : JsNumber) : JsNumber :=
  if truthy v then v else dflt.

(** [socket.on('resize', ...)]: a [resize] that throws is caught. *)
Definition onResize (sessionId : string) (cols rows : JsNumber)
           (resizeThrows : bool) (s : Server) : Completion * Server :=
  match getSession sessionId s with
  | None => (Normal, s)
  | Some (ref, _) =>
      let cols := numberOr cols (Finite 80) in
      let rows := numberOr rows (Finite 30) in
      if lessThan cols (Finite 40) || lessThan (Finite 1000) cols
         || lessThan rows (Finite 10) || lessThan (Finite 400) rows
      then (Normal, s)
      else (Normal, ptyCall ref (PtyResize cols rows) s)
  end.

(** A disconnected socket is gone from the server, rooms included. *)
Definition onDisconnect (socketId : string) (s : Server) : Completion * Server :=
  (Normal, setSockets (JsMap.delete socketId s.(sockets)) s).

(** *** The event loop *)

(** One turn of the loop. The handlers of a socket only run while it is
    connected. *)
Inductive Event : Type :=
| Startup (env : SpawnEnv)
| Connection (socketId : string) (now : Z)
| SwitchSession (socketId sessionId : string)
| CreateSession (socketId : string) (hasCallback : bool) (env : SpawnEnv)
| CloseSession (socketId sessionId : string) (killThrows : bool)
| Input (socketId sessionId : string) (data : string) (now : Z) (writeThrows : bool)
| Resize (socketId sessionId : string) (cols rows : JsNumber) (resizeThrows : bool)
| Disconnect (socketId : string)
| PtyData (ref : nat) (d : list byte)
| PtyExit (ref : nat)
| StartupTimer (writeThrows : bool).

Definition guarded (socketId : string) (s : Server) (r : Completion * Server)
  : Completion * Server :=
  if connected socketId s then r else (Normal, s).

Definition step (s : Server) (e : Event) : Completion * Server :=
  match e with
  | Startup env =>
      match s.(sessions) with
      | [] => (Normal, fst (createSession true env s))
      | _ :: _ => (Normal, s)
      end
  | Connection socketId now => onConnection socketId now s
  | SwitchSession socketId sessionId =>
      guarded socketId s (onSwitchSession socketId sessionId s)
  | CreateSession socketId hasCallback env =>
      guarded socketId s (onCreateSession socketId hasCallback env s)
  | CloseSession socketId sessionId killThrows =>
      guarded socketId s (onCloseSession sessionId killThrows s)
  | Input socketId sessionId data now writeThrows =>
      guarded socketId s (onInput socketId sessionId data now writeThrows s)
  | Resize socketId sessionId cols rows resizeThrows =>
      guarded socketId s (onResize sessionId cols rows resizeThrows s)
  | Disconnect socketId => guarded socketId s (onDisconnect socketId s)
  | PtyData ref d => onPtyData ref d s
  | PtyExit ref => onPtyExit ref s
  | StartupTimer _ => onStartupTimer s
  end.

(** The server after a sequence of turns; a handler that throws is logged
    by the process and the loop goes on. *)
Definition run (s : Server) (es : list Event) : Server :=
  fold_left (fun s e => snd (step s e)) es s.

(** The states the process can be in. *)
Definition reachable (s : Server) : Prop :=
  exists es, s = run emptyServer es.

(** What the socket [socketId] has been sent so far. *)
Definition inboxOf (socketId : string) (s : Server) : list ServerEvent :=
  match JsMap.get socketId s.(sockets) with
  | Some k => k.(inbox)
  | None => []
  end.

(** The rooms of the socket [socketId]. *)
Definition roomsOf (socketId : string) (s : Server) : list string :=
  match JsMap.get socketId s.(sockets) with
  | Some k => k.(rooms)
  | None => []
  end.

(** The calls issued so far on the handle of the session [sessionId]. *)
Definition ptyCallsOf (sessionId : string) (s : Server) : list PtyCall :=
  match getSession sessionId s with
  | Some (_, session) => session.(pty)
  | None => []
  end.

(** ** Notions used to state the properties *)

(** Reading a buffer at an integer index. *)
Definition byteAt (l : list byte) (i : Z) : option byte :=
  nth_error l (Z.to_nat i).

(** The ring [this] holds the tail of the stream [s]: it is as long as its
    limit, and its [len] live bytes, read from [start] around the end of the
    array, are the last bytes of [s]. *)
Record holdsTail (this : RingBuffer) (s : list byte) : Prop := mkHoldsTail {
  ht_limit : 0 < this.(limit);
  ht_buf : Buffer.length this.(buf) = this.(limit);
  ht_start : 0 <= this.(start) < this.(limit);
  ht_len : this.(len) = Z.min this.(limit) (Buffer.length s);
  ht_bytes : forall i, 0 <= i < this.(len) ->
      byteAt this.(buf) ((this.(start) + i) mod this.(limit))
      = byteAt s (Buffer.length s - this.(len) + i)
}.

(** Well-formed UTF-8: sequences of one to four bytes whose lead byte and
    following bytes are in the ranges of the encoding (no overlong form, no
    surrogate, nothing above U+10FFFF). *)
Inductive utf8 : list byte -> Prop :=
| utf8_nil : utf8 []
| utf8_one b0 r :
    Buffer.between 0x00 0x7f b0 = true ->
    utf8 r -> utf8 (b0 :: r)
| utf8_two b0 b1 r :
    Buffer.between 0xc2 0xdf b0 = true ->
    Buffer.continuation b1 = true ->
    utf8 r -> utf8 (b0 :: b1 :: r)
| utf8_three b0 b1 b2 r :
    Buffer.between 0xe0 0xef b0 = true ->
    Buffer.second b0 b1 = true ->
    Buffer.continuation b2 = true ->
    utf8 r -> utf8 (b0 :: b1 :: b2 :: r)
| utf8_four b0 b1 b2 b3 r :
    Buffer.between 0xf0 0xf4 b0 = true ->
    Buffer.second b0 b1 = true ->
    Buffer.continuation b2 = true ->
    Buffer.continuation b3 = true ->
    utf8 r -> utf8 (b0 :: b1 :: b2 :: b3 :: r).

(** The finite doubles, as rationals: a significand below 2^53 in
    magnitude at an exponent of at least -1074. *)
Definition representable (x : Q) : Prop :=
  exists m e : Z,
    (Z.abs m < 2 ^ 53)%Z /\ (-1074 <= e)%Z /\ (x == inject_Z m * 2 ^ e)%Q.




(** Environments for examples: a spawn that works on a zeroed buffer, and
    one that fails. *)
Definition spawnOk (u : string) : SpawnEnv :=
  {| uuid := u; spawned := true; junk := fun _ => x00 |}.

Definition spawnFails (u : string) : SpawnEnv :=
  {| uuid := u; spawned := false; junk := fun _ => x00 |}.

(** A server with one connection, "c", and one session, "a", which "c" has
    switched to. *)
Definition oneSession : Server :=
  run emptyServer [Connection "c" 0; CreateSession "c" true (spawnOk "a");
                   SwitchSession "c" "a"].

(** The socket "c" and the session object "a" of [oneSession]. *)
Definition socketC : Socket :=
  {| rooms := ["c"; "a"]%string;
     bucket := createBucket 0 32768 16384;
     inbox := [SessionsList []; SessionCreated "a" "Session 1"; Ack "a" "Session 1"] |}.

Definition sessionA : Session :=
  {| id := "a"; name := "Session 1"; pty := [];
     history := newRingBuffer (fun _ => x00) HISTORY_LIMIT |}.

(** The numbers in use: the numeric suffixes of the names of the live
    sessions, in the order of the map. *)
Definition liveNumbers (s : Server) : list nat :=
  filterNotNull (map (fun session => sessionNumberOf session.(name)) (sessionValues s)).

(** The number, if any, carried by the name of the object at a reference,
    and the numbers of the objects a map refers to. *)
Definition numAt (h : list Session) (ref : nat) : list nat :=
  match nth_error h ref with
  | Some session =>
      match sessionNumberOf session.(name) with
      | Some n => [n]
      | None => []
      end
  | None => []
  end.

Definition numbers (h : list Session) (m : list (string * nat)) : list nat :=
  flat_map (fun kv => numAt h (snd kv)) m.

(** What holds of the server in every state it can reach: the map refers
    to objects that exist and carry the id they are filed under, every
    history holds the tail of some stream, and the numbers in use are
    positive and pairwise distinct. *)
Record wellFormed (s : Server) : Prop := mkWellFormed {
  wf_refs : forall k ref, In (k, ref) s.(sessions) ->
      exists session, nth_error s.(heap) ref = Some session /\ session.(id) = k;
  wf_hist : forall session, In session s.(heap) ->
      exists stream, holdsTail session.(history) stream;
  wf_nodup : NoDup (numbers s.(heap) s.(sessions));
  wf_pos : Forall (fun n => (1 <= n)%nat) (numbers s.(heap) s.(sessions))
}.

(** Sessions "a", "b", "d" created in turn by "c", then "b" closed and its
    pseudo-terminal exited. *)
Definition threeMinusOne : Server :=
  run emptyServer [Connection "c" 0;
                   CreateSession "c" true (spawnOk "a");
                   CreateSession "c" true (spawnOk "b");
                   CreateSession "c" true (spawnOk "d");
                   CloseSession "c" "b" false;
                   PtyExit 1].

(** The object [createSession] builds when the spawn works. *)
Definition freshSession (env : SpawnEnv) (s : Server) : Session :=
  {| id := env.(uuid);
     name := sessionName (getNextSessionNumber s);
     pty := [];
     history := newRingBuffer env.(junk) HISTORY_LIMIT |}.

(** The environment of the creation an event asks for, if it asks for one. *)
Definition createdBy (e : Event) : option SpawnEnv :=
  match e with
  | Startup env => Some env
  | CreateSession _ _ env => Some env
  | _ => None
  end.

(** What one turn does to the heap and the map. *)
Inductive registryStep (s s' : Server) (e : Event) : Prop :=
| rs_same :
    heap s' = heap s -> sessions s' = sessions s -> registryStep s s' e
| rs_call (i : nat) (c : PtyCall) :
    heap s' = updateAt i (fun x => {| id := id x; name := name x;
                                      pty := pty x ++ [c];
                                      history := history x |}) (heap s) ->
    sessions s' = sessions s -> registryStep s s' e
| rs_data (i : nat) (d : list byte) (session : Session) (h : RingBuffer) :
    e = PtyData i d ->
    nth_error (heap s) i = Some session ->
    append (history session) d = (Normal, h) ->
    heap s' = updateAt i (fun x => {| id := id x; name := name x;
                                      pty := pty x; history := h |}) (heap s) ->
    sessions s' = sessions s -> registryStep s s' e
| rs_create (env : SpawnEnv) :
    createdBy e = Some env ->
    heap s' = heap s ++ [freshSession env s] ->
    sessions s' = JsMap.set (uuid env) (List.length (heap s)) (sessions s) ->
    registryStep s s' e
| rs_exit (r : nat) (session : Session) :
    e = PtyExit r ->
    nth_error (heap s) r = Some session ->
    heap s' = heap s ->
    sessions s' = JsMap.delete (id session) (sessions s) ->
    registryStep s s' e.

(** The session object at [ref] is the only one that carries the id [sid]. *)
Definition soleHolder (sid : string) (ref : nat) (s : Server) : Prop :=
  forall r session,
    nth_error s.(heap) r = Some session -> session.(id) = sid -> r = ref.

(** No session object carries the id [c] (the id of a socket). *)
Definition noSessionNamed (c : string) (s : Server) : Prop :=
  forall r session, nth_error s.(heap) r = Some session -> session.(id) <> c.

(** The session named [nm] lives under the id [sid] at the reference [ref],
    and no other object carries that id. *)
Definition livesAt (sid : string) (ref : nat) (nm : string) (s : Server) : Prop :=
  JsMap.get sid s.(sessions) = Some ref
  /\ (exists session, nth_error s.(heap) ref = Some session
                      /\ session.(id) = sid /\ session.(name) = nm)
  /\ soleHolder sid ref s.

(** Events that are neither the exit of the pseudo-terminal of the object
    [ref] nor a creation under the id [sid]. *)
Definition sparesSession (sid : string) (ref : nat) (e : Event) : bool :=
  match e with
  | PtyExit r => negb (r =? ref)%nat
  | Startup env => negb (String.eqb (uuid env) sid)
  | CreateSession _ _ env => negb (String.eqb (uuid env) sid)
  | _ => true
  end.

(** The payloads of the output events, and of the history events, in what
    a socket was sent. *)
Definition outputsOf (l : list ServerEvent) : list (list byte) :=
  flat_map (fun e => match e with Output d => [d] | _ => [] end) l.

Definition historiesOf (l : list ServerEvent) : list (list byte) :=
  flat_map (fun e => match e with History h => [h] | _ => [] end) l.

(** The chunks the pseudo-terminal of the object [ref] produced in a run of
    events, in arrival order. *)
Definition chunksOf (ref : nat) (es : list Event) : list (list byte) :=
  flat_map (fun e => match e with
                     | PtyData r d => if (r =? ref)%nat then [d] else []
                     | _ => []
                     end) es.

(** Events through which the socket [c] keeps its subscription to [sid]:
    [c] neither reconnects, disconnects nor switches, and no session is
    created under the id [sid] or under the id of the socket. *)
Definition keepsSubscription (c sid : string) (e : Event) : bool :=
  match e with
  | Connection c' _ => negb (String.eqb c' c)
  | Disconnect c' => negb (String.eqb c' c)
  | SwitchSession c' _ => negb (String.eqb c' c)
  | Startup env =>
      negb (String.eqb (uuid env) sid) && negb (String.eqb (uuid env) c)
  | CreateSession _ _ env =>
      negb (String.eqb (uuid env) sid) && negb (String.eqb (uuid env) c)
  | _ => true
  end.

(** A socket subscribed to [sid]: in that room, and in no room but it and
    its own. *)
Definition subscribedTo (c sid : string) (k : Socket) : Prop :=
  inRoom sid k = true
  /\ forall room, In room (rooms k) -> room = c \/ room = sid.

(** Among the sockets [socks], the socket [c], which was [k], is in the same
    rooms and has been sent, on top of what [k] had, events whose outputs
    are [out] and none of which is a history. *)
Definition receivesOnly (c : string) (k : Socket) (socks : list (string * Socket))
           (out : list (list byte)) : Prop :=
  exists k' delivered,
    JsMap.get c socks = Some k'
    /\ rooms k' = rooms k
    /\ inbox k' = inbox k ++ delivered
    /\ outputsOf delivered = out
    /\ historiesOf delivered = [].

(** A server with the connection "c" and its session "a"; then the server
    after "a" has produced "A" and the connection "v" has arrived, and the
    session object at that point. *)
Definition beforeA : Server :=
  run emptyServer [Connection "c" 0; CreateSession "c" true (spawnOk "a")].

Definition withHistory : Server :=
  run beforeA [PtyData 0 [x41]; Connection "v" 1].

Definition sessionAfterA : Session :=
  {| id := "a"; name := "Session 1"; pty := [];
     history := snd (append (history sessionA) [x41]) |}.

(** ** Further notions: the bucket's account, shutdown *)

(** The amount admitted in a run of [take] calls: the sum of the amounts of
    the calls that answered true. *)
Fixpoint admitted (this : Bucket) (calls : list (Z * Q)) : Q :=
  match calls with
  | [] => 0%Q
  | (now, n) :: rest =>
      ((if fst (take this now n) then n else 0)
       + admitted (snd (take this now n)) rest)%Q
  end.

(** [shutdown()], up to [server.close]: every session of the map has its
    pseudo-terminal killed, a kill that throws being caught. *)
Definition shutdown (s : Server) : Completion * Server :=
  (Normal,
   fold_left (fun s ref => ptyCall ref PtyKill s) (JsMap.values s.(sessions)) s).

(** More of what holds in every state the server reaches: the keys of the
    map are pairwise distinct, no two keys share a session object, and
    every session object carries a name the server made. *)
Record registryOK (s : Server) : Prop := mkRegistryOK {
  rk_keys : NoDup (map fst s.(sessions));
  rk_refs : NoDup (map snd s.(sessions));
  rk_names : forall session, In session s.(heap) ->
      exists n, session.(name) = sessionName n
}.

(** A session object after one more call on its handle. *)
Definition called (c : PtyCall) (x : Session) : Session :=
  {| id := id x; name := name x; pty := pty x ++ [c]; history := history x |}.

(** The rooms of a socket are its own room and at most one other. *)
Definition roomsOK (c : string) (k : Socket) : Prop :=
  rooms k = [c] \/ exists sid, sid <> c /\ rooms k = [c; sid].

(** The bucket of a socket has the default capacity and holds no more
    than it. *)
Definition bucketOK (k : Socket) : Prop :=
  capacity (bucket k) = 32768%Q /\ (tokens (bucket k) <= capacity (bucket k))%Q.

Definition socketOK (c : string) (k : Socket) : Prop := roomsOK c k /\ bucketOK k.

Definition socketsOK (s : Server) : Prop :=
  Forall (fun kv => socketOK (fst kv) (snd kv)) s.(sockets).

(** ** public/client.js: the state of the browser side

    The page keeps the sessions it knows and the one it shows; the DOM and
    the terminal widget are outside, except for the calls made on the
    terminal, which are kept as a trace. [renderTabs] only rebuilds the DOM
    from this state. *)
Module Client.

(** What the page sends to the server. *)
Inductive Msg : Type :=
| SwitchSession (sessionId : string)
| CreateSession
| CloseSession (sessionId : string)
| Input (sessionId : string) (data : string)
| Resize (sessionId : option string) (cols rows : Z).

(** Calls on the terminal widget. *)
Inductive TermOp : Type :=
| Reset
| Write (data : string)
| Focus
| Fit.

(** [sessions] maps an id to the [{id, name}] object received under it;
  [resizes] counts the callbacks [resizeTerminal] has put on the timer
  queue. *)
Record State : Type := mkState {
sessions : list (string * (string * string));
activeSessionId : option string;
sent : list Msg;
term : list TermOp;
resizes : nat
}.

Definition init : State :=
{| sessions := []; activeSessionId := None; sent := []; term := []; resizes := 0 |}.

Definition has (sessionId : string) (c : State) : bool :=
match JsMap.get sessionId c.(sessions) with Some _ => true | None => false end.

(** [sessionId === activeSessionId] *)
Definition isActive (sessionId : string) (c : State) : bool :=
match c.(activeSessionId) with
| Some a => String.eqb sessionId a
| None => false
end.

(** The truth value of [activeSessionId]: null and the empty string are
  false. *)
Definition activeTruthy (c : State) : bool :=
match c.(activeSessionId) with
| Some a => negb (String.eqb a "")
| None => false
end.

(** [resizeTerminal()]: the emit itself runs later, from the timer. *)
Definition resizeTerminal (c : State) : State :=
if activeTruthy c then
  {| sessions := c.(sessions); activeSessionId := c.(activeSessionId);
     sent := c.(sent); term := c.(term); resizes := S c.(resizes) |}
else c.

Definition emit (m : Msg) (c : State) : State :=
{| sessions := c.(sessions); activeSessionId := c.(activeSessionId);
   sent := c.(sent) ++ [m]; term := c.(term); resizes := c.(resizes) |}.

Definition onTerm (ops : list TermOp) (c : State) : State :=
{| sessions := c.(sessions); activeSessionId := c.(activeSessionId);
   sent := c.(sent); term := c.(term) ++ ops; resizes := c.(resizes) |}.

Definition setActive (a : option string) (c : State) : State :=
{| sessions := c.(sessions); activeSessionId := a;
   sent := c.(sent); term := c.(term); resizes := c.(resizes) |}.

Definition setSessions (m : list (string * (string * string))) (c : State) : State :=
{| sessions := m; activeSessionId := c.(activeSessionId);
   sent := c.(sent); term := c.(term); resizes := c.(resizes) |}.

(** [switchSession(sessionId)] *)
Definition switchSession (sessionId : string) (c : State) : State :=
if negb (has sessionId c) || isActive sessionId c then c
else
  let c1 := setActive (Some sessionId) c in
  let c2 := emit (SwitchSession sessionId) c1 in
  let c3 := onTerm [Reset] c2 in
  let c4 := resizeTerminal c3 in
  onTerm [Focus] c4.

(** [sessions.keys().next().value] on a map that is not empty. *)
Definition firstKey (c : State) : option string :=
match c.(sessions) with
| [] => None
| (k, _) :: _ => Some k
end.

Definition switchToFirst (c : State) : State :=
match firstKey c with
| Some k => switchSession k c
| None => c
end.

(** [socket.on('sessions-list', ...)] *)
Definition onSessionsList (sessionList : list (string * string)) (c : State) : State :=
let m := fold_left (fun m s => JsMap.set (fst s) s m) sessionList [] in
let c1 := setSessions m c in
let activeKnown := match c1.(activeSessionId) with
                   | Some a => has a c1
                   | None => false
                   end in
if (0 <? List.length m)%nat && negb activeKnown then switchToFirst c1 else c1.

(** [socket.on('session-created', ...)] *)
Definition onSessionCreated (session : string * string) (c : State) : State :=
switchSession (fst session) (setSessions (JsMap.set (fst session) session c.(sessions)) c).

(** The escape character and the line end of the notices. *)
Definition esc : string := String (ascii_of_nat 27) EmptyString.

Definition crlf : string :=
String (ascii_of_nat 13) (String (ascii_of_nat 10) EmptyString).

(** The notice written when the last session is gone, and the one written
  on disconnect. *)
Definition allClosedNotice : string :=
(esc ++ "[31mTất cả các phiên đã đóng. Hãy tạo một phiên mới." ++ esc ++ "[0m" ++ crlf)%string.

Definition disconnectedNotice : string :=
(esc ++ "[31m⚠️  Mất kết nối với server. Đang thử kết nối lại..." ++ esc ++ "[0m" ++ crlf)%string.

(** [socket.on('session-closed', ...)] *)
Definition onSessionClosed (sessionId : string) (c : State) : State :=
let wasActive := isActive sessionId c in
if has sessionId c then
  let c1 := setSessions (JsMap.delete sessionId c.(sessions)) c in
  if wasActive && (0 <? List.length c1.(sessions))%nat then switchToFirst c1
  else if (List.length c1.(sessions) =? 0)%nat then
    onTerm [Reset; Write allClosedNotice] (setActive None c1)
  else c1
else c.

(** What happens to the page. *)
Inductive Event : Type :=
| SessionsList (sessionList : list (string * string))
| SessionCreated (session : string * string)
| SessionClosed (sessionId : string)
| Output (data : string)
| History (history : string)
| Connect
| Disconnect
| TermData (data : string)
| ClickTab (sessionId : string)
| ClickClose (sessionId : string) (confirmed : bool)
| ClickAdd
| WindowResize
| ResizeTimer (cols rows : Z).

Definition handle (c : State) (e : Event) : State :=
match e with
| SessionsList l => onSessionsList l c
| SessionCreated session => onSessionCreated session c
| SessionClosed sessionId => onSessionClosed sessionId c
| Output data => onTerm [Write data] c
| History h => onTerm [Reset; Write h] c
| Connect =>
    match c.(activeSessionId) with
    | Some a => if activeTruthy c then emit (SwitchSession a) c else c
    | None => c
    end
| Disconnect => onTerm [Write disconnectedNotice] c
| TermData data =>
    match c.(activeSessionId) with
    | Some a => if activeTruthy c then emit (Input a data) c else c
    | None => c
    end
| ClickTab sessionId =>
    if isActive sessionId c then c else switchSession sessionId c
| ClickClose sessionId confirmed =>
    if (1 <? List.length c.(sessions))%nat && confirmed
    then emit (CloseSession sessionId) c else c
| ClickAdd => emit CreateSession c
| WindowResize => resizeTerminal c
| ResizeTimer cols rows =>
    let c1 := {| sessions := c.(sessions); activeSessionId := c.(activeSessionId);
                 sent := c.(sent); term := c.(term);
                 resizes := pred c.(resizes) |} in
    emit (Resize c.(activeSessionId) cols rows) (onTerm [Fit] c1)
end.

(** The active session, if there is one, is a session the page knows. *)
Definition activeKnown (c : State) : Prop :=
match c.(activeSessionId) with
| Some a => has a c = true
| None => True
end.

End Client.

(** * Properties *)

(** ** The ring buffer *)



Lemma mod_window (m x : Z) :
  0 < m -> - m <= x < 2 * m ->
  x mod m = if x <? 0 then x + m else if x <? m then x else x - m.
Proof.
  intros Hm Hx.
  destruct (x <? 0) eqn:E0; [apply Z.ltb_lt in E0 | apply Z.ltb_ge in E0].
  - symmetry. apply (Z.mod_unique_pos x m (-1) (x + m)); lia.
  - destruct (x <? m) eqn:E1; [apply Z.ltb_lt in E1 | apply Z.ltb_ge in E1].
    + apply Z.mod_small; lia.
    + symmetry. apply (Z.mod_unique_pos x m 1 (x - m)); lia.
Qed.

Lemma rem_window (m x : Z) :
  0 < m -> 0 <= x < 2 * m ->
  Z.rem x m = if x <? m then x else x - m.
Proof.
  intros Hm Hx. rewrite Z.rem_mod_nonneg by lia.
  rewrite mod_window by lia.
  destruct (x <? 0) eqn:E; [apply Z.ltb_lt in E; lia | reflexivity].
Qed.

Lemma length_nat (l : list byte) : Z.to_nat (Buffer.length l) = List.length l.
Proof. unfold Buffer.length. apply Nat2Z.id. Qed.

Lemma length_nonneg (l : list byte) : 0 <= Buffer.length l.
Proof. unfold Buffer.length. lia. Qed.

Lemma length_app (a b : list byte) :
  Buffer.length (a ++ b) = Buffer.length a + Buffer.length b.
Proof. unfold Buffer.length. rewrite List.length_app. lia. Qed.

Lemma byteAt_app_l (a b : list byte) (i : Z) :
  0 <= i < Buffer.length a -> byteAt (a ++ b) i = byteAt a i.
Proof.
  intros H. unfold byteAt. apply nth_error_app1.
  unfold Buffer.length in H. lia.
Qed.

Lemma byteAt_app_r (a b : list byte) (i : Z) :
  Buffer.length a <= i -> byteAt (a ++ b) i = byteAt b (i - Buffer.length a).
Proof.
  intros H. unfold byteAt. unfold Buffer.length in *.
  rewrite nth_error_app2 by lia. f_equal. lia.
Qed.

(** What a copy that fits does: the target keeps its length and changes
    exactly on the window written. *)
Lemma copy_fits (source target : list byte) (t s e : Z) (sourceEnd : option Z) :
  e = match sourceEnd with Some x => x | None => Buffer.length source end ->
  0 <= t -> 0 <= s <= e -> e <= Buffer.length source ->
  t + (e - s) <= Buffer.length target ->
  exists target',
    Buffer.copy source target t s sourceEnd = Some target' /\
    Buffer.length target' = Buffer.length target /\
    forall p, 0 <= p ->
      byteAt target' p =
        if (t <=? p) && (p <? t + (e - s)) then byteAt source (p - t + s)
        else byteAt target p.
Proof.
  intros He Ht Hs Hle Hfit. unfold Buffer.copy. rewrite <- He.
  pose proof (length_nonneg source) as Hls.
  pose proof (length_nonneg target) as Hlt.
  replace ((t <? 0) || (s <? 0) || (Buffer.length source <? s) || (e <? 0))
    with false by (symmetry; rewrite !orb_false_iff, !Z.ltb_ge; lia).
  destruct ((Buffer.length target <=? t) || (e <=? s)) eqn:E.
  - exists target. split; [reflexivity | split; [reflexivity |]].
    intros p Hp.
    replace ((t <=? p) && (p <? t + (e - s))) with false; [reflexivity |].
    symmetry. apply andb_false_iff.
    rewrite Z.leb_gt, Z.ltb_ge.
    apply orb_true_iff in E. rewrite !Z.leb_le in E. lia.
  - apply orb_false_iff in E. rewrite !Z.leb_gt in E. destruct E as [E1 E2].
    rewrite (Z.min_l e) by lia.
    rewrite (Z.min_l (e - s)) by lia.
    eexists. split; [reflexivity |].
    assert (Hl1 : List.length (firstn (Z.to_nat t) target) = Z.to_nat t).
    { rewrite List.length_firstn. unfold Buffer.length in *. lia. }
    assert (Hl2 : List.length (firstn (Z.to_nat (e - s)) (skipn (Z.to_nat s) source))
                  = Z.to_nat (e - s)).
    { rewrite List.length_firstn, List.length_skipn. unfold Buffer.length in *. lia. }
    split.
    + unfold Buffer.length in *.
      rewrite !List.length_app, Hl1, Hl2, List.length_skipn. lia.
    + intros p Hp. unfold byteAt.
      destruct (t <=? p) eqn:Ea; [apply Z.leb_le in Ea | apply Z.leb_gt in Ea]; simpl.
      * rewrite nth_error_app2 by lia. rewrite Hl1.
        destruct (p <? t + (e - s)) eqn:Eb;
          [apply Z.ltb_lt in Eb | apply Z.ltb_ge in Eb].
        -- rewrite nth_error_app1 by lia.
           rewrite nth_error_firstn.
           replace (Z.to_nat p - Z.to_nat t <? Z.to_nat (e - s))%nat with true
             by (symmetry; apply Nat.ltb_lt; lia).
           rewrite nth_error_skipn. f_equal. lia.
        -- rewrite nth_error_app2 by lia. rewrite Hl2.
           rewrite nth_error_skipn. f_equal. lia.
      * rewrite nth_error_app1 by lia.
        rewrite nth_error_firstn.
        replace (Z.to_nat p <? Z.to_nat t)%nat with true
          by (symmetry; apply Nat.ltb_lt; lia).
        reflexivity.
Qed.


Section RingWrite.
Variables (b target : list byte) (m w : Z).
Hypothesis Hm : 0 < m.
Hypothesis Htarget : Buffer.length target = m.
Hypothesis Hw : 0 <= w < m.
Hypothesis Hb : Buffer.length b < m.

(** The two copies at the end of [append] write [b] around the ring from
    position [w] and leave the rest as it was. *)
Lemma ring_write :
  let firstPart := Z.min (Buffer.length b) (m - w) in
  exists buf1 buf2,
    Buffer.copy b target w 0 (Some firstPart) = Some buf1 /\
    (if firstPart <? Buffer.length b then Buffer.copy b buf1 0 firstPart None
     else Some buf1) = Some buf2 /\
    Buffer.length buf2 = m /\
    forall p, 0 <= p < m ->
      byteAt buf2 p =
        if (p - w) mod m <? Buffer.length b then byteAt b ((p - w) mod m)
        else byteAt target p.
Proof.
  intros firstPart.
  pose proof (length_nonneg b) as Hb0.
  destruct (copy_fits b target w 0 firstPart (Some firstPart))
    as (buf1 & Hc1 & Hl1 & Hr1); try reflexivity; try (unfold firstPart; lia).
  exists buf1. rewrite Hc1.
  destruct (firstPart <? Buffer.length b) eqn:E;
    [apply Z.ltb_lt in E | apply Z.ltb_ge in E].
  - destruct (copy_fits b buf1 0 firstPart (Buffer.length b) None)
      as (buf2 & Hc2 & Hl2 & Hr2); try reflexivity; try (unfold firstPart in *; lia).
    exists buf2. rewrite Hc2. repeat split; try congruence.
    intros p Hp. rewrite Hr2, Hr1 by lia.
    rewrite (mod_window m (p - w)) by lia.
    assert (Hf : firstPart = m - w) by (unfold firstPart in *; lia).
    rewrite Hf.
    destruct (p - w <? 0) eqn:E0; [apply Z.ltb_lt in E0 | apply Z.ltb_ge in E0].
    + destruct (p <? 0 + (Buffer.length b - (m - w))) eqn:E1;
        [apply Z.ltb_lt in E1 | apply Z.ltb_ge in E1].
      * replace (0 <=? p) with true by (symmetry; apply Z.leb_le; lia). simpl.
        replace (p - w + m <? Buffer.length b) with true
          by (symmetry; apply Z.ltb_lt; lia).
        f_equal. lia.
      * rewrite andb_false_r.
        replace (w <=? p) with false by (symmetry; apply Z.leb_gt; lia). simpl.
        replace (p - w + m <? Buffer.length b) with false
          by (symmetry; apply Z.ltb_ge; lia).
        reflexivity.
    + replace (p <? 0 + (Buffer.length b - (m - w))) with false
        by (symmetry; apply Z.ltb_ge; lia).
      rewrite andb_false_r.
      replace (p - w <? m) with true by (symmetry; apply Z.ltb_lt; lia).
      replace (w <=? p) with true by (symmetry; apply Z.leb_le; lia).
      replace (p <? w + (m - w - 0)) with true by (symmetry; apply Z.ltb_lt; lia).
      replace (p - w <? Buffer.length b) with true
        by (symmetry; apply Z.ltb_lt; lia).
      simpl. f_equal. lia.
  - exists buf1. repeat split; try congruence.
    intros p Hp. rewrite Hr1 by lia.
    rewrite (mod_window m (p - w)) by lia.
    assert (Hf : firstPart = Buffer.length b) by (unfold firstPart in *; lia).
    rewrite Hf.
    destruct (p - w <? 0) eqn:E0; [apply Z.ltb_lt in E0 | apply Z.ltb_ge in E0].
    + replace (w <=? p) with false by (symmetry; apply Z.leb_gt; lia). simpl.
      replace (p - w + m <? Buffer.length b) with false
        by (symmetry; apply Z.ltb_ge; lia).
      reflexivity.
    + replace (p - w <? m) with true by (symmetry; apply Z.ltb_lt; lia).
      replace (w <=? p) with true by (symmetry; apply Z.leb_le; lia). simpl.
      replace (w + (Buffer.length b - 0)) with (w + Buffer.length b) by lia.
      destruct (p <? w + Buffer.length b) eqn:E1;
        [apply Z.ltb_lt in E1 | apply Z.ltb_ge in E1].
      * replace (p - w <? Buffer.length b) with true
          by (symmetry; apply Z.ltb_lt; lia).
        f_equal. lia.
      * replace (p - w <? Buffer.length b) with false
          by (symmetry; apply Z.ltb_ge; lia).
        reflexivity.
Qed.
End RingWrite.

(** A fresh ring holds the tail of the empty stream. *)
Lemma newRingBuffer_holdsTail (junk : nat -> byte) (C : Z) :
  0 < C -> holdsTail (newRingBuffer junk C) [].
Proof.
  intros HC. constructor; simpl.
  - exact HC.
  - unfold Buffer.allocUnsafe, Buffer.length.
    rewrite List.length_map, List.length_seq. lia.
  - lia.
  - unfold Buffer.length. simpl. lia.
  - intros i Hi. lia.
Qed.

(** [append] never throws on a ring that holds the tail of a stream, and
    the ring then holds the tail of the stream extended by the chunk. *)
Lemma append_holdsTail (this : RingBuffer) (s b : list byte) :
  holdsTail this s ->
  exists this', append this b = (Normal, this') /\ holdsTail this' (s ++ b)
                /\ this'.(limit) = this.(limit).
Proof.
  intros [Hm Hbuf Hstart Hlen Hbytes].
  pose proof (length_nonneg b) as Hb0.
  pose proof (length_nonneg s) as Hs0.
  unfold append.
  destruct (limit this <=? Buffer.length b) eqn:Ebig;
    [apply Z.leb_le in Ebig | apply Z.leb_gt in Ebig].
  - (* the chunk alone fills the ring *)
    destruct (copy_fits b (buf this) 0 (Buffer.length b - limit this)
                        (Buffer.length b) None)
      as (buf' & Hc & Hl & Hr); try reflexivity; try lia.
    rewrite Hc. eexists. split; [reflexivity |]. split; [| reflexivity].
    constructor; simpl; try lia.
    + rewrite length_app. lia.
    + intros i Hi. rewrite length_app.
      rewrite Z.mod_small by lia. rewrite Hr by lia.
      replace ((0 <=? i) && (i <? 0 + (Buffer.length b - (Buffer.length b - limit this))))
        with true by (symmetry; apply andb_true_iff; rewrite Z.leb_le, Z.ltb_lt; lia).
      rewrite byteAt_app_r by lia. f_equal. lia.
  - set (free := limit this - len this).
    set (this1 := if free <? Buffer.length b then _ else _).
    assert (H1 : limit this1 = limit this /\ buf this1 = buf this /\
                 0 <= start this1 < limit this /\
                 len this1 = Z.min (limit this) (Buffer.length (s ++ b)) /\
                 Buffer.length b <= len this1 /\
                 (start this1 + (len this1 - Buffer.length b)) mod limit this
                 = (start this + len this) mod limit this /\
                 len this1 <= len this + Buffer.length b).
    { unfold this1, free. rewrite length_app.
      destruct (limit this - len this <? Buffer.length b) eqn:Eov;
        [apply Z.ltb_lt in Eov | apply Z.ltb_ge in Eov]; simpl.
      - rewrite rem_window by lia.
        destruct (start this + (Buffer.length b - (limit this - len this)) <? limit this) eqn:E;
          [apply Z.ltb_lt in E | apply Z.ltb_ge in E].
        + repeat split; try lia. f_equal. lia.
        + repeat split; try lia.
          replace (start this + (Buffer.length b - (limit this - len this))
                   - limit this + (limit this - Buffer.length b))
            with (start this + len this + (-1) * limit this) by lia.
          apply Z.mod_add. lia.
      - repeat split; try lia. f_equal. lia. }
    destruct H1 as (Hlim1 & Hbuf1 & Hstart1 & Hlen1 & Hble & Hpos & Hkeep).
    set (writePos := Z.rem (start this1 + len this1 - Buffer.length b) (limit this1)).
    assert (Hw : writePos = (start this1 + (len this1 - Buffer.length b)) mod limit this
                 /\ 0 <= writePos < limit this).
    { unfold writePos. rewrite Hlim1.
      rewrite Z.rem_mod_nonneg by lia.
      split; [f_equal; lia | apply Z.mod_pos_bound; lia]. }
    destruct Hw as [Hweq Hwr].
    destruct (ring_write b (buf this1) (limit this) writePos)
      as (buf1 & buf2 & Hc1 & Hc2 & Hl2 & Hr2); try lia; try congruence.
    rewrite Hlim1. cbv zeta in Hc1, Hc2. rewrite Hc1.
    assert (Hfinal : holdsTail {| buf := buf2; limit := limit this;
                                  start := start this1; len := len this1 |} (s ++ b)).
    { constructor; simpl; try lia.
      intros i Hi. rewrite Hr2 by (apply Z.mod_pos_bound; lia).
      set (k := len this1 - Buffer.length b) in *.
      assert (Hd : ((start this1 + i) mod limit this - writePos) mod limit this
                   = (i - k) mod limit this).
      { rewrite Hweq. rewrite <- Zminus_mod. f_equal. lia. }
      rewrite Hd. rewrite (mod_window (limit this) (i - k)) by lia.
      rewrite length_app in *.
      destruct (i - k <? 0) eqn:E0; [apply Z.ltb_lt in E0 | apply Z.ltb_ge in E0].
      - (* a byte kept from before *)
        replace (i - k + limit this <? Buffer.length b) with false
          by (symmetry; apply Z.ltb_ge; lia).
        rewrite byteAt_app_l by lia.
        rewrite Hbuf1.
        replace ((start this1 + i) mod limit this)
          with ((start this + (len this - k + i)) mod limit this).
        + rewrite Hbytes by lia. f_equal. lia.
        + replace (start this1 + i) with (start this1 + k + (i - k)) by lia.
          replace (start this + (len this - k + i))
            with (start this + len this + (i - k)) by lia.
          rewrite (Z.add_mod (start this1 + k)) by lia.
          rewrite Hpos. rewrite <- Z.add_mod by lia. reflexivity.
      - (* a byte of the new chunk *)
        replace (i - k <? limit this) with true by (symmetry; apply Z.ltb_lt; lia).
        replace (i - k <? Buffer.length b) with true by (symmetry; apply Z.ltb_lt; lia).
        rewrite byteAt_app_r by lia. f_equal. lia. }
    destruct (Z.min (Buffer.length b) (limit this - writePos) <? Buffer.length b).
    + rewrite Hc2. eexists. split; [reflexivity |]. split; [exact Hfinal | reflexivity].
    + injection Hc2 as <-. eexists. split; [reflexivity |].
      split; [exact Hfinal | reflexivity].
Qed.

(** A slice with both ends inside the buffer. *)
Lemma slice_inside (l : list byte) (a z : Z) :
  0 <= a <= z -> z <= Buffer.length l ->
  List.length (Buffer.slice l a z) = Z.to_nat (z - a) /\
  forall i, (i < Z.to_nat (z - a))%nat ->
    nth_error (Buffer.slice l a z) i = byteAt l (a + Z.of_nat i).
Proof.
  intros Ha Hz. unfold Buffer.slice, Buffer.clampIndex.
  replace (a <? 0) with false by (symmetry; apply Z.ltb_ge; lia).
  replace (z <? 0) with false by (symmetry; apply Z.ltb_ge; lia).
  rewrite !Z.min_l by lia.
  split.
  - rewrite List.length_firstn, List.length_skipn.
    unfold Buffer.length in Hz. lia.
  - intros i Hi. rewrite nth_error_firstn.
    replace (i <? Z.to_nat (z - a))%nat with true
      by (symmetry; apply Nat.ltb_lt; lia).
    rewrite nth_error_skipn. unfold byteAt. f_equal. lia.
Qed.

(** A list is the last [k] elements of [s] as soon as it has [k] elements
    and agrees with the end of [s] position by position. *)
Lemma lastn_ext {A} (l s : list A) (k : nat) :
  (k <= List.length s)%nat ->
  List.length l = k ->
  (forall i, (i < k)%nat -> nth_error l i = nth_error s (List.length s - k + i)) ->
  l = lastn k s.
Proof.
  intros Hk Hl Hnth. apply nth_error_ext. intros i.
  unfold lastn. rewrite nth_error_skipn.
  destruct (Nat.lt_ge_cases i k) as [Hi | Hi].
  - apply Hnth, Hi.
  - rewrite (proj2 (nth_error_None l i)) by lia.
    symmetry. apply nth_error_None. lia.
Qed.

(** The snapshot of a ring that holds the tail of [s] is the last
    [min limit |s|] bytes of [s]. *)
(** Decoding leaves well-formed UTF-8 as it is. *)
Lemma toString_utf8 (b : list byte) : utf8 b -> Buffer.toString b = b.
Proof.
  assert (Hlow : forall lo hi c,
             (0x7f < lo)%N -> Buffer.between lo hi c = true ->
             Buffer.between 0x00 0x7f c = false).
  { intros lo hi c Hlo H. unfold Buffer.between in *.
    apply andb_true_iff in H. destruct H as [H1 _]. apply N.leb_le in H1.
    apply andb_false_iff. right. apply N.leb_gt. lia. }
  assert (Hmid : forall lo hi c,
             (0xdf < lo)%N -> Buffer.between lo hi c = true ->
             Buffer.between 0xc2 0xdf c = false).
  { intros lo hi c Hlo H. unfold Buffer.between in *.
    apply andb_true_iff in H. destruct H as [H1 _]. apply N.leb_le in H1.
    apply andb_false_iff. right. apply N.leb_gt. lia. }
  assert (Hhigh : forall lo hi c,
             (0xef < lo)%N -> Buffer.between lo hi c = true ->
             Buffer.between 0xe0 0xef c = false).
  { intros lo hi c Hlo H. unfold Buffer.between in *.
    apply andb_true_iff in H. destruct H as [H1 _]. apply N.leb_le in H1.
    apply andb_false_iff. right. apply N.leb_gt. lia. }
  induction 1 as [| b0 r H0 _ IH | b0 b1 r H0 H1 _ IH
                  | b0 b1 b2 r H0 H1 H2 _ IH | b0 b1 b2 b3 r H0 H1 H2 H3 _ IH].
  - reflexivity.
  - cbn [Buffer.toString]. rewrite H0, IH. reflexivity.
  - cbn [Buffer.toString].
    rewrite (Hlow 0xc2%N 0xdf%N b0 eq_refl H0), H0, H1, IH. reflexivity.
  - cbn [Buffer.toString].
    rewrite (Hlow 0xe0%N 0xef%N b0 eq_refl H0), (Hmid 0xe0%N 0xef%N b0 eq_refl H0).
    rewrite H0, H1, H2, IH. reflexivity.
  - cbn [Buffer.toString].
    rewrite (Hlow 0xf0%N 0xf4%N b0 eq_refl H0), (Hmid 0xf0%N 0xf4%N b0 eq_refl H0),
      (Hhigh 0xf0%N 0xf4%N b0 eq_refl H0).
    rewrite H0, H1, H2, H3, IH. reflexivity.
Qed.

(** A byte that continues a sequence starts none, and the byte after the
    lead of a longer sequence is one of them. *)
Lemma continuation_lead (b : byte) :
  Buffer.continuation b = true ->
  Buffer.between 0x00 0x7f b = false
  /\ Buffer.between 0xc2 0xdf b = false
  /\ Buffer.between 0xe0 0xef b = false
  /\ Buffer.between 0xf0 0xf4 b = false.
Proof.
  unfold Buffer.continuation, Buffer.between. intros H.
  apply andb_true_iff in H. destruct H as [H1 H2].
  apply N.leb_le in H1. apply N.leb_le in H2.
  repeat split; apply andb_false_iff;
    (left; apply N.leb_gt; lia) || (right; apply N.leb_gt; lia).
Qed.

Lemma second_continuation (b0 b1 : byte) :
  Buffer.second b0 b1 = true -> Buffer.continuation b1 = true.
Proof.
  assert (H : forall lo hi, (0x80 <= lo)%N -> (hi <= 0xbf)%N ->
                            Buffer.between lo hi b1 = true ->
                            Buffer.continuation b1 = true).
  { intros lo hi Hlo Hhi Hb. unfold Buffer.continuation, Buffer.between in *.
    apply andb_true_iff in Hb. destruct Hb as [H1 H2].
    apply N.leb_le in H1. apply N.leb_le in H2.
    apply andb_true_iff. split; apply N.leb_le; lia. }
  destruct b0; cbn [Buffer.second]; try (intros Hb; exact Hb);
    apply H; discriminate.
Qed.

(** Bytes left over from a cut sequence come back as one U+FFFD each. *)
Lemma toString_continuations (lead rest : list byte) :
  Forall (fun b => Buffer.continuation b = true) lead ->
  Buffer.toString (lead ++ rest)
  = flat_map (fun _ => Buffer.replacement) lead ++ Buffer.toString rest.
Proof.
  induction 1 as [| b lead Hb _ IH]; [reflexivity |].
  destruct (continuation_lead b Hb) as (H1 & H2 & H3 & H4).
  change ((b :: lead) ++ rest) with (b :: (lead ++ rest)).
  cbn [flat_map Buffer.toString]. rewrite H1, H2, H3, H4, IH.
  rewrite <- List.app_assoc. reflexivity.
Qed.

(** Whatever is left of well-formed UTF-8 after some bytes are dropped
    from its head is at most three bytes that continue a sequence,
    followed by well-formed UTF-8. *)
Lemma utf8_skipn (s : list byte) :
  utf8 s ->
  forall n,
    exists lead rest,
      skipn n s = lead ++ rest
      /\ Forall (fun b => Buffer.continuation b = true) lead
      /\ (List.length lead <= 3)%nat
      /\ utf8 rest.
Proof.
  assert (Hwhole : forall t, utf8 t ->
             exists lead rest,
               t = lead ++ rest
               /\ Forall (fun b => Buffer.continuation b = true) lead
               /\ (List.length lead <= 3)%nat /\ utf8 rest).
  { intros t Ht. exists [], t. simpl. auto with arith. }
  assert (Hcut : forall lead rest,
             Forall (fun b => Buffer.continuation b = true) lead ->
             (List.length lead <= 3)%nat -> utf8 rest ->
             exists lead' rest',
               lead ++ rest = lead' ++ rest'
               /\ Forall (fun b => Buffer.continuation b = true) lead'
               /\ (List.length lead' <= 3)%nat /\ utf8 rest').
  { intros lead rest H1 H2 H3. exists lead, rest. auto. }
  induction 1 as [| b0 r H0 Hr IH | b0 b1 r H0 H1 Hr IH
                  | b0 b1 b2 r H0 H1 H2 Hr IH | b0 b1 b2 b3 r H0 H1 H2 H3 Hr IH];
    intros n.
  - rewrite skipn_nil. apply Hwhole. constructor.
  - destruct n as [| n]; [apply Hwhole; constructor; assumption | apply IH].
  - destruct n as [| [| n]]; cbn [skipn].
    + apply Hwhole. apply utf8_two; assumption.
    + apply (Hcut [b1] r); [repeat constructor; assumption | simpl; lia | exact Hr].
    + apply IH.
  - pose proof (second_continuation _ _ H1) as H1'.
    destruct n as [| [| [| n]]]; cbn [skipn].
    + apply Hwhole. apply utf8_three; assumption.
    + apply (Hcut [b1; b2] r); [repeat constructor; assumption | simpl; lia | exact Hr].
    + apply (Hcut [b2] r); [repeat constructor; assumption | simpl; lia | exact Hr].
    + apply IH.
  - pose proof (second_continuation _ _ H1) as H1'.
    destruct n as [| [| [| [| n]]]]; cbn [skipn].
    + apply Hwhole. apply utf8_four; assumption.
    + apply (Hcut [b1; b2; b3] r);
        [repeat constructor; assumption | simpl; lia | exact Hr].
    + apply (Hcut [b2; b3] r); [repeat constructor; assumption | simpl; lia | exact Hr].
    + apply (Hcut [b3] r); [repeat constructor; assumption | simpl; lia | exact Hr].
    + apply IH.
Qed.

(** The decoding of a tail of well-formed UTF-8: U+FFFD for each byte left
    of the character that the cut went through, then the rest as it is. *)
Lemma toString_lastn_utf8 (s : list byte) (k : nat) :
  utf8 s ->
  exists lead rest,
    lastn k s = lead ++ rest
    /\ Forall (fun b => Buffer.continuation b = true) lead
    /\ (List.length lead <= 3)%nat
    /\ utf8 rest
    /\ Buffer.toString (lastn k s)
       = flat_map (fun _ => Buffer.replacement) lead ++ rest.
Proof.
  intros Hs. unfold lastn.
  destruct (utf8_skipn s Hs (List.length s - k)) as (lead & rest & E & Hl & Hn & Hr).
  exists lead, rest. split; [exact E |]. split; [exact Hl |].
  split; [exact Hn |]. split; [exact Hr |].
  rewrite E, (toString_continuations lead rest Hl), (toString_utf8 rest Hr).
  reflexivity.
Qed.

(** The live bytes of a ring that holds the tail of a stream. *)
Lemma toString_holdsTail (this : RingBuffer) (s : list byte) :
  holdsTail this s ->
  toString this
  = Buffer.toString (lastn (Z.to_nat (Z.min this.(limit) (Buffer.length s))) s).
Proof.
  intros [Hm Hbuf Hstart Hlen Hbytes].
  pose proof (length_nonneg s) as Hs0.
  assert (Hk : (Z.to_nat (len this) <= List.length s)%nat)
    by (unfold Buffer.length in *; lia).
  rewrite <- Hlen. unfold toString.
  destruct (len this =? 0) eqn:E0; [apply Z.eqb_eq in E0 | apply Z.eqb_neq in E0].
  - rewrite <- (lastn_ext (@nil byte) s (Z.to_nat (len this))); try assumption.
    + reflexivity.
    + rewrite E0. reflexivity.
    + intros i Hi. lia.
  - destruct (start this + len this <=? limit this) eqn:E1;
      [apply Z.leb_le in E1 | apply Z.leb_gt in E1].
    + destruct (slice_inside (buf this) (start this) (start this + len this))
        as [Hl Hn]; try lia.
      f_equal. apply lastn_ext; try assumption.
      * rewrite Hl. f_equal. lia.
      * intros i Hi. rewrite Hn by lia.
        rewrite <- (Z.mod_small (start this + Z.of_nat i) (limit this)) by lia.
        rewrite Hbytes by lia. unfold byteAt, Buffer.length. f_equal. lia.
    + destruct (slice_inside (buf this) (start this) (limit this))
        as [Hl1 Hn1]; try lia.
      destruct (slice_inside (buf this) 0 (start this + len this - limit this))
        as [Hl2 Hn2]; try lia.
      unfold Buffer.concat2.
      f_equal. apply lastn_ext; try assumption.
      * rewrite List.length_app, Hl1, Hl2. lia.
      * intros i Hi.
        destruct (Nat.lt_ge_cases i (Z.to_nat (limit this - start this))) as [Hlt | Hge].
        -- rewrite nth_error_app1 by lia. rewrite Hn1 by lia.
           rewrite <- (Z.mod_small (start this + Z.of_nat i) (limit this)) by lia.
           rewrite Hbytes by lia. unfold byteAt, Buffer.length. f_equal. lia.
        -- rewrite nth_error_app2 by lia. rewrite Hl1, Hn2 by lia.
           replace (0 + Z.of_nat (i - Z.to_nat (limit this - start this)))
             with ((start this + Z.of_nat i) mod limit this).
           ++ rewrite Hbytes by lia. unfold byteAt, Buffer.length. f_equal. lia.
           ++ rewrite mod_window by lia.
              replace (start this + Z.of_nat i <? 0) with false
                by (symmetry; apply Z.ltb_ge; lia).
              replace (start this + Z.of_nat i <? limit this) with false
                by (symmetry; apply Z.ltb_ge; lia).
              lia.
Qed.

(** Appending the chunks of a stream to a ring that holds the tail of what
    came before: no append throws and the ring holds the tail of the whole. *)
Lemma appendAll_holdsTail (chunks : list (list byte)) :
  forall (this : RingBuffer) (s : list byte),
    holdsTail this s ->
    exists this', appendAll this chunks = (Normal, this')
                  /\ holdsTail this' (s ++ List.concat chunks)
                  /\ this'.(limit) = this.(limit).
Proof.
  induction chunks as [| b rest IH]; intros this s H; simpl.
  - exists this. rewrite app_nil_r. auto.
  - destruct (append_holdsTail this s b H) as (this1 & Ha & H1 & Hl1).
    rewrite Ha.
    destruct (IH this1 (s ++ b) H1) as (this2 & Hb & H2 & Hl2).
    exists this2. rewrite <- app_assoc in H2. split; [exact Hb |].
    split; [exact H2 | congruence].
Qed.

(** C1 as stated fails: at capacity 4, after "é" (C3 A9) and "abc" the last
    four bytes of the stream are A9 61 62 63, but the snapshot is U+FFFD
    followed by "abc": the character cut by the window comes back as the
    replacement character. *)
Lemma ring_snapshot_cut_character_counterexample :
  let chunks := [[xc3; xa9]; [x61; x62; x63]] in
  let this := snd (appendAll (newRingBuffer (fun _ => x00) 4) chunks) in
  lastn (Z.to_nat (Z.min 4 (Buffer.length (List.concat chunks)))) (List.concat chunks)
  = [xa9; x61; x62; x63]
  /\ toString this = [xef; xbf; xbd; x61; x62; x63]
  /\ toString this
     <> lastn (Z.to_nat (Z.min 4 (Buffer.length (List.concat chunks))))
              (List.concat chunks).
Proof.
  split; [reflexivity |]. split; [vm_compute; reflexivity | vm_compute; discriminate].
Qed.

(** C1, amended: for a capacity C > 0, whatever bytes the fresh buffer
    starts with and however the stream is cut into chunks, appending the
    chunks never throws and the snapshot is then the UTF-8 decoding of the
    last min(C, total) bytes of the concatenated stream: those bytes
    themselves when they are well-formed UTF-8, and, when the stream is
    well-formed but the window cuts a character, one U+FFFD for each of
    the at most three bytes left of that character, followed by the rest
    as it is; two chunkings of one stream give the same snapshot; and one
    more chunk of at least C bytes leaves the decoding of exactly the last
    C bytes of that chunk. *)
Theorem ring_snapshot_is_stream_tail (C : Z) (junk : nat -> byte) :
  0 < C ->
  (forall chunks,
      let tail := lastn (Z.to_nat (Z.min C (Buffer.length (List.concat chunks))))
                        (List.concat chunks) in
      exists this,
        appendAll (newRingBuffer junk C) chunks = (Normal, this)
        /\ toString this = Buffer.toString tail
        /\ (utf8 tail -> toString this = tail)
        /\ (utf8 (List.concat chunks) ->
            exists lead rest,
              tail = lead ++ rest
              /\ Forall (fun b => Buffer.continuation b = true) lead
              /\ (List.length lead <= 3)%nat
              /\ utf8 rest
              /\ toString this
                 = flat_map (fun _ => [xef; xbf; xbd]) lead ++ rest))
  /\ (forall chunks chunks',
        List.concat chunks = List.concat chunks' ->
        toString (snd (appendAll (newRingBuffer junk C) chunks))
        = toString (snd (appendAll (newRingBuffer junk C) chunks')))
  /\ (forall chunks b,
        C <= Buffer.length b ->
        exists this,
          append (snd (appendAll (newRingBuffer junk C) chunks)) b = (Normal, this)
          /\ toString this = Buffer.toString (lastn (Z.to_nat C) b)
          /\ (utf8 (lastn (Z.to_nat C) b) -> toString this = lastn (Z.to_nat C) b)).
Proof.
  intros HC.
  assert (Hmain : forall chunks,
             exists this,
               appendAll (newRingBuffer junk C) chunks = (Normal, this) /\
               holdsTail this (List.concat chunks) /\ this.(limit) = C).
  { intros chunks.
    destruct (appendAll_holdsTail chunks _ _ (newRingBuffer_holdsTail junk C HC))
      as (this & Ha & Ht & Hl).
    exists this. simpl in *. auto. }
  split; [| split].
  - intros chunks tail. destruct (Hmain chunks) as (this & Ha & Ht & Hl).
    exists this. split; [exact Ha |].
    assert (Hs : toString this = Buffer.toString tail).
    { rewrite (toString_holdsTail _ _ Ht), Hl. reflexivity. }
    split; [exact Hs |].
    split; [intros Hu; rewrite Hs; apply toString_utf8, Hu |].
    intros Hu. rewrite Hs. apply toString_lastn_utf8, Hu.
  - intros chunks chunks' Heq.
    destruct (Hmain chunks) as (this & Ha & Ht & Hl).
    destruct (Hmain chunks') as (this' & Ha' & Ht' & Hl').
    rewrite Ha, Ha'. simpl.
    rewrite (toString_holdsTail _ _ Ht), (toString_holdsTail _ _ Ht').
    rewrite Hl, Hl', Heq. reflexivity.
  - intros chunks b Hb.
    destruct (Hmain chunks) as (this & Ha & Ht & Hl).
    rewrite Ha. simpl.
    destruct (append_holdsTail this _ b Ht) as (this1 & Hb1 & Ht1 & Hl1).
    exists this1. split; [exact Hb1 |].
    assert (Hs : toString this1 = Buffer.toString (lastn (Z.to_nat C) b)).
    { rewrite (toString_holdsTail _ _ Ht1), Hl1, Hl.
      rewrite length_app.
      pose proof (length_nonneg (List.concat chunks)) as Hc0.
      rewrite Z.min_l by lia.
      unfold lastn. rewrite List.length_app.
      unfold Buffer.length in *.
      rewrite skipn_app.
      rewrite skipn_all2 by lia. simpl. do 2 f_equal. lia. }
    split; [exact Hs |]. intros Hu. rewrite Hs. apply toString_utf8, Hu.
Qed.

(** C1, amended, at capacity 4: "abc", "de", "fgh" leave "efgh", and "é",
    "abc" leave U+FFFD followed by "abc". *)
Lemma ring_snapshot_is_stream_tail_witness :
  toString (snd (appendAll (newRingBuffer (fun _ => x00) 4)
                           [[x61; x62; x63]; [x64; x65]; [x66; x67; x68]]))
  = [x65; x66; x67; x68]
  /\ toString (snd (appendAll (newRingBuffer (fun _ => x00) 4)
                              [[xc3; xa9]; [x61; x62; x63]]))
     = [xef; xbf; xbd; x61; x62; x63].
Proof.
  destruct (ring_snapshot_is_stream_tail 4 (fun _ => x00)) as [H _]; [lia |].
  split.
  - destruct (H [[x61; x62; x63]; [x64; x65]; [x66; x67; x68]])
      as (this & Ha & _ & Hs & _).
    rewrite Ha. simpl. apply Hs.
    repeat (apply utf8_one; [reflexivity |]). apply utf8_nil.
  - destruct (H [[xc3; xa9]; [x61; x62; x63]]) as (this & Ha & Hs & _).
    rewrite Ha. simpl. exact Hs.
Defined.
(** ** Rounding to the nearest double *)

Section DoubleFacts.
Local Open Scope Q_scope.

Lemma pow2_pos (e : Z) : 0 < 2 ^ e.
Proof. apply Qpower_0_lt. reflexivity. Qed.

Lemma pow2_add (a b : Z) : 2 ^ (a + b) == 2 ^ a * 2 ^ b.
Proof. apply Qpower_plus. discriminate. Qed.

Lemma pow2_cancel (e : Z) : 2 ^ e * 2 ^ (- e) == 1.
Proof. rewrite <- pow2_add, Z.add_opp_diag_r. reflexivity. Qed.

Lemma pow2_le (a b : Z) : (a <= b)%Z -> 2 ^ a <= 2 ^ b.
Proof. intros H. apply Qpower_le_compat_l; [exact H | discriminate]. Qed.

Lemma pow2_lt_inv (a b : Z) : 2 ^ a < 2 ^ b -> (a < b)%Z.
Proof. intros H. apply (Qpower_lt_compat_l_inv 2); [exact H | reflexivity]. Qed.

Lemma pow2_Z (n : Z) : (0 <= n)%Z -> inject_Z (2 ^ n) == 2 ^ n.
Proof. intros H. apply (Zpower_Qpower 2 n H). Qed.

Lemma ilog2_spec (x : Q) :
  0 < x -> 2 ^ Double.ilog2 x <= x /\ x < 2 ^ (Double.ilog2 x + 1).
Proof.
  intros Hx. unfold Double.ilog2. destruct (Qle_bool 1 x) eqn:E.
  - apply Qle_bool_iff in E.
    assert (Hf : (1 <= Qfloor x)%Z).
    { rewrite <- (Qfloor_Z 1). apply Qfloor_resp_le. exact E. }
    destruct (Z.log2_spec (Qfloor x)) as [H1 H2]; [lia |].
    pose proof (Z.log2_nonneg (Qfloor x)) as H0.
    pose proof (Qfloor_le x) as Hlo. pose proof (Qlt_floor x) as Hhi.
    split.
    + rewrite <- pow2_Z by exact H0.
      eapply Qle_trans; [| exact Hlo]. rewrite <- Zle_Qle. exact H1.
    + rewrite <- pow2_Z by lia.
      eapply Qlt_le_trans; [exact Hhi |]. rewrite <- Zle_Qle. lia.
  - assert (Hlt : x < 1).
    { apply Qnot_le_lt. intros H. apply Qle_bool_iff in H. congruence. }
    assert (Hinv : x * / x == 1) by (apply Qmult_inv_r; intros H; rewrite H in Hx; discriminate).
    assert (Hy : 1 < / x) by (apply Qlt_shift_inv_l; [exact Hx | rewrite Qmult_1_l; exact Hlt]).
    pose proof (Qle_ceiling (/ x)) as Hc. pose proof (Qceiling_lt (/ x)) as Hc'.
    assert (Hc2 : (1 < Qceiling (/ x))%Z).
    { rewrite Zlt_Qlt. eapply Qlt_le_trans; [exact Hy | exact Hc]. }
    destruct (Z.log2_up_spec (Qceiling (/ x)) Hc2) as [H1 H2].
    set (k := Z.log2_up (Qceiling (/ x))) in *.
    assert (Hk : (0 < k)%Z) by (apply Z.log2_up_pos; exact Hc2).
    split.
    + rewrite Qpower_opp. apply Qle_shift_inv_r; [apply pow2_pos |].
      rewrite <- Hinv. apply Qmult_le_l; [exact Hx |].
      eapply Qle_trans; [exact Hc |]. rewrite <- pow2_Z by lia.
      rewrite <- Zle_Qle. exact H2.
    + replace (- k + 1)%Z with (- (k - 1))%Z by lia.
      rewrite Qpower_opp. apply Qlt_shift_inv_l; [apply pow2_pos |].
      rewrite <- Hinv. apply Qmult_lt_l; [exact Hx |].
      eapply Qle_lt_trans; [| exact Hc']. rewrite <- pow2_Z by lia.
      rewrite <- Zle_Qle. replace (k - 1)%Z with (Z.pred k) by lia. lia.
Qed.

Lemma ilog2_below (x : Q) (k : Z) : 0 < x -> x < 2 ^ k -> (Double.ilog2 x < k)%Z.
Proof.
  intros Hx H. destruct (ilog2_spec x Hx) as [H1 _].
  apply pow2_lt_inv. eapply Qle_lt_trans; [exact H1 | exact H].
Qed.

Lemma ilog2_above (x : Q) (k : Z) : 2 ^ k <= x -> (k <= Double.ilog2 x)%Z.
Proof.
  intros H.
  assert (Hx : 0 < x) by (eapply Qlt_le_trans; [apply pow2_pos | exact H]).
  destruct (ilog2_spec x Hx) as [_ H2].
  assert (Hlt : (k < Double.ilog2 x + 1)%Z)
    by (apply pow2_lt_inv; eapply Qle_lt_trans; [exact H | exact H2]).
  lia.
Qed.

Lemma ilog2_mono (x y : Q) : 0 < x -> x <= y -> (Double.ilog2 x <= Double.ilog2 y)%Z.
Proof.
  intros Hx Hxy. apply ilog2_above.
  destruct (ilog2_spec x Hx) as [H1 _]. eapply Qle_trans; [exact H1 | exact Hxy].
Qed.

Lemma nearestEven_bounds (x : Q) :
  (Qfloor x <= Double.nearestEven x <= Qfloor x + 1)%Z.
Proof.
  unfold Double.nearestEven.
  destruct (Qcompare (2 * (x - inject_Z (Qfloor x))) 1); [| lia | lia].
  destruct (Z.even (Qfloor x)); lia.
Qed.

Lemma nearestEven_mono (x y : Q) :
  x <= y -> (Double.nearestEven x <= Double.nearestEven y)%Z.
Proof.
  intros H. pose proof (Qfloor_resp_le _ _ H) as Hf.
  destruct (Z.eq_dec (Qfloor x) (Qfloor y)) as [E | N].
  - unfold Double.nearestEven. rewrite <- E.
    destruct (Qcompare_spec (2 * (x - inject_Z (Qfloor x))) 1) as [Hx | Hx | Hx];
      destruct (Qcompare_spec (2 * (y - inject_Z (Qfloor x))) 1) as [Hy | Hy | Hy];
      try destruct (Z.even (Qfloor x)); try lia; exfalso; lra.
  - pose proof (nearestEven_bounds x). pose proof (nearestEven_bounds y). lia.
Qed.

Lemma nearestEven_comp (x y : Q) :
  x == y -> Double.nearestEven x = Double.nearestEven y.
Proof.
  intros H. apply Z.le_antisymm; apply nearestEven_mono; rewrite H; apply Qle_refl.
Qed.

Lemma nearestEven_Z (a : Z) : Double.nearestEven (inject_Z a) = a.
Proof.
  unfold Double.nearestEven. rewrite Qfloor_Z.
  destruct (Qcompare_spec (2 * (inject_Z a - inject_Z a)) 1) as [H | H | H];
    [exfalso; lra | reflexivity | exfalso; lra].
Qed.

Lemma nearestEven_ge (a : Z) (x : Q) :
  inject_Z a <= x -> (a <= Double.nearestEven x)%Z.
Proof. intros H. rewrite <- (nearestEven_Z a). apply nearestEven_mono, H. Qed.

Lemma nearestEven_le (b : Z) (x : Q) :
  x <= inject_Z b -> (Double.nearestEven x <= b)%Z.
Proof. intros H. rewrite <- (nearestEven_Z b). apply nearestEven_mono, H. Qed.

(** The scaled value of a positive number is below 2^53, and at least 2^52
    unless the exponent is the least one. *)
Lemma scaled_below (x : Q) :
  0 < x -> x * 2 ^ (- Double.exponent x) < 2 ^ 53.
Proof.
  intros Hx. destruct (ilog2_spec x Hx) as [_ H].
  set (e := Double.exponent x).
  assert (He : (Double.ilog2 x + 1 <= e + 53)%Z) by (unfold e, Double.exponent; lia).
  assert (Hlt : x < 2 ^ (e + 53)) by (eapply Qlt_le_trans; [exact H | apply pow2_le, He]).
  rewrite pow2_add in Hlt.
  pose proof (pow2_pos (- e)) as Hp. pose proof (pow2_cancel e) as Hc.
  apply (Qmult_lt_compat_r _ _ _ Hp) in Hlt.
  eapply Qlt_le_trans; [exact Hlt |].
  rewrite (Qmult_comm (2 ^ e)), <- Qmult_assoc, Hc, Qmult_1_r. apply Qle_refl.
Qed.

Lemma scaled_above (x : Q) :
  0 < x -> (-1074 < Double.exponent x)%Z -> 2 ^ 52 <= x * 2 ^ (- Double.exponent x).
Proof.
  intros Hx He. destruct (ilog2_spec x Hx) as [H _].
  set (e := Double.exponent x) in *.
  assert (Hl : Double.ilog2 x = (e + 52)%Z) by (unfold e, Double.exponent in *; lia).
  rewrite Hl, pow2_add in H.
  pose proof (pow2_pos (- e)) as Hp. pose proof (pow2_cancel e) as Hc.
  apply (Qmult_le_compat_r _ _ (2 ^ (- e))) in H; [| apply Qlt_le_weak, Hp].
  eapply Qle_trans; [| exact H].
  rewrite (Qmult_comm (2 ^ e)), <- Qmult_assoc, Hc, Qmult_1_r. apply Qle_refl.
Qed.

Lemma exponent_mono (x y : Q) :
  0 < x -> x <= y -> (Double.exponent x <= Double.exponent y)%Z.
Proof.
  intros Hx Hxy. pose proof (ilog2_mono x y Hx Hxy). unfold Double.exponent. lia.
Qed.

Lemma roundPos_nonneg (x : Q) : 0 < x -> 0 <= Double.roundPos x.
Proof.
  intros Hx. unfold Double.roundPos.
  apply Qmult_le_0_compat; [| apply Qlt_le_weak, pow2_pos].
  change 0 with (inject_Z 0). rewrite <- Zle_Qle. apply nearestEven_ge.
  apply Qmult_le_0_compat; [apply Qlt_le_weak, Hx | apply Qlt_le_weak, pow2_pos].
Qed.

Lemma roundPos_mono (x y : Q) :
  0 < x -> x <= y -> Double.roundPos x <= Double.roundPos y.
Proof.
  intros Hx Hxy.
  assert (Hy : 0 < y) by (eapply Qlt_le_trans; [exact Hx | exact Hxy]).
  pose proof (exponent_mono x y Hx Hxy) as He.
  unfold Double.roundPos.
  destruct (Z.eq_dec (Double.exponent x) (Double.exponent y)) as [E | N].
  - rewrite <- E. apply Qmult_le_compat_r; [| apply Qlt_le_weak, pow2_pos].
    rewrite <- Zle_Qle. apply nearestEven_mono.
    apply Qmult_le_compat_r; [exact Hxy | apply Qlt_le_weak, pow2_pos].
  - set (ex := Double.exponent x) in *. set (ey := Double.exponent y) in *.
    assert (Hlo : (-1074 <= ex)%Z) by (unfold ex, Double.exponent; lia).
    pose proof (scaled_below x Hx) as Hbx. fold ex in Hbx.
    assert (Hby : 2 ^ 52 <= y * 2 ^ (- ey)) by (apply scaled_above; [exact Hy | fold ey; lia]).
    assert (Hmx : (Double.nearestEven (x * 2 ^ (- ex)) <= 2 ^ 53)%Z).
    { apply nearestEven_le. rewrite (pow2_Z 53) by lia. apply Qlt_le_weak, Hbx. }
    assert (Hmy : (2 ^ 52 <= Double.nearestEven (y * 2 ^ (- ey)))%Z).
    { apply nearestEven_ge. rewrite (pow2_Z 52) by lia. exact Hby. }
    apply Qle_trans with (2 ^ (ex + 53)).
    + rewrite Z.add_comm, pow2_add.
      apply Qmult_le_compat_r; [| apply Qlt_le_weak, pow2_pos].
      rewrite <- (pow2_Z 53) by lia. rewrite <- Zle_Qle. exact Hmx.
    + apply Qle_trans with (2 ^ (52 + ey)); [apply pow2_le; lia |].
      rewrite pow2_add.
      apply Qmult_le_compat_r; [| apply Qlt_le_weak, pow2_pos].
      rewrite <- (pow2_Z 52) by lia. rewrite <- Zle_Qle. exact Hmy.
Qed.

Lemma roundPos_fix (x : Q) (m e : Z) :
  (0 < m < 2 ^ 53)%Z -> (-1074 <= e)%Z -> x == inject_Z m * 2 ^ e ->
  Double.roundPos x == x.
Proof.
  intros Hm He Hx.
  assert (Hpos : 0 < x).
  { rewrite Hx. apply Qmult_lt_0_compat; [| apply pow2_pos].
    change 0 with (inject_Z 0). rewrite <- Zlt_Qlt. lia. }
  assert (Hlt : x < 2 ^ (53 + e)).
  { rewrite Hx, pow2_add. apply Qmult_lt_compat_r; [apply pow2_pos |].
    rewrite <- (pow2_Z 53) by lia. rewrite <- Zlt_Qlt. lia. }
  pose proof (ilog2_below x _ Hpos Hlt) as Hl.
  unfold Double.roundPos. set (ex := Double.exponent x).
  assert (Hex : (ex <= e)%Z) by (unfold ex, Double.exponent; lia).
  assert (Hs : x * 2 ^ (- ex) == inject_Z (m * 2 ^ (e - ex))).
  { rewrite inject_Z_mult, (pow2_Z (e - ex)) by lia. rewrite Hx.
    replace (e - ex)%Z with (e + - ex)%Z by lia. rewrite pow2_add. ring. }
  rewrite (nearestEven_comp _ _ Hs), nearestEven_Z.
  rewrite inject_Z_mult, (pow2_Z (e - ex)) by lia. rewrite Hx.
  rewrite <- Qmult_assoc, <- pow2_add.
  replace (e - ex + ex)%Z with e by lia. reflexivity.
Qed.

Lemma roundPos_repr (x : Q) :
  0 < x ->
  exists m e : Z,
    (0 <= m < 2 ^ 53)%Z /\ (-1074 <= e)%Z /\ Double.roundPos x == inject_Z m * 2 ^ e.
Proof.
  intros Hx. unfold Double.roundPos.
  set (ex := Double.exponent x). set (M := Double.nearestEven (x * 2 ^ (- ex))).
  assert (Hlo : (-1074 <= ex)%Z) by (unfold ex, Double.exponent; lia).
  assert (H0 : (0 <= M)%Z).
  { apply nearestEven_ge.
    apply Qmult_le_0_compat; [apply Qlt_le_weak, Hx | apply Qlt_le_weak, pow2_pos]. }
  assert (H1 : (M <= 2 ^ 53)%Z).
  { apply nearestEven_le. rewrite (pow2_Z 53) by lia.
    apply Qlt_le_weak, scaled_below, Hx. }
  destruct (Z.eq_dec M (2 ^ 53)) as [E | N].
  - exists (2 ^ 52)%Z, (ex + 1)%Z. split; [lia |]. split; [lia |].
    rewrite E, pow2_add.
    change (2 ^ 53)%Z with (2 ^ 52 * 2)%Z. rewrite inject_Z_mult.
    change (2 ^ 1) with 2. change (inject_Z 2) with 2. ring.
  - exists M, ex. split; [lia |]. split; [lia | reflexivity].
Qed.

Lemma round_mono (x y : Q) : x <= y -> Double.round x <= Double.round y.
Proof.
  intros H. unfold Double.round.
  destruct (Qcompare_spec x 0) as [Hx | Hx | Hx];
    destruct (Qcompare_spec y 0) as [Hy | Hy | Hy];
    try (exfalso; lra).
  - apply Qle_refl.
  - apply roundPos_nonneg, Hy.
  - assert (Hn : 0 < - x) by lra. pose proof (roundPos_nonneg _ Hn). lra.
  - assert (Hn : 0 < - y) by lra.
    assert (Hle : - y <= - x) by lra.
    pose proof (roundPos_mono _ _ Hn Hle). lra.
  - assert (Hn : 0 < - x) by lra.
    pose proof (roundPos_nonneg _ Hn). pose proof (roundPos_nonneg _ Hy). lra.
  - apply roundPos_mono; assumption.
Qed.

Lemma round_comp (x y : Q) : x == y -> Double.round x == Double.round y.
Proof.
  intros H. apply Qle_antisym; apply round_mono; rewrite H; apply Qle_refl.
Qed.

Lemma round_fix (x : Q) : representable x -> Double.round x == x.
Proof.
  intros (m & e & Hm & He & Hx). unfold Double.round.
  assert (Hp : 0 < 2 ^ e) by apply pow2_pos.
  destruct (Z.lt_trichotomy m 0) as [Hneg | [Hz | Hpos]].
  - assert (Hlt : x < 0).
    { rewrite Hx. assert (Hm0 : inject_Z m < 0)
        by (change 0 with (inject_Z 0); rewrite <- Zlt_Qlt; exact Hneg).
      setoid_replace 0 with (0 * 2 ^ e) by ring.
      apply Qmult_lt_compat_r; assumption. }
    destruct (Qcompare_spec x 0) as [H | H | H]; try (exfalso; lra).
    rewrite (roundPos_fix (- x) (- m) e); [ring | lia | exact He |].
    rewrite Hx, inject_Z_opp. ring.
  - subst m. assert (H0 : x == 0) by (rewrite Hx; change (inject_Z 0) with 0; ring).
    destruct (Qcompare_spec x 0) as [H | H | H]; try (exfalso; lra).
    symmetry. exact H0.
  - assert (Hgt : 0 < x).
    { rewrite Hx. apply Qmult_lt_0_compat; [| exact Hp].
      change 0 with (inject_Z 0). rewrite <- Zlt_Qlt. exact Hpos. }
    destruct (Qcompare_spec x 0) as [H | H | H]; try (exfalso; lra).
    apply (roundPos_fix x m e); [lia | exact He | exact Hx].
Qed.

Lemma round_repr (x : Q) : representable (Double.round x).
Proof.
  unfold Double.round.
  destruct (Qcompare_spec x 0) as [H | H | H].
  - exists 0%Z, 0%Z. split; [reflexivity |]. split; [lia | reflexivity].
  - assert (Hn : 0 < - x) by lra.
    destruct (roundPos_repr _ Hn) as (m & e & Hm & He & Hr).
    exists (- m)%Z, e. split; [lia |]. split; [exact He |].
    rewrite Hr, inject_Z_opp. ring.
  - destruct (roundPos_repr _ H) as (m & e & Hm & He & Hr).
    exists m, e. split; [lia |]. split; [exact He | exact Hr].
Qed.

Lemma representable_Z (z : Z) : (Z.abs z < 2 ^ 53)%Z -> representable (inject_Z z).
Proof.
  intros H. exists z, 0%Z. split; [exact H |]. split; [lia |].
  change (2 ^ 0) with 1. ring.
Qed.

Lemma round_le (x b : Q) : representable b -> x <= b -> Double.round x <= b.
Proof. intros Hb H. rewrite <- (round_fix b Hb). apply round_mono, H. Qed.

Lemma round_ge (a x : Q) : representable a -> a <= x -> a <= Double.round x.
Proof. intros Ha H. rewrite <- (round_fix a Ha). apply round_mono, H. Qed.

Lemma round_nonneg (x : Q) : 0 <= x -> 0 <= Double.round x.
Proof.
  intros H. apply round_ge; [| exact H]. apply (representable_Z 0). reflexivity.
Qed.

(** A whole amount taken from a double that holds at least as much, and at
    most 2^53, leaves a double: the subtraction is exact. *)
Lemma sub_whole_representable (t : Q) (n : Z) :
  representable t -> t <= 2 ^ 53 -> (0 <= n)%Z -> inject_Z n <= t ->
  representable (t - inject_Z n).
Proof.
  intros (m & e & Hm & He & Ht) Hmax Hn Hle.
  assert (Hp : 0 < 2 ^ e) by apply pow2_pos.
  destruct (Z.le_gt_cases 0 e) as [Hpos | Hneg].
  - (* [t] is a whole number *)
    assert (HT : t == inject_Z (m * 2 ^ e)).
    { rewrite inject_Z_mult, (pow2_Z e) by exact Hpos. exact Ht. }
    set (T := (m * 2 ^ e)%Z) in *.
    assert (H1 : (n <= T)%Z) by (rewrite Zle_Qle, <- HT; exact Hle).
    assert (H2 : (T <= 2 ^ 53)%Z).
    { rewrite Zle_Qle, <- HT, (pow2_Z 53) by lia. exact Hmax. }
    destruct (Z.eq_dec n 0) as [E | N].
    + subst n. exists m, e. split; [exact Hm |]. split; [exact He |].
      rewrite <- Ht. change (inject_Z 0) with 0. ring.
    + assert (Hr : t - inject_Z n == inject_Z (T - n)).
      { rewrite HT. unfold Z.sub. rewrite inject_Z_plus, inject_Z_opp. ring. }
      destruct (representable_Z (T - n)) as (m' & e' & Hm' & He' & Hx'); [lia |].
      exists m', e'. split; [exact Hm' |]. split; [exact He' |].
      rewrite Hr. exact Hx'.
  - (* [t] has a fractional grid: [n] is a multiple of it *)
    assert (Hc : 2 ^ e * 2 ^ (- e) == 1) by apply pow2_cancel.
    assert (Hn2 : inject_Z n == inject_Z (n * 2 ^ (- e)) * 2 ^ e).
    { rewrite inject_Z_mult, (pow2_Z (- e)) by lia.
      rewrite <- Qmult_assoc, (Qmult_comm (2 ^ (- e))), Hc. ring. }
    assert (Hr : t - inject_Z n == inject_Z (m - n * 2 ^ (- e)) * 2 ^ e).
    { unfold Z.sub. rewrite inject_Z_plus, inject_Z_opp, Ht.
      rewrite Hn2 at 1. ring. }
    assert (H0 : (0 <= n * 2 ^ (- e))%Z) by (apply Z.mul_nonneg_nonneg; [lia | apply Z.pow_nonneg; lia]).
    assert (H1 : (n * 2 ^ (- e) <= m)%Z).
    { rewrite Zle_Qle. apply (Qmult_le_r _ _ (2 ^ e)); [exact Hp |].
      rewrite <- Hn2, <- Ht. exact Hle. }
    exists (m - n * 2 ^ (- e))%Z, e. split; [lia |]. split; [exact He | exact Hr].
Qed.

Lemma sub_whole_exact (t : Q) (n : Z) :
  representable t -> t <= 2 ^ 53 -> (0 <= n)%Z -> inject_Z n <= t ->
  Double.sub t (inject_Z n) == t - inject_Z n.
Proof.
  intros. apply round_fix, sub_whole_representable; assumption.
Qed.

(** The difference of two clock readings is positive exactly when the
    later one is greater. *)
Lemma sub_Z_pos (a b : Z) :
  0 < Double.sub (inject_Z a) (inject_Z b) <-> (b < a)%Z.
Proof.
  unfold Double.sub.
  assert (Hd : inject_Z a - inject_Z b == inject_Z (a - b)).
  { unfold Z.sub. rewrite inject_Z_plus, inject_Z_opp. ring. }
  split.
  - intros H. destruct (Z.lt_ge_cases b a) as [Hlt | Hge]; [exact Hlt | exfalso].
    assert (Hle : Double.round (inject_Z a - inject_Z b) <= 0).
    { apply round_le; [apply (representable_Z 0); reflexivity |].
      rewrite Hd. change 0 with (inject_Z 0). rewrite <- Zle_Qle. lia. }
    lra.
  - intros H. apply Qlt_le_trans with 1; [reflexivity |].
    apply round_ge; [apply (representable_Z 1); reflexivity |].
    rewrite Hd. change 1 with (inject_Z 1). rewrite <- Zle_Qle. lia.
Qed.

End DoubleFacts.
(** ** The token bucket *)

Section BucketFacts.
Local Open Scope Q_scope.

Lemma representable_comp (x y : Q) : x == y -> representable x -> representable y.
Proof.
  intros H (m & e & Hm & He & Hx). exists m, e.
  split; [exact Hm |]. split; [exact He |]. rewrite <- H. exact Hx.
Qed.

(** The refill happens exactly when the clock has advanced. *)
Lemma refill_cases (this : Bucket) (now : Z) :
  ((now <= last this)%Z /\ refill this now = this)
  \/ ((last this < now)%Z
      /\ refill this now
         = {| capacity := capacity this; refillRate := refillRate this;
              tokens := Qmin (capacity this)
                          (Double.add (tokens this)
                             (Double.mul
                                (Double.div
                                   (Double.sub (inject_Z now) (inject_Z (last this)))
                                   1000)
                                (refillRate this)));
              last := now |}).
Proof.
  unfold refill.
  destruct (Qle_bool (Double.sub (inject_Z now) (inject_Z (last this))) 0) eqn:E;
    cbn [negb].
  - left. split; [| reflexivity]. apply Qle_bool_iff in E.
    destruct (Z.le_gt_cases now (last this)) as [H | H]; [exact H | exfalso].
    apply sub_Z_pos in H. lra.
  - right. split; [| reflexivity]. apply sub_Z_pos.
    apply Qnot_le_lt. intros H. apply Qle_bool_iff in H. congruence.
Qed.

Lemma refill_capacity (this : Bucket) (now : Z) :
  capacity (refill this now) = capacity this.
Proof.
  destruct (refill_cases this now) as [[_ H] | [_ H]]; rewrite H; reflexivity.
Qed.

Lemma refill_below (this : Bucket) (now : Z) :
  tokens this <= capacity this ->
  tokens (refill this now) <= capacity this.
Proof.
  intros Ht. destruct (refill_cases this now) as [[_ H] | [_ H]]; rewrite H.
  - exact Ht.
  - apply Q.le_min_l.
Qed.

Lemma refill_representable (this : Bucket) (now : Z) :
  representable (capacity this) -> representable (tokens this) ->
  representable (tokens (refill this now)).
Proof.
  intros Hc Ht. destruct (refill_cases this now) as [[_ H] | [_ H]]; rewrite H.
  - exact Ht.
  - cbn [tokens].
    match goal with |- representable (Qmin ?a ?b) =>
      destruct (Q.min_spec a b) as [[_ E] | [_ E]]
    end; apply (representable_comp _ _ (Qeq_sym _ _ E)).
    + exact Hc.
    + apply round_repr.
Qed.

Lemma take_capacity (this : Bucket) (now : Z) (n : Q) :
  capacity (snd (take this now n)) = capacity this.
Proof.
  unfold take. destruct (Qle_bool n (tokens (refill this now))); simpl;
    apply refill_capacity.
Qed.

(** A deduction is rounded, but never past a double that bounds the
    exact difference. *)
Lemma take_below (this : Bucket) (now : Z) (n : Q) :
  0 <= n ->
  representable (capacity this) ->
  tokens this <= capacity this ->
  tokens (snd (take this now n)) <= capacity this.
Proof.
  intros Hn Hc H. pose proof (refill_below this now H) as Hr.
  unfold take. destruct (Qle_bool n (tokens (refill this now))); simpl.
  - apply round_le; [exact Hc | lra].
  - exact Hr.
Qed.

Lemma take_representable (this : Bucket) (now : Z) (n : Q) :
  representable (capacity this) -> representable (tokens this) ->
  representable (tokens (snd (take this now n))).
Proof.
  intros Hc Ht. unfold take.
  destruct (Qle_bool n (tokens (refill this now))); simpl.
  - apply round_repr.
  - apply refill_representable; assumption.
Qed.

Lemma takeAll_invariant (calls : list (Z * Q)) :
  forall this,
    Forall (fun c => 0 <= snd c) calls ->
    representable (capacity this) ->
    representable (tokens this) ->
    tokens this <= capacity this ->
    capacity (snd (takeAll this calls)) = capacity this
    /\ representable (tokens (snd (takeAll this calls)))
    /\ tokens (snd (takeAll this calls)) <= capacity this.
Proof.
  induction calls as [| [now n] rest IH]; intros this Hall Hc Hr H; simpl.
  - auto.
  - inversion Hall as [| ? ? Hn Hrest]; subst. simpl in Hn.
    pose proof (take_below this now n Hn Hc H) as Hb.
    pose proof (take_capacity this now n) as Hcap.
    pose proof (take_representable this now n Hc Hr) as Hrep.
    destruct (take this now n) as [ok this1]. simpl in *.
    specialize (IH this1 Hrest). rewrite Hcap in IH.
    specialize (IH Hc Hrep Hb).
    destruct (takeAll this1 rest) as [oks this2]. simpl in *. exact IH.
Qed.



Lemma takeAll_below (calls : list (Z * Q)) :
  forall this,
    Forall (fun c => 0 <= snd c) calls ->
    representable (capacity this) ->
    representable (tokens this) ->
    tokens this <= capacity this ->
    tokens (snd (takeAll this calls)) <= capacity this.
Proof.
  intros this Hall Hc Hr H. apply takeAll_invariant; assumption.
Qed.



End BucketFacts.

(** ** The server: lookups across updates *)

Lemma get_map_values {V W} (g : string -> V -> W) (k : string) (m : list (string * V)) :
  JsMap.get k (map (fun kv => (fst kv, g (fst kv) (snd kv))) m)
  = option_map (g k) (JsMap.get k m).
Proof.
  induction m as [| [k' v] rest IH]; simpl; [reflexivity |].
  destruct (String.eqb k k') eqn:E.
  - apply String.eqb_eq in E. subst. reflexivity.
  - exact IH.
Qed.

Lemma nth_error_updateAt {A} (f : A -> A) (l : list A) :
  forall i j,
    nth_error (updateAt i f l) j
    = if (i =? j)%nat then option_map f (nth_error l j) else nth_error l j.
Proof.
  induction l as [| x rest IH]; intros i j; simpl.
  - destruct i, j; simpl; try reflexivity. destruct (i =? j)%nat; reflexivity.
  - destruct i, j; simpl; try reflexivity. apply IH.
Qed.

Lemma length_updateAt {A} (f : A -> A) (l : list A) (i : nat) :
  List.length (updateAt i f l) = List.length l.
Proof.
  revert i. induction l as [| x rest IH]; intros [| i]; simpl; auto.
Qed.

Lemma inboxOf_withSocket (c c' : string) (f : Socket -> Socket) (s : Server) :
  (forall k, inbox (f k) = inbox k) ->
  inboxOf c' (withSocket c f s) = inboxOf c' s.
Proof.
  intros Hf. unfold inboxOf, withSocket. simpl.
  rewrite (get_map_values (fun key v => if String.eqb c key then f v else v)).
  destruct (JsMap.get c' (sockets s)); simpl; [| reflexivity].
  destruct (String.eqb c c'); auto.
Qed.

Lemma roomsOf_withSocket (c c' : string) (f : Socket -> Socket) (s : Server) :
  roomsOf c' (withSocket c f s)
  = if String.eqb c c' then
      match JsMap.get c' (sockets s) with Some k => rooms (f k) | None => [] end
    else roomsOf c' s.
Proof.
  unfold roomsOf, withSocket. simpl.
  rewrite (get_map_values (fun key v => if String.eqb c key then f v else v)).
  destruct (JsMap.get c' (sockets s)); simpl; destruct (String.eqb c c'); reflexivity.
Qed.

Lemma inboxOf_socketEmit (c c' : string) (e : ServerEvent) (s : Server) :
  inboxOf c' (socketEmit c e s)
  = if String.eqb c c' && connected c' s then inboxOf c' s ++ [e] else inboxOf c' s.
Proof.
  unfold inboxOf, socketEmit, withSocket, connected. simpl.
  rewrite (get_map_values (fun key v => if String.eqb c key then deliver e v else v)).
  destruct (JsMap.get c' (sockets s)); simpl; destruct (String.eqb c c'); reflexivity.
Qed.

Lemma getSession_ptyCall (sid : string) (ref r : nat) (se : Session) (c : PtyCall)
      (s : Server) :
  getSession sid s = Some (ref, se) ->
  getSession sid (ptyCall r c s)
  = Some (ref, if (r =? ref)%nat then
                 {| id := id se; name := name se; pty := pty se ++ [c];
                    history := history se |}
               else se).
Proof.
  unfold getSession, ptyCall. simpl. intros H.
  destruct (JsMap.get sid (sessions s)) as [ref' |]; [| discriminate].
  rewrite nth_error_updateAt.
  destruct (nth_error (heap s) ref') as [se' |]; [| discriminate].
  injection H as -> ->.
  destruct (r =? ref)%nat; reflexivity.
Qed.

Lemma getSession_heap (sid : string) (ref : nat) (se : Session) (s : Server) :
  getSession sid s = Some (ref, se) ->
  JsMap.get sid (sessions s) = Some ref /\ nth_error (heap s) ref = Some se.
Proof.
  unfold getSession. intros H.
  destruct (JsMap.get sid (sessions s)) as [ref' |]; [| discriminate].
  destruct (nth_error (heap s) ref') as [se' |] eqn:E; [| discriminate].
  injection H as -> ->. auto.
Qed.

(** ** create-session when the spawn fails *)

(** C8: when [pty.spawn] throws, [createSession] returns null and leaves
    the server as it was: nothing registered, nothing announced; the
    handler of create-session and the startup call both complete normally
    with the server unchanged. *)
Theorem createSession_spawn_failure (s : Server) (env : SpawnEnv) :
  spawned env = false ->
  (forall isInitial, createSession isInitial env s = (s, None))
  /\ (forall c hasCallback, step s (CreateSession c hasCallback env) = (Normal, s))
  /\ step s (Startup env) = (Normal, s).
Proof.
  intros H. split; [| split].
  - intros isInitial. unfold createSession. rewrite H. reflexivity.
  - intros c hasCallback. simpl. unfold guarded, onCreateSession, createSession.
    rewrite H. simpl. destruct (connected c s); reflexivity.
  - simpl. unfold createSession. rewrite H. simpl.
    destruct (sessions s); reflexivity.
Qed.

(** C8 on the server with one session. *)
Lemma createSession_spawn_failure_witness :
  createSession false (spawnFails "b") oneSession = (oneSession, None)
  /\ step oneSession (CreateSession "c" true (spawnFails "b")) = (Normal, oneSession).
Proof.
  destruct (createSession_spawn_failure oneSession (spawnFails "b") eq_refl)
    as (H1 & H2 & _).
  split; [apply H1 | apply H2].
Defined.

(** ** input *)

(** C10: an input naming no live session returns before the bucket is
    consulted: the whole server, bucket included, is unchanged. *)
Theorem input_unknown_session_leaves_bucket
        (s : Server) (c sid data : string) (now : Z) (writeThrows : bool) :
  getSession sid s = None ->
  step s (Input c sid data now writeThrows) = (Normal, s).
Proof.
  intros H. simpl. unfold guarded, onInput. rewrite H.
  destruct (connected c s); reflexivity.
Qed.

(** C10 on the server with one session: an input for "zz". *)
Lemma input_unknown_session_leaves_bucket_witness :
  step oneSession (Input "c" "zz" "ls" 5 false) = (Normal, oneSession).
Proof.
  apply (input_unknown_session_leaves_bucket oneSession "c" "zz" "ls" 5 false).
  reflexivity.
Defined.

(** C9: an input for a live session completes normally whatever [write]
    does, and nothing is sent to any connection. When the bucket refuses
    the byte length of the data, no session object changes, so nothing is
    written; when it admits it, exactly one write of the data as it came is
    issued on the handle of that session and no other object changes. *)
Theorem input_dropped_or_written
        (s : Server) (c sid data : string) (now : Z) (writeThrows : bool)
        (k : Socket) (ref : nat) (se : Session) :
  JsMap.get c (sockets s) = Some k ->
  getSession sid s = Some (ref, se) ->
  let r := step s (Input c sid data now writeThrows) in
  let admitted := fst (take (bucket k) now (inject_Z (byteLength data))) in
  fst r = Normal
  /\ sessions (snd r) = sessions s
  /\ (forall c', inboxOf c' (snd r) = inboxOf c' s)
  /\ (admitted = false -> heap (snd r) = heap s)
  /\ (admitted = true ->
      ptyCallsOf sid (snd r) = ptyCallsOf sid s ++ [PtyWrite data]
      /\ forall r', r' <> ref -> nth_error (heap (snd r)) r' = nth_error (heap s) r').
Proof.
  intros Hk Hse r admitted. subst r admitted. simpl.
  unfold guarded, connected, onInput. rewrite Hk, Hse.
  destruct (take (bucket k) now (inject_Z (byteLength data))) as [ok b].
  simpl. destruct ok; simpl.
  - split; [reflexivity |]. split; [reflexivity |].
    split; [intros c'; apply inboxOf_withSocket; reflexivity |].
    split; [discriminate |]. intros _. split.
    + unfold ptyCallsOf.
      rewrite (getSession_ptyCall sid ref ref se (PtyWrite data)) by exact Hse.
      rewrite Hse, Nat.eqb_refl. reflexivity.
    + intros r' Hr'. rewrite nth_error_updateAt.
      destruct (ref =? r')%nat eqn:E; [apply Nat.eqb_eq in E; congruence | reflexivity].
  - split; [reflexivity |]. split; [reflexivity |].
    split; [intros c'; apply inboxOf_withSocket; reflexivity |].
    split; [reflexivity | discriminate].
Qed.

(** C9 on the server with one session: the default bucket admits "ls" and
    refuses nothing yet, so the write is issued. *)
Lemma input_dropped_or_written_witness :
  ptyCallsOf "a" (snd (step oneSession (Input "c" "a" "ls" 5 true)))
  = ptyCallsOf "a" oneSession ++ [PtyWrite "ls"].
Proof.
  apply (input_dropped_or_written oneSession "c" "a" "ls" 5 true socketC 0%nat sessionA);
    reflexivity.
Defined.

Lemma getSession_withSocket (sid c : string) (f : Socket -> Socket) (s : Server) :
  getSession sid (withSocket c f s) = getSession sid s.
Proof. reflexivity. Qed.

Lemma connected_get (c : string) (s : Server) :
  connected c s = true -> exists k, JsMap.get c (sockets s) = Some k.
Proof.
  unfold connected. destruct (JsMap.get c (sockets s)) as [k |]; [eauto | discriminate].
Qed.

(** ** switch-session to an id that names no session *)

(** C2 as stated fails: "c" is subscribed to the live session "a", asks to
    switch to "zz", which names no session, and is left in no room but its
    own. *)
Lemma switch_to_unknown_session_counterexample :
  In "a"%string (roomsOf "c" oneSession)
  /\ getSession "zz" oneSession = None
  /\ roomsOf "c" (snd (step oneSession (SwitchSession "c" "zz"))) = ["c"%string]
  /\ roomsOf "c" (snd (step oneSession (SwitchSession "c" "zz")))
     <> roomsOf "c" oneSession.
Proof.
  split; [right; left; reflexivity |].
  split; [reflexivity |].
  split; [reflexivity |].
  intros H. discriminate H.
Qed.

(** C2, amended: a switch to an id that names no session completes
    normally, takes the connection out of every room but its own (so out
    of its prior session), joins nothing, delivers nothing to anyone, and
    leaves the other connections and the sessions as they were. *)
Theorem switch_to_unknown_session_unsubscribes (s : Server) (c sid : string) :
  connected c s = true ->
  getSession sid s = None ->
  let r := step s (SwitchSession c sid) in
  fst r = Normal
  /\ roomsOf c (snd r) = filter (fun room => String.eqb room c) (roomsOf c s)
  /\ (forall room, In room (roomsOf c (snd r)) -> room = c)
  /\ (forall c', c' <> c -> roomsOf c' (snd r) = roomsOf c' s)
  /\ (forall c', inboxOf c' (snd r) = inboxOf c' s)
  /\ heap (snd r) = heap s
  /\ sessions (snd r) = sessions s.
Proof.
  intros Hc Hs r. subst r. simpl. unfold guarded. rewrite Hc.
  unfold onSwitchSession. rewrite getSession_withSocket, Hs. simpl.
  assert (Hrooms : roomsOf c (withSocket c (leaveRooms c) s)
                   = filter (fun room => String.eqb room c) (roomsOf c s)).
  { rewrite roomsOf_withSocket, String.eqb_refl. unfold roomsOf.
    destruct (JsMap.get c (sockets s)); reflexivity. }
  split; [reflexivity |]. split; [exact Hrooms |].
  split.
  { intros room Hin. rewrite Hrooms in Hin.
    apply filter_In in Hin. destruct Hin as [_ Heq].
    apply String.eqb_eq in Heq. exact Heq. }
  split.
  { intros c' Hne. rewrite roomsOf_withSocket.
    destruct (String.eqb c c') eqn:E; [| reflexivity].
    apply String.eqb_eq in E. congruence. }
  split; [intros c'; apply inboxOf_withSocket; reflexivity |].
  split; reflexivity.
Qed.

(** C2, amended, on the server with one session. *)
Lemma switch_to_unknown_session_unsubscribes_witness :
  roomsOf "c" (snd (step oneSession (SwitchSession "c" "zz")))
  = filter (fun room => String.eqb room "c") (roomsOf "c" oneSession).
Proof.
  apply (switch_to_unknown_session_unsubscribes oneSession "c" "zz"); reflexivity.
Defined.

(** ** resize *)

(** C3 as stated fails: 0 columns is outside [40,1000], yet the request is
    not ignored: the handler takes the default 80 for it and resizes the
    pseudo-terminal to 80 by 24. *)
Lemma resize_zero_cols_counterexample :
  ~ (40 <= 0 <= 1000)%Q
  /\ ptyCallsOf "a" oneSession = []
  /\ ptyCallsOf "a" (snd (step oneSession (Resize "c" "a" (Finite 0) (Finite 24) false)))
     = [PtyResize (Finite 80) (Finite 24)].
Proof.
  split; [intros [H _]; unfold Qle in H; simpl in H; lia |]. split; reflexivity.
Qed.

Lemma numberOr_default (v dflt : JsNumber) :
  v = NaN \/ (exists q, v = Finite q /\ (q == 0)%Q) ->
  numberOr v dflt = dflt.
Proof.
  intros [-> | (q & -> & Hq)]; [reflexivity |].
  unfold numberOr, truthy. apply Qeq_bool_iff in Hq. rewrite Hq. reflexivity.
Qed.

Lemma numberOr_keep (q : Q) (dflt : JsNumber) :
  ~ (q == 0)%Q -> numberOr (Finite q) dflt = Finite q.
Proof.
  intros Hq. unfold numberOr, truthy.
  destruct (Qeq_bool q 0) eqn:E; [| reflexivity].
  apply Qeq_bool_iff in E. contradiction.
Qed.

Lemma lessThan_Finite (x y : Q) :
  lessThan (Finite x) (Finite y) = true <-> (x < y)%Q.
Proof.
  unfold lessThan. rewrite negb_true_iff. split.
  - intros H. apply Qnot_le_lt. intros Hle. apply Qle_bool_iff in Hle. congruence.
  - intros H. destruct (Qle_bool y x) eqn:E; [| reflexivity].
    apply Qle_bool_iff in E. apply Qle_not_lt in E. contradiction.
Qed.

(** C3, amended: on a live session the handler first takes 80 for a
    [cols] that is zero or not a number and 30 for such a [rows], and
    keeps any other number, whole or not, as it is; if the resulting
    columns are outside [40,1000] or the resulting rows outside [10,400],
    as every infinite value is, the request changes nothing; otherwise
    exactly one resize with the resulting values is issued on the handle
    of that session. It completes normally either way, whatever the
    resize does. *)
Theorem resize_defaults_then_bounds
        (s : Server) (c sid : string) (cols rows : JsNumber) (resizeThrows : bool)
        (ref : nat) (se : Session) :
  connected c s = true ->
  getSession sid s = Some (ref, se) ->
  let r := step s (Resize c sid cols rows resizeThrows) in
  fst r = Normal
  /\ (cols = NaN \/ (exists q, cols = Finite q /\ (q == 0)%Q) ->
      r = step s (Resize c sid (Finite 80) rows resizeThrows))
  /\ (rows = NaN \/ (exists q, rows = Finite q /\ (q == 0)%Q) ->
      r = step s (Resize c sid cols (Finite 30) resizeThrows))
  /\ (forall negative, cols = Infinity negative \/ rows = Infinity negative ->
                       snd r = s)
  /\ (forall x y,
         cols = Finite x -> rows = Finite y -> ~ (x == 0)%Q -> ~ (y == 0)%Q ->
         ((x < 40 \/ 1000 < x \/ y < 10 \/ 400 < y)%Q -> snd r = s)
         /\ ((40 <= x <= 1000)%Q -> (10 <= y <= 400)%Q ->
             ptyCallsOf sid (snd r)
             = ptyCallsOf sid s ++ [PtyResize (Finite x) (Finite y)]
             /\ sessions (snd r) = sessions s
             /\ sockets (snd r) = sockets s
             /\ forall r', r' <> ref ->
                           nth_error (heap (snd r)) r' = nth_error (heap s) r')).
Proof.
  intros Hc Hse r.
  assert (Hstep : forall cols rows,
             step s (Resize c sid cols rows resizeThrows)
             = if lessThan (numberOr cols (Finite 80)) (Finite 40)
                  || lessThan (Finite 1000) (numberOr cols (Finite 80))
                  || lessThan (numberOr rows (Finite 30)) (Finite 10)
                  || lessThan (Finite 400) (numberOr rows (Finite 30))
               then (Normal, s)
               else (Normal,
                     ptyCall ref (PtyResize (numberOr cols (Finite 80))
                                            (numberOr rows (Finite 30))) s)).
  { intros cols0 rows0. unfold step, guarded. rewrite Hc. unfold onResize.
    rewrite Hse. reflexivity. }
  unfold r. split; [| split; [| split; [| split]]].
  - rewrite Hstep. destruct (_ || _); reflexivity.
  - intros H. rewrite !Hstep, (numberOr_default cols _ H). reflexivity.
  - intros H. rewrite !Hstep, (numberOr_default rows _ H). reflexivity.
  - intros negative [-> | ->]; rewrite Hstep.
    + destruct negative; reflexivity.
    + destruct negative; cbn [numberOr truthy lessThan]; rewrite ?orb_true_r; reflexivity.
  - intros x y -> -> Hx Hy. rewrite Hstep.
    rewrite (numberOr_keep x _ Hx), (numberOr_keep y _ Hy).
    split.
    + intros H.
      assert (E : lessThan (Finite x) (Finite 40) || lessThan (Finite 1000) (Finite x)
                  || lessThan (Finite y) (Finite 10) || lessThan (Finite 400) (Finite y)
                  = true).
      { rewrite !orb_true_iff, !lessThan_Finite. tauto. }
      rewrite E. reflexivity.
    + intros [Hx1 Hx2] [Hy1 Hy2].
      assert (E : lessThan (Finite x) (Finite 40) || lessThan (Finite 1000) (Finite x)
                  || lessThan (Finite y) (Finite 10) || lessThan (Finite 400) (Finite y)
                  = false).
      { rewrite !orb_false_iff. repeat split;
          (destruct (lessThan _ _) eqn:E; [| reflexivity]);
          apply lessThan_Finite in E; exfalso; lra. }
      rewrite E. cbn [snd]. split.
      * unfold ptyCallsOf.
        rewrite (getSession_ptyCall sid ref ref se (PtyResize (Finite x) (Finite y)))
          by exact Hse.
        rewrite Hse, Nat.eqb_refl. reflexivity.
      * split; [reflexivity |]. split; [reflexivity |].
        intros r' Hr'. cbn [ptyCall heap setHeap]. rewrite nth_error_updateAt.
        destruct (ref =? r')%nat eqn:E';
          [apply Nat.eqb_eq in E'; congruence | reflexivity].
Qed.

(** C3, amended, on the server with one session: 0 columns and rows that
    are not a number are applied as 80 by 30, and 100.5 by 24 as it is. *)
Lemma resize_defaults_then_bounds_witness :
  ptyCallsOf "a" (snd (step oneSession (Resize "c" "a" (Finite 0) NaN true)))
  = ptyCallsOf "a" oneSession ++ [PtyResize (Finite 80) (Finite 30)]
  /\ ptyCallsOf "a" (snd (step oneSession
                            (Resize "c" "a" (Finite (201 # 2)) (Finite 24) true)))
     = ptyCallsOf "a" oneSession ++ [PtyResize (Finite (201 # 2)) (Finite 24)].
Proof.
  split.
  - destruct (resize_defaults_then_bounds oneSession "c" "a" (Finite 0) NaN true
                                          0%nat sessionA eq_refl eq_refl)
      as (_ & H1 & _).
    rewrite H1 by (right; exists 0%Q; split; reflexivity).
    destruct (resize_defaults_then_bounds oneSession "c" "a" (Finite 80) NaN true
                                          0%nat sessionA eq_refl eq_refl)
      as (_ & _ & H2 & _).
    rewrite H2 by (left; reflexivity).
    destruct (resize_defaults_then_bounds oneSession "c" "a" (Finite 80) (Finite 30) true
                                          0%nat sessionA eq_refl eq_refl)
      as (_ & _ & _ & _ & H3).
    destruct (H3 80%Q 30%Q eq_refl eq_refl) as [_ H4];
      [intros H; vm_compute in H; discriminate H
      | intros H; vm_compute in H; discriminate H |].
    apply H4; split; vm_compute; discriminate.
  - destruct (resize_defaults_then_bounds oneSession "c" "a" (Finite (201 # 2))
                                          (Finite 24) true
                                          0%nat sessionA eq_refl eq_refl)
      as (_ & _ & _ & _ & H3).
    destruct (H3 (201 # 2)%Q 24%Q eq_refl eq_refl) as [_ H4];
      [intros H; vm_compute in H; discriminate H
      | intros H; vm_compute in H; discriminate H |].
    apply H4; split; vm_compute; discriminate.
Defined.

(** ** Session numbers *)

Section Allocator.
Local Open Scope nat_scope.

Lemma insertAsc_In (n x : nat) (l : list nat) :
  In x (insertAsc n l) <-> x = n \/ In x l.
Proof.
  induction l as [| m rest IH]; simpl.
  - intuition.
  - destruct (n <=? m); simpl; [intuition |].
    rewrite IH. intuition.
Qed.

Lemma insertAsc_sorted (n : nat) (l : list nat) :
  StronglySorted lt l -> ~ In n l -> StronglySorted lt (insertAsc n l).
Proof.
  induction 1 as [| m rest Hs IH Hall]; intros Hn; simpl.
  - constructor; constructor.
  - destruct (n <=? m) eqn:E.
    + apply Nat.leb_le in E.
      assert (Hlt : n < m) by (simpl in Hn; lia).
      constructor; [constructor; assumption |].
      constructor; [exact Hlt |].
      eapply Forall_impl; [| exact Hall]. simpl. intros; lia.
    + apply Nat.leb_gt in E.
      constructor.
      * apply IH. simpl in Hn. tauto.
      * apply Forall_forall. intros x Hx. apply (proj1 (insertAsc_In _ _ _)) in Hx.
        destruct Hx as [-> | Hx]; [exact E |].
        rewrite Forall_forall in Hall. auto.
Qed.

Lemma sortAsc_In (x : nat) (l : list nat) : In x (sortAsc l) <-> In x l.
Proof.
  induction l as [| n rest IH]; simpl; [tauto |].
  rewrite insertAsc_In, IH. intuition.
Qed.

Lemma sortAsc_sorted (l : list nat) : NoDup l -> StronglySorted lt (sortAsc l).
Proof.
  induction 1 as [| n rest Hn Hnd IH]; simpl.
  - constructor.
  - apply insertAsc_sorted; [exact IH |]. rewrite sortAsc_In. exact Hn.
Qed.

(** The scan returns the first number from [next] on that is missing from
    an increasing list of numbers that are at least [next]. *)
Lemma scanGap_least (l : list nat) :
  forall next,
    StronglySorted lt l -> Forall (fun n => next <= n) l ->
    next <= scanGap next l
    /\ ~ In (scanGap next l) l
    /\ forall m, next <= m < scanGap next l -> In m l.
Proof.
  induction l as [| a rest IH]; intros next Hs Hge; simpl.
  - split; [lia |]. split; [tauto |]. intros m Hm. lia.
  - apply StronglySorted_inv in Hs. destruct Hs as [Hs Hall].
    inversion Hge as [| ? ? Ha Hrest]; subst.
    rewrite Forall_forall in Hall.
    destruct (a =? next) eqn:E.
    + apply Nat.eqb_eq in E. subst a.
      assert (Hnext : Forall (fun n => S next <= n) rest).
      { apply Forall_forall. intros x Hx. apply Hall in Hx. lia. }
      destruct (IH (S next) Hs Hnext) as (H1 & H2 & H3).
      split; [lia |]. split.
      * intros [Heq | Hin]; [lia | contradiction].
      * intros m Hm. destruct (Nat.eq_dec m next) as [-> | Hne]; [left; reflexivity |].
        right. apply H3. lia.
    + apply Nat.eqb_neq in E.
      split; [lia |]. split.
      * intros [Heq | Hin]; [lia |]. apply Hall in Hin. lia.
      * intros m Hm. lia.
Qed.

Lemma getNextSessionNumber_least (s : Server) :
  NoDup (liveNumbers s) ->
  Forall (fun n => 1 <= n) (liveNumbers s) ->
  1 <= getNextSessionNumber s
  /\ ~ In (getNextSessionNumber s) (liveNumbers s)
  /\ forall m, 1 <= m < getNextSessionNumber s -> In m (liveNumbers s).
Proof.
  intros Hnd Hpos. unfold getNextSessionNumber, usedNumbers.
  fold (liveNumbers s).
  destruct (scanGap_least (sortAsc (liveNumbers s)) 1) as (H1 & H2 & H3).
  - apply sortAsc_sorted, Hnd.
  - apply Forall_forall. intros x Hx. apply (proj1 (sortAsc_In _ _)) in Hx.
    rewrite Forall_forall in Hpos. exact (Hpos x Hx).
  - split; [exact H1 |]. split.
    + rewrite <- sortAsc_In. exact H2.
    + intros m Hm. rewrite <- sortAsc_In. auto.
Qed.

Lemma to_uint_nonnil (n : nat) : Nat.to_uint n <> Nil.
Proof.
  rewrite <- (DecimalNat.Unsigned.of_to n) at 1.
  rewrite DecimalNat.Unsigned.to_of. unfold unorm.
  destruct (nzhead (Nat.to_uint n)); discriminate.
Qed.

(** The pattern reads back the number a name was made from. *)
Lemma sessionNumberOf_sessionName (n : nat) :
  sessionNumberOf (sessionName n) = Some n.
Proof.
  unfold sessionNumberOf, sessionName. simpl.
  rewrite NilZero.usu by apply to_uint_nonnil.
  simpl. f_equal. apply DecimalNat.Unsigned.of_to.
Qed.

Lemma liveNumbers_numbers (s : Server) :
  liveNumbers s = numbers (heap s) (sessions s).
Proof.
  unfold liveNumbers, numbers, sessionValues, JsMap.values.
  induction (sessions s) as [| [k ref] rest IH]; simpl; [reflexivity |].
  rewrite map_app. unfold numAt at 1.
  destruct (nth_error (heap s) ref) as [se |]; simpl; [| exact IH].
  destruct (sessionNumberOf (name se)); simpl; rewrite IH; reflexivity.
Qed.

End Allocator.

(** ** The states the server reaches are well formed *)

Lemma wellFormed_emptyServer : wellFormed emptyServer.
Proof.
  constructor; simpl.
  - intros k ref [].
  - intros se [].
  - constructor.
  - constructor.
Qed.

(** Only the heap and the map matter. *)
Lemma wellFormed_same (s s' : Server) :
  heap s' = heap s -> sessions s' = sessions s -> wellFormed s -> wellFormed s'.
Proof.
  intros Hh Hm [H1 H2 H3 H4]. constructor; rewrite ?Hh, ?Hm; assumption.
Qed.

Lemma numAt_updateAt (f : Session -> Session) (h : list Session) (i ref : nat) :
  (forall x, name (f x) = name x) ->
  numAt (updateAt i f h) ref = numAt h ref.
Proof.
  intros Hf. unfold numAt. rewrite nth_error_updateAt.
  destruct (i =? ref)%nat; [| reflexivity].
  destruct (nth_error h ref) as [x |]; simpl; [rewrite Hf |]; reflexivity.
Qed.

Lemma numbers_updateAt (f : Session -> Session) (h : list Session) (i : nat)
      (m : list (string * nat)) :
  (forall x, name (f x) = name x) ->
  numbers (updateAt i f h) m = numbers h m.
Proof.
  intros Hf. unfold numbers. apply flat_map_ext. intros kv.
  apply numAt_updateAt, Hf.
Qed.

(** An update of one object that keeps its id and name and a history that
    holds the tail of a stream. *)
Lemma wellFormed_updateAt (s s' : Server) (i : nat) (f : Session -> Session) :
  (forall x, id (f x) = id x) ->
  (forall x, name (f x) = name x) ->
  (forall x, nth_error (heap s) i = Some x ->
             (exists stream, holdsTail (history x) stream) ->
             exists stream, holdsTail (history (f x)) stream) ->
  heap s' = updateAt i f (heap s) ->
  sessions s' = sessions s ->
  wellFormed s -> wellFormed s'.
Proof.
  intros Hid Hname Hhist Hh Hm [H1 H2 H3 H4].
  constructor; rewrite ?Hh, ?Hm, ?numbers_updateAt by exact Hname; try assumption.
  - intros k ref Hin. destruct (H1 k ref Hin) as (se & Hse & Hk).
    rewrite nth_error_updateAt, Hse.
    destruct (i =? ref)%nat; simpl; eexists; split; try reflexivity;
      rewrite ?Hid; exact Hk.
  - intros se Hin. apply In_nth_error in Hin. destruct Hin as [j Hj].
    rewrite nth_error_updateAt in Hj.
    destruct (i =? j)%nat eqn:E.
    + apply Nat.eqb_eq in E. subst j.
      destruct (nth_error (heap s) i) as [x |] eqn:Hx; [| discriminate].
      simpl in Hj. injection Hj as <-.
      apply (Hhist x eq_refl). apply H2. eapply nth_error_In, Hx.
    + apply H2. eapply nth_error_In, Hj.
Qed.

Lemma wellFormed_ptyCall (s : Server) (ref : nat) (c : PtyCall) :
  wellFormed s -> wellFormed (ptyCall ref c s).
Proof.
  apply (wellFormed_updateAt s _ ref
           (fun session => {| id := id session; name := name session;
                              pty := pty session ++ [c];
                              history := history session |}));
    try reflexivity.
  intros x _ H. exact H.
Qed.

(** Removing a key. *)
Lemma numbers_delete_incl (h : list Session) (k : string) (m : list (string * nat)) :
  forall n, In n (numbers h (JsMap.delete k m)) -> In n (numbers h m).
Proof.
  unfold numbers, JsMap.delete. intros n Hin.
  apply in_flat_map in Hin. destruct Hin as (kv & Hkv & Hn).
  apply filter_In in Hkv. apply in_flat_map. exists kv. tauto.
Qed.

Lemma numbers_delete_NoDup (h : list Session) (k : string) (m : list (string * nat)) :
  NoDup (numbers h m) -> NoDup (numbers h (JsMap.delete k m)).
Proof.
  induction m as [| kv rest IH]; simpl; intros Hnd; [constructor |].
  pose proof (NoDup_app_remove_l _ _ Hnd) as Hrest.
  destruct (negb (String.eqb k (fst kv))); simpl; [| exact (IH Hrest)].
  apply NoDup_app.
  - exact (NoDup_app_remove_r _ _ Hnd).
  - exact (IH Hrest).
  - intros n Hn Hin. apply numbers_delete_incl in Hin.
    revert Hnd Hn Hin. unfold numbers.
    generalize (numAt h (snd kv)) (flat_map (fun kv0 => numAt h (snd kv0)) rest).
    intros l1 l2 Hnd Hn Hin.
    induction l1 as [| a l1 IHl]; [destruct Hn |].
    simpl in Hnd. apply NoDup_cons_iff in Hnd. destruct Hnd as [Ha Hnd].
    destruct Hn as [-> | Hn].
    + apply Ha. apply in_or_app. right. exact Hin.
    + exact (IHl Hnd Hn).
Qed.

Lemma wellFormed_delete (s s' : Server) (k : string) :
  heap s' = heap s ->
  sessions s' = JsMap.delete k (sessions s) ->
  wellFormed s -> wellFormed s'.
Proof.
  intros Hh Hm [H1 H2 H3 H4]. constructor; rewrite ?Hh, ?Hm.
  - intros k' ref Hin. apply filter_In in Hin. apply H1. tauto.
  - exact H2.
  - apply numbers_delete_NoDup, H3.
  - apply Forall_forall. intros n Hn. apply numbers_delete_incl in Hn.
    rewrite Forall_forall in H4. exact (H4 n Hn).
Qed.

Lemma NoDup_app_disjoint {A} (l1 l2 : list A) (a : A) :
  NoDup (l1 ++ l2) -> In a l1 -> In a l2 -> False.
Proof.
  induction l1 as [| x l1 IH]; simpl; intros Hnd H1 H2; [exact H1 |].
  apply NoDup_cons_iff in Hnd. destruct Hnd as [Hx Hnd].
  destruct H1 as [-> | H1].
  - apply Hx, in_or_app. right. exact H2.
  - exact (IH Hnd H1 H2).
Qed.

Lemma in_set {V} (k k' : string) (v v' : V) (m : list (string * V)) :
  In (k', v') (JsMap.set k v m) -> (k' = k /\ v' = v) \/ In (k', v') m.
Proof.
  induction m as [| [k0 v0] rest IH]; simpl.
  - intros [H | []]. injection H as <- <-. auto.
  - destruct (String.eqb k k0); simpl.
    + intros [H | H]; [injection H as <- <-; auto | auto].
    + intros [H | H]; [auto | destruct (IH H); auto].
Qed.

Lemma numbers_ext (h h' : list Session) (m : list (string * nat)) :
  (forall kv, In kv m -> numAt h' (snd kv) = numAt h (snd kv)) ->
  numbers h' m = numbers h m.
Proof.
  induction m as [| kv rest IH]; simpl; intros H; [reflexivity |].
  rewrite (H kv) by (left; reflexivity).
  rewrite IH by (intros kv' Hin; apply H; right; exact Hin). reflexivity.
Qed.

(** Filing a new object, numbered [N], under a key. *)
Lemma numbers_set (h h' : list Session) (k : string) (r0 N : nat) :
  forall m,
    (forall kv, In kv m -> numAt h' (snd kv) = numAt h (snd kv)) ->
    numAt h' r0 = [N] ->
    ~ In N (numbers h m) ->
    NoDup (numbers h m) ->
    NoDup (numbers h' (JsMap.set k r0 m))
    /\ forall x, In x (numbers h' (JsMap.set k r0 m)) -> x = N \/ In x (numbers h m).
Proof.
  intros m Hold Hnew. induction m as [| [k0 v0] rest IH]; simpl; intros HN Hnd.
  - rewrite Hnew. simpl. split.
    + constructor; [intros [] | constructor].
    + intros x [H | []]; auto.
  - assert (Hrest : forall kv, In kv rest -> numAt h' (snd kv) = numAt h (snd kv))
      by (intros kv Hin; apply Hold; right; exact Hin).
    assert (HNrest : ~ In N (numbers h rest))
      by (intros Hin; apply HN, in_or_app; right; exact Hin).
    pose proof (NoDup_app_remove_l _ _ Hnd) as Hndrest.
    destruct (String.eqb k k0); simpl.
    + rewrite Hnew. fold (numbers h' rest). rewrite (numbers_ext h h' rest Hrest).
      simpl. split.
      * constructor; assumption.
      * intros x [H | H]; [auto |]. right. apply in_or_app. right. exact H.
    + fold (numbers h' (JsMap.set k r0 rest)).
      pose proof (Hold (k0, v0) (or_introl eq_refl)) as H0. simpl in H0.
      rewrite H0.
      destruct (IH Hrest HNrest Hndrest) as [IH1 IH2].
      split.
      * apply NoDup_app.
        -- exact (NoDup_app_remove_r _ _ Hnd).
        -- exact IH1.
        -- intros a Ha Hin. destruct (IH2 a Hin) as [-> | Hin'].
           ++ apply HN, in_or_app. left. exact Ha.
           ++ exact (NoDup_app_disjoint _ _ a Hnd Ha Hin').
      * intros x Hx. apply in_app_or in Hx. destruct Hx as [Hx | Hx].
        -- right. apply in_or_app. left. exact Hx.
        -- destruct (IH2 x Hx) as [-> | Hx']; [auto |].
           right. apply in_or_app. right. exact Hx'.
Qed.

Lemma createSession_spawned (isInitial : bool) (env : SpawnEnv) (s : Server) :
  spawned env = true ->
  snd (createSession isInitial env s) = Some (List.length (heap s))
  /\ heap (fst (createSession isInitial env s)) = heap s ++ [freshSession env s]
  /\ sessions (fst (createSession isInitial env s))
     = JsMap.set (uuid env) (List.length (heap s)) (sessions s).
Proof.
  intros H. unfold createSession. rewrite H. simpl.
  destruct isInitial; simpl; auto.
Qed.

Lemma HISTORY_LIMIT_pos : 0 < HISTORY_LIMIT.
Proof. reflexivity. Qed.

Lemma wellFormed_createSession (isInitial : bool) (env : SpawnEnv) (s : Server) :
  wellFormed s -> wellFormed (fst (createSession isInitial env s)).
Proof.
  intros Hwf. destruct (spawned env) eqn:Hsp.
  - destruct (createSession_spawned isInitial env s Hsp) as (_ & Hh & Hm).
    pose proof Hwf as [H1 H2 H3 H4].
    assert (Hold : forall kv, In kv (sessions s) ->
                     numAt (heap s ++ [freshSession env s]) (snd kv)
                     = numAt (heap s) (snd kv)).
    { intros [k ref] Hin. destruct (H1 k ref Hin) as (se & Hse & _).
      unfold numAt. simpl.
      rewrite nth_error_app1 by (apply nth_error_Some; congruence). reflexivity. }
    assert (Hnew : numAt (heap s ++ [freshSession env s]) (List.length (heap s))
                   = [getNextSessionNumber s]).
    { unfold numAt. rewrite nth_error_app2 by lia. rewrite Nat.sub_diag. simpl.
      rewrite sessionNumberOf_sessionName. reflexivity. }
    destruct (getNextSessionNumber_least s) as (N1 & N2 & N3);
      rewrite ?liveNumbers_numbers; try assumption.
    rewrite liveNumbers_numbers in N2.
    destruct (numbers_set (heap s) (heap s ++ [freshSession env s]) (uuid env)
                          (List.length (heap s)) (getNextSessionNumber s)
                          (sessions s) Hold Hnew N2 H3) as [Hnd Hin].
    constructor; rewrite ?Hh, ?Hm.
    + intros k ref Hkr. apply in_set in Hkr. destruct Hkr as [[-> ->] | Hkr].
      * exists (freshSession env s).
        rewrite nth_error_app2 by lia. rewrite Nat.sub_diag. split; reflexivity.
      * destruct (H1 k ref Hkr) as (se & Hse & Hk). exists se.
        rewrite nth_error_app1 by (apply nth_error_Some; congruence). auto.
    + intros se Hse. apply in_app_or in Hse. destruct Hse as [Hse | [<- | []]].
      * exact (H2 se Hse).
      * exists []. apply newRingBuffer_holdsTail, HISTORY_LIMIT_pos.
    + exact Hnd.
    + apply Forall_forall. intros x Hx. destruct (Hin x Hx) as [-> | Hx'].
      * exact N1.
      * rewrite Forall_forall in H4. exact (H4 x Hx').
  - unfold createSession. rewrite Hsp. exact Hwf.
Qed.

(** Every turn of the loop keeps the server well formed. *)
Lemma wellFormed_step (s : Server) (e : Event) :
  wellFormed s -> wellFormed (snd (step s e)).
Proof.
  intros Hwf. destruct e; simpl; unfold guarded;
    try (destruct (connected socketId s); [| exact Hwf]); simpl.
  - (* Startup *)
    destruct (sessions s) eqn:E; [| exact Hwf]. simpl.
    apply wellFormed_createSession, Hwf.
  - (* Connection *)
    revert Hwf. apply wellFormed_same; reflexivity.
  - (* SwitchSession *)
    unfold onSwitchSession. rewrite getSession_withSocket.
    destruct (getSession sessionId s) as [[ref se] |]; simpl.
    + destruct (toString (history se)); revert Hwf; apply wellFormed_same; reflexivity.
    + revert Hwf. apply wellFormed_same; reflexivity.
  - (* CreateSession *)
    unfold onCreateSession.
    pose proof (wellFormed_createSession false env s Hwf) as H.
    destruct (createSession false env s) as [s1 [ref |]]; simpl in *; [| exact H].
    destruct hasCallback; [| exact H].
    destruct (nth_error (heap s1) ref); [| exact H].
    revert H. apply wellFormed_same; reflexivity.
  - (* CloseSession *)
    unfold onCloseSession.
    destruct (getSession sessionId s) as [[ref se] |]; simpl; [| exact Hwf].
    apply wellFormed_ptyCall, Hwf.
  - (* Input *)
    unfold onInput.
    destruct (getSession sessionId s) as [[ref se] |]; simpl; [| exact Hwf].
    destruct (JsMap.get socketId (sockets s)) as [k |]; simpl; [| exact Hwf].
    destruct (take (bucket k) now (inject_Z (byteLength data))) as [ok b].
    destruct ok; simpl.
    + apply wellFormed_ptyCall. revert Hwf. apply wellFormed_same; reflexivity.
    + revert Hwf. apply wellFormed_same; reflexivity.
  - (* Resize *)
    unfold onResize.
    destruct (getSession sessionId s) as [[ref se] |]; simpl; [| exact Hwf].
    destruct (_ || _); simpl; [exact Hwf |].
    apply wellFormed_ptyCall, Hwf.
  - (* Disconnect *)
    revert Hwf. apply wellFormed_same; reflexivity.
  - (* PtyData *)
    unfold onPtyData.
    destruct (nth_error (heap s) ref) as [se |] eqn:Hse; simpl; [| exact Hwf].
    destruct (wf_hist s Hwf se (nth_error_In _ _ Hse)) as [stream Hst].
    destruct (append_holdsTail (history se) stream d Hst) as (h' & Ha & Hh' & _).
    rewrite Ha. simpl.
    apply (wellFormed_updateAt s _ ref
             (fun session => {| id := id session; name := name session;
                                pty := pty session; history := h' |}));
      try reflexivity; try exact Hwf.
    intros x _ _. exists (stream ++ d). exact Hh'.
  - (* PtyExit *)
    unfold onPtyExit.
    destruct (nth_error (heap s) ref) as [se |]; simpl; [| exact Hwf].
    revert Hwf. apply (wellFormed_delete s _ (id se)); reflexivity.
  - (* StartupTimer *)
    unfold onStartupTimer. destruct (timers s) as [| ref rest]; simpl; [exact Hwf |].
    apply wellFormed_ptyCall. revert Hwf. apply wellFormed_same; reflexivity.
Qed.

Lemma wellFormed_run (es : list Event) :
  forall s, wellFormed s -> wellFormed (run s es).
Proof.
  induction es as [| e rest IH]; intros s Hwf; simpl; [exact Hwf |].
  apply IH, wellFormed_step, Hwf.
Qed.

Lemma reachable_wellFormed (s : Server) : reachable s -> wellFormed s.
Proof.
  intros [es ->]. apply wellFormed_run, wellFormed_emptyServer.
Qed.

Lemma reachable_run (es : list Event) : reachable (run emptyServer es).
Proof. exists es. reflexivity. Qed.

Lemma get_set_same {V} (k : string) (v : V) (m : list (string * V)) :
  JsMap.get k (JsMap.set k v m) = Some v.
Proof.
  induction m as [| [k0 v0] rest IH]; simpl.
  - rewrite String.eqb_refl. reflexivity.
  - destruct (String.eqb k k0) eqn:E; simpl.
    + rewrite String.eqb_refl. reflexivity.
    + rewrite E. exact IH.
Qed.

(** C5: in any state the server can reach, by whatever creations, closes
    and exits, a creation whose spawn works registers a session named
    "Session N" where N is positive, is the numeric suffix of no live
    session's name, and is such that every smaller positive number is the
    suffix of some live session's name. *)
Theorem new_session_takes_least_free_number
        (s : Server) (isInitial : bool) (env : SpawnEnv) :
  reachable s ->
  spawned env = true ->
  exists s' ref session,
    createSession isInitial env s = (s', Some ref)
    /\ getSession (uuid env) s' = Some (ref, session)
    /\ In (uuid env, name session) (listSessions s')
    /\ name session = sessionName (getNextSessionNumber s)
    /\ (1 <= getNextSessionNumber s)%nat
    /\ ~ In (getNextSessionNumber s) (liveNumbers s)
    /\ forall m, (1 <= m < getNextSessionNumber s)%nat -> In m (liveNumbers s).
Proof.
  intros Hreach Hsp.
  pose proof (reachable_wellFormed s Hreach) as Hwf.
  destruct (createSession_spawned isInitial env s Hsp) as (Hr & Hh & Hm).
  destruct (createSession isInitial env s) as [s' r] eqn:E. simpl in *. subst r.
  assert (Hget : getSession (uuid env) s'
                 = Some (List.length (heap s), freshSession env s)).
  { unfold getSession. rewrite Hm, get_set_same, Hh.
    rewrite nth_error_app2 by lia. rewrite Nat.sub_diag. reflexivity. }
  exists s', (List.length (heap s)), (freshSession env s).
  split; [reflexivity |]. split; [exact Hget |].
  split.
  { unfold listSessions, sessionValues, JsMap.values.
    apply in_map_iff. exists (freshSession env s). split; [reflexivity |].
    apply in_flat_map. exists (List.length (heap s)). split.
    - apply in_map_iff. exists (uuid env, List.length (heap s)). split; [reflexivity |].
      unfold getSession in Hget.
      destruct (JsMap.get (uuid env) (sessions s')) as [r |] eqn:Eg; [| discriminate].
      assert (r = List.length (heap s)).
      { destruct (nth_error (heap s') r); [injection Hget; auto | discriminate]. }
      subst r. clear - Eg.
      induction (sessions s') as [| [k0 v0] rest IH]; simpl in *; [discriminate |].
      destruct (String.eqb (uuid env) k0) eqn:E0.
      + apply String.eqb_eq in E0. injection Eg as ->. subst. left. reflexivity.
      + right. apply IH, Eg.
    - rewrite Hh, nth_error_app2 by lia. rewrite Nat.sub_diag. left. reflexivity. }
  split; [reflexivity |].
  apply getNextSessionNumber_least; rewrite liveNumbers_numbers.
  - apply wf_nodup, Hwf.
  - apply wf_pos, Hwf.
Qed.

(** C5 after sessions 1, 2 and 3 were created and session 2 closed and
    gone: the next one is "Session 2". *)
Lemma new_session_takes_least_free_number_witness :
  listSessions threeMinusOne
  = [("a", "Session 1"); ("d", "Session 3")]%string
  /\ exists s' ref session,
       createSession false (spawnOk "e") threeMinusOne = (s', Some ref)
       /\ getSession "e" s' = Some (ref, session)
       /\ name session = "Session 2"%string.
Proof.
  split; [vm_compute; reflexivity |].
  destruct (new_session_takes_least_free_number
              threeMinusOne false (spawnOk "e")
              (reachable_run _) eq_refl)
    as (s' & ref & session & H1 & H2 & _ & H3 & _).
  exists s', ref, session. split; [exact H1 |]. split; [exact H2 |].
  rewrite H3. vm_compute. reflexivity.
Defined.

(** ** What a turn does to the registry *)

Lemma step_registry (s : Server) (e : Event) :
  wellFormed s -> registryStep s (snd (step s e)) e.
Proof.
  intros Hwf. destruct e; simpl; unfold guarded;
    try (destruct (connected socketId s); [| apply rs_same; reflexivity]); simpl.
  - (* Startup *)
    destruct (sessions s) eqn:E; [| apply rs_same; reflexivity]. simpl.
    destruct (spawned env) eqn:Hsp.
    + destruct (createSession_spawned true env s Hsp) as (_ & Hh & Hm).
      apply (rs_create _ _ _ env); [reflexivity | exact Hh |].
      rewrite Hm, E. reflexivity.
    + unfold createSession. rewrite Hsp. apply rs_same; reflexivity.
  - apply rs_same; reflexivity.
  - unfold onSwitchSession. rewrite getSession_withSocket.
    destruct (getSession sessionId s) as [[ref se] |]; simpl.
    + destruct (toString (history se)); apply rs_same; reflexivity.
    + apply rs_same; reflexivity.
  - unfold onCreateSession.
    destruct (spawned env) eqn:Hsp.
    + destruct (createSession_spawned false env s Hsp) as (Hr & Hh & Hm).
      destruct (createSession false env s) as [s1 r]. simpl in *. subst r.
      assert (R : registryStep s s1 (CreateSession socketId hasCallback env))
        by (apply (rs_create _ _ _ env); [reflexivity | exact Hh | exact Hm]).
      destruct hasCallback; [| exact R].
      destruct (nth_error (heap s1) (List.length (heap s))); [| exact R].
      simpl. apply (rs_create _ _ _ env); [reflexivity | exact Hh | exact Hm].
    + unfold createSession. rewrite Hsp. simpl. apply rs_same; reflexivity.
  - unfold onCloseSession.
    destruct (getSession sessionId s) as [[ref se] |]; simpl;
      [| apply rs_same; reflexivity].
    apply (rs_call _ _ _ ref PtyKill); reflexivity.
  - unfold onInput.
    destruct (getSession sessionId s) as [[ref se] |]; simpl;
      [| apply rs_same; reflexivity].
    destruct (JsMap.get socketId (sockets s)) as [k |]; simpl;
      [| apply rs_same; reflexivity].
    destruct (take (bucket k) now (inject_Z (byteLength data))) as [ok b].
    destruct ok; simpl.
    + apply (rs_call _ _ _ ref (PtyWrite data)); reflexivity.
    + apply rs_same; reflexivity.
  - unfold onResize.
    destruct (getSession sessionId s) as [[ref se] |]; simpl;
      [| apply rs_same; reflexivity].
    destruct (_ || _); simpl; [apply rs_same; reflexivity |].
    apply (rs_call _ _ _ ref (PtyResize (numberOr cols (Finite 80)) (numberOr rows (Finite 30))));
      reflexivity.
  - apply rs_same; reflexivity.
  - unfold onPtyData.
    destruct (nth_error (heap s) ref) as [se |] eqn:Hse; simpl;
      [| apply rs_same; reflexivity].
    destruct (wf_hist s Hwf se (nth_error_In _ _ Hse)) as [stream Hst].
    destruct (append_holdsTail (history se) stream d Hst) as (h' & Ha & _ & _).
    rewrite Ha. simpl.
    apply (rs_data _ _ _ ref d se h'); try reflexivity; assumption.
  - unfold onPtyExit.
    destruct (nth_error (heap s) ref) as [se |] eqn:Hse; simpl;
      [| apply rs_same; reflexivity].
    apply (rs_exit _ _ _ ref se); try reflexivity; assumption.
  - unfold onStartupTimer. destruct (timers s) as [| ref rest]; simpl;
      [apply rs_same; reflexivity |].
    apply (rs_call _ _ _ ref (PtyWrite startupCommand)); reflexivity.
Qed.

Lemma get_set_other {V} (k k' : string) (v : V) (m : list (string * V)) :
  k <> k' -> JsMap.get k (JsMap.set k' v m) = JsMap.get k m.
Proof.
  intros Hne. apply String.eqb_neq in Hne.
  induction m as [| [k0 v0] rest IH]; simpl.
  - rewrite Hne. reflexivity.
  - destruct (String.eqb k' k0) eqn:E; simpl.
    + apply String.eqb_eq in E. subst k0. rewrite Hne. reflexivity.
    + rewrite IH. reflexivity.
Qed.

Lemma get_delete_other {V} (k k' : string) (m : list (string * V)) :
  k <> k' -> JsMap.get k (JsMap.delete k' m) = JsMap.get k m.
Proof.
  intros Hne. apply String.eqb_neq in Hne.
  induction m as [| [k0 v0] rest IH]; simpl; [reflexivity |].
  destruct (String.eqb k' k0) eqn:E; simpl.
  - apply String.eqb_eq in E. subst k0. rewrite Hne. exact IH.
  - rewrite IH. reflexivity.
Qed.

Lemma get_delete_same {V} (k : string) (m : list (string * V)) :
  JsMap.get k (JsMap.delete k m) = None.
Proof.
  induction m as [| [k0 v0] rest IH]; simpl; [reflexivity |].
  destruct (String.eqb k k0) eqn:E; simpl; [exact IH |].
  rewrite E. exact IH.
Qed.

Lemma get_In {V} (k : string) (v : V) (m : list (string * V)) :
  JsMap.get k m = Some v -> In (k, v) m.
Proof.
  induction m as [| [k0 v0] rest IH]; simpl; [discriminate |].
  destruct (String.eqb k k0) eqn:E.
  - apply String.eqb_eq in E. intros H. injection H as ->. subst. left. reflexivity.
  - intros H. right. exact (IH H).
Qed.

(** A session that lives under an id keeps living there through a turn
    that spares it. *)
Lemma livesAt_step (s : Server) (e : Event) (sid nm : string) (ref : nat) :
  wellFormed s ->
  livesAt sid ref nm s ->
  sparesSession sid ref e = true ->
  livesAt sid ref nm (snd (step s e)).
Proof.
  intros Hwf (Hget & (se & Hse & Hid & Hnm) & Hsole) Hsp.
  assert (Hupd : forall i (f : Session -> Session) (s' : Server),
             (forall x, id (f x) = id x) -> (forall x, name (f x) = name x) ->
             heap s' = updateAt i f (heap s) -> sessions s' = sessions s ->
             livesAt sid ref nm s').
  { intros i f s' Hfi Hfn Hh Hm. split; [rewrite Hm; exact Hget |]. split.
    - rewrite Hh, nth_error_updateAt, Hse.
      destruct (i =? ref)%nat; simpl; eexists; split; try reflexivity;
        rewrite ?Hfi, ?Hfn; auto.
    - intros r x Hx Hxid. rewrite Hh, nth_error_updateAt in Hx.
      destruct (i =? r)%nat.
      + destruct (nth_error (heap s) r) as [y |] eqn:Hy; [| discriminate].
        simpl in Hx. injection Hx as <-. rewrite Hfi in Hxid.
        exact (Hsole r y Hy Hxid).
      + exact (Hsole r x Hx Hxid). }
  destruct (step_registry s e Hwf) as
      [Hh Hm | i c Hh Hm | i d x h He Hx Ha Hh Hm | env He Hh Hm | r x He Hx Hh Hm].
  - split; [rewrite Hm; exact Hget |]. split.
    + rewrite Hh. exists se. auto.
    + unfold soleHolder. rewrite Hh. exact Hsole.
  - eapply Hupd; [| | exact Hh | exact Hm]; reflexivity.
  - eapply Hupd; [| | exact Hh | exact Hm]; reflexivity.
  - assert (Hne : uuid env <> sid).
    { destruct e; simpl in He; try discriminate; injection He as ->;
        simpl in Hsp; apply negb_true_iff, String.eqb_neq in Hsp; exact Hsp. }
    split; [rewrite Hm, get_set_other by congruence; exact Hget |]. split.
    + rewrite Hh. exists se.
      rewrite nth_error_app1 by (apply nth_error_Some; congruence). auto.
    + intros r y Hy Hyid. rewrite Hh in Hy.
      destruct (Nat.lt_ge_cases r (List.length (heap s))) as [Hlt | Hge].
      * rewrite nth_error_app1 in Hy by exact Hlt. exact (Hsole r y Hy Hyid).
      * rewrite nth_error_app2 in Hy by exact Hge.
        destruct (r - List.length (heap s))%nat as [| n]; simpl in Hy.
        -- injection Hy as <-. simpl in Hyid. contradiction.
        -- destruct n; discriminate.
  - subst e. simpl in Hsp. apply negb_true_iff, Nat.eqb_neq in Hsp.
    assert (Hne : sid <> id x).
    { intros Heq. apply Hsp. apply (Hsole r x Hx). auto. }
    split; [rewrite Hm, get_delete_other by exact Hne; exact Hget |]. split.
    + rewrite Hh. exists se. auto.
    + unfold soleHolder. rewrite Hh. exact Hsole.
Qed.

Lemma livesAt_run (es : list Event) (sid nm : string) (ref : nat) :
  forall s,
    wellFormed s ->
    livesAt sid ref nm s ->
    forallb (sparesSession sid ref) es = true ->
    livesAt sid ref nm (run s es).
Proof.
  induction es as [| e rest IH]; intros s Hwf Hl Hsp; simpl; [exact Hl |].
  simpl in Hsp. apply andb_true_iff in Hsp. destruct Hsp as [He Hrest].
  apply IH; [apply wellFormed_step, Hwf | | exact Hrest].
  apply livesAt_step; assumption.
Qed.

(** ** Who is told that a session closed *)

Lemma inboxOf_ioEmit (c : string) (e : ServerEvent) (s : Server) :
  inboxOf c (ioEmit e s)
  = if connected c s then inboxOf c s ++ [e] else inboxOf c s.
Proof.
  unfold inboxOf, ioEmit, connected. simpl.
  rewrite (get_map_values (fun _ v => deliver e v)).
  destruct (JsMap.get c (sockets s)); reflexivity.
Qed.

Lemma inboxOf_ioToEmit (c room : string) (e : ServerEvent) (s : Server) :
  forall ev, In ev (inboxOf c (ioToEmit room e s)) -> In ev (inboxOf c s) \/ ev = e.
Proof.
  intros ev. unfold inboxOf, ioToEmit. simpl.
  rewrite (get_map_values (fun _ v => if inRoom room v then deliver e v else v)).
  destruct (JsMap.get c (sockets s)) as [k |]; simpl; [| auto].
  destruct (inRoom room k); simpl; [| auto].
  intros H. apply in_app_or in H. destruct H as [H | [H | []]]; auto.
Qed.

Lemma in_inboxOf_ioEmit (c : string) (e : ServerEvent) (s : Server) :
  forall ev, In ev (inboxOf c (ioEmit e s)) -> In ev (inboxOf c s) \/ ev = e.
Proof.
  intros ev. rewrite inboxOf_ioEmit. destruct (connected c s); [| auto].
  intros H. apply in_app_or in H. destruct H as [H | [H | []]]; auto.
Qed.

Lemma in_inboxOf_socketEmit (c c' : string) (e : ServerEvent) (s : Server) :
  forall ev, In ev (inboxOf c' (socketEmit c e s)) -> In ev (inboxOf c' s) \/ ev = e.
Proof.
  intros ev. rewrite inboxOf_socketEmit. destruct (_ && _); [| auto].
  intros H. apply in_app_or in H. destruct H as [H | [H | []]]; auto.
Qed.

Lemma inbox_join_keeps (room : string) (k : Socket) : inbox (join room k) = inbox k.
Proof. unfold join. destruct (inRoom room k); reflexivity. Qed.

(** A session-closed event for [sid] reaches an inbox in a turn only if the
    turn is the exit of a pseudo-terminal whose session object carries
    [sid]. *)
Lemma closed_only_on_exit (s : Server) (e : Event) (c sid nm : string) :
  In (SessionClosed sid nm) (inboxOf c (snd (step s e))) ->
  In (SessionClosed sid nm) (inboxOf c s)
  \/ exists r y, e = PtyExit r /\ nth_error (heap s) r = Some y /\ id y = sid.
Proof.
  destruct e; unfold step, guarded;
    try (destruct (connected socketId s); [| simpl snd; intros H; left; exact H]).
  - (* Startup *)
    destruct (sessions s); simpl snd; [| auto].
    unfold createSession. destruct (spawned env); simpl fst; [| auto].
    intros H. apply (in_inboxOf_ioEmit c _ _) in H.
    destruct H as [H | H]; [left; exact H | discriminate H].
  - (* Connection *)
    unfold onConnection. simpl snd. intros H.
    apply in_inboxOf_socketEmit in H. destruct H as [H | H]; [| discriminate H].
    unfold inboxOf in H. simpl in H.
    destruct (String.eqb_spec c socketId) as [-> | Hne].
    + rewrite get_set_same in H. destruct H.
    + rewrite get_set_other in H by exact Hne. left. exact H.
  - (* SwitchSession *)
    unfold onSwitchSession. rewrite getSession_withSocket.
    destruct (getSession sessionId s) as [[r se] |]; simpl snd.
    + destruct (toString (history se)); simpl snd; intros H.
      * rewrite !inboxOf_withSocket in H; auto using inbox_join_keeps.
      * apply in_inboxOf_socketEmit in H. destruct H as [H | H]; [| discriminate H].
        rewrite !inboxOf_withSocket in H; auto using inbox_join_keeps.
    + intros H. rewrite inboxOf_withSocket in H; auto.
  - (* CreateSession *)
    unfold onCreateSession, createSession.
    destruct (spawned env); simpl; [| auto].
    assert (Hcreated : forall ev s0,
               sockets s0 = sockets (ioEmit (SessionCreated (uuid env)
                                               (sessionName (getNextSessionNumber s))) s) ->
               In ev (inboxOf c s0) ->
               In ev (inboxOf c s)
               \/ ev = SessionCreated (uuid env) (sessionName (getNextSessionNumber s))).
    { intros ev s0 Hs0 H. apply in_inboxOf_ioEmit. unfold inboxOf in *.
      rewrite <- Hs0. exact H. }
    destruct hasCallback.
    + rewrite nth_error_app2 by lia. rewrite Nat.sub_diag. simpl. intros H.
      apply in_inboxOf_socketEmit in H. destruct H as [H | H]; [| discriminate H].
      apply Hcreated in H; [| reflexivity].
      destruct H as [H | H]; [left; exact H | discriminate H].
    + simpl. intros H. apply Hcreated in H; [| reflexivity].
      destruct H as [H | H]; [left; exact H | discriminate H].
  - (* CloseSession *)
    unfold onCloseSession.
    destruct (getSession sessionId s) as [[r se] |]; simpl snd; auto.
  - (* Input *)
    unfold onInput.
    destruct (getSession sessionId s) as [[r se] |]; simpl snd; [| auto].
    destruct (JsMap.get socketId (sockets s)) as [k0 |]; simpl snd; [| auto].
    destruct (take (bucket k0) now (inject_Z (byteLength data))) as [ok b].
    destruct ok; simpl snd; intros H; left;
      [change (inboxOf c (ptyCall r (PtyWrite data)
                                  (withSocket socketId (setBucket b) s)))
         with (inboxOf c (withSocket socketId (setBucket b) s)) in H |];
      rewrite inboxOf_withSocket in H; auto.
  - (* Resize *)
    unfold onResize.
    destruct (getSession sessionId s) as [[r se] |]; simpl snd; [| auto].
    destruct (_ || _); simpl snd; auto.
  - (* Disconnect *)
    unfold onDisconnect. simpl snd. unfold inboxOf at 1. simpl.
    destruct (String.eqb_spec c socketId) as [-> | Hne].
    + rewrite get_delete_same. intros [].
    + rewrite get_delete_other by exact Hne. auto.
  - (* PtyData *)
    unfold onPtyData.
    destruct (nth_error (heap s) ref) as [y |]; simpl snd; [| auto].
    destruct (append (history y) d) as [[|] h]; simpl snd; [| auto].
    intros H. apply inboxOf_ioToEmit in H.
    destruct H as [H | H]; [left; exact H | discriminate H].
  - (* PtyExit *)
    unfold onPtyExit.
    destruct (nth_error (heap s) ref) as [y |] eqn:Hy; simpl snd; [| auto].
    intros H. apply in_inboxOf_ioEmit in H. destruct H as [H | H]; [left; exact H |].
    injection H as Hid _. right. exists ref, y. auto.
  - (* StartupTimer *)
    unfold onStartupTimer. destruct (timers s); simpl snd; auto.
Qed.

(** While the session is spared, nobody is told that it closed. *)
Lemma closed_not_announced (es : list Event) (sid nm : string) (ref : nat) :
  forall s,
    wellFormed s ->
    livesAt sid ref nm s ->
    forallb (sparesSession sid ref) es = true ->
    forall c nm',
      In (SessionClosed sid nm') (inboxOf c (run s es)) ->
      In (SessionClosed sid nm') (inboxOf c s).
Proof.
  induction es as [| e rest IH]; intros s Hwf Hl Hsp c nm' Hin; [exact Hin |].
  simpl in Hsp. apply andb_true_iff in Hsp. destruct Hsp as [He Hrest].
  apply (IH (snd (step s e)) (wellFormed_step s e Hwf)
            (livesAt_step s e sid nm ref Hwf Hl He) Hrest) in Hin.
  apply closed_only_on_exit in Hin.
  destruct Hin as [Hin | (r & y & -> & Hy & Hid)]; [exact Hin |].
  simpl in He. apply negb_true_iff, Nat.eqb_neq in He.
  destruct Hl as (_ & _ & Hsole). exfalso. exact (He (Hsole r y Hy Hid)).
Qed.

(** ** close-session and the exit of the pseudo-terminal *)

Lemma listSessions_flat (s : Server) :
  listSessions s
  = flat_map (fun ref => match nth_error (heap s) ref with
                         | Some x => [(id x, name x)]
                         | None => []
                         end)
             (JsMap.values (sessions s)).
Proof.
  unfold listSessions, sessionValues.
  induction (JsMap.values (sessions s)) as [| ref rest IH]; simpl; [reflexivity |].
  rewrite map_app, IH. destruct (nth_error (heap s) ref); reflexivity.
Qed.

Lemma listSessions_updateAt (s s' : Server) (i : nat) (f : Session -> Session) :
  (forall x, id (f x) = id x) -> (forall x, name (f x) = name x) ->
  heap s' = updateAt i f (heap s) -> sessions s' = sessions s ->
  listSessions s' = listSessions s.
Proof.
  intros Hid Hname Hh Hm. rewrite !listSessions_flat, Hh, Hm.
  apply flat_map_ext. intros ref. rewrite nth_error_updateAt.
  destruct (i =? ref)%nat; [| reflexivity].
  destruct (nth_error (heap s) ref); simpl; [rewrite Hid, Hname |]; reflexivity.
Qed.

Lemma livesAt_listed (s : Server) (sid nm : string) (ref : nat) :
  livesAt sid ref nm s ->
  In (sid, nm) (listSessions s) /\ exists session, getSession sid s = Some (ref, session).
Proof.
  intros (Hget & (se & Hse & Hid & Hnm) & _). split.
  - rewrite listSessions_flat. apply in_flat_map. exists ref. split.
    + unfold JsMap.values. apply in_map_iff. exists (sid, ref).
      split; [reflexivity | apply get_In, Hget].
    + rewrite Hse, Hid, Hnm. left. reflexivity.
  - exists se. unfold getSession. rewrite Hget, Hse. reflexivity.
Qed.

Lemma roomsOf_socketEmit (c c' : string) (e : ServerEvent) (s : Server) :
  roomsOf c' (socketEmit c e s) = roomsOf c' s.
Proof.
  unfold socketEmit. rewrite roomsOf_withSocket. unfold roomsOf.
  destruct (String.eqb c c'); [| reflexivity].
  destruct (JsMap.get c' (sockets s)); reflexivity.
Qed.

Lemma in_join (room : string) (k : Socket) : In room (rooms (join room k)).
Proof.
  unfold join. destruct (inRoom room k) eqn:E; simpl.
  - unfold inRoom in E. apply existsb_exists in E. destruct E as (x & Hx & Heq).
    apply String.eqb_eq in Heq. subst. exact Hx.
  - apply in_or_app. right. left. reflexivity.
Qed.

(** A connected socket that switches to a live session is in its room. *)
Lemma switch_joins (s : Server) (c sid : string) (ref : nat) (se : Session) :
  connected c s = true ->
  getSession sid s = Some (ref, se) ->
  In sid (roomsOf c (snd (step s (SwitchSession c sid)))).
Proof.
  intros Hc Hse. simpl. unfold guarded. rewrite Hc.
  unfold onSwitchSession. rewrite getSession_withSocket, Hse.
  destruct (connected_get c s Hc) as [k Hk].
  assert (H : In sid (roomsOf c (withSocket c (join sid)
                                            (withSocket c (leaveRooms c) s)))).
  { rewrite roomsOf_withSocket, String.eqb_refl.
    unfold withSocket at 1. simpl.
    rewrite (get_map_values (fun key v => if String.eqb c key then leaveRooms c v else v)).
    rewrite Hk. simpl. rewrite String.eqb_refl. apply in_join. }
  destruct (toString (history se)); simpl; [exact H |].
  rewrite roomsOf_socketEmit. exact H.
Qed.

(** C7: a close-session request for a live session only asks the
    pseudo-terminal to terminate: the list of sessions is unchanged and
    nothing is announced. Through any later turns other than the exit of that
    pseudo-terminal (and a creation reusing the id), the session is still
    listed under its name, a connection that switches to it is subscribed,
    and nobody is told that it closed. When the exit callback fires, the session is gone from the
    registry and from the list, and every connection receives
    session-closed for it. *)
Theorem close_session_removes_on_exit
        (s : Server) (c sid : string) (killThrows : bool) (ref : nat) (se : Session) :
  reachable s ->
  connected c s = true ->
  getSession sid s = Some (ref, se) ->
  soleHolder sid ref s ->
  let s1 := snd (step s (CloseSession c sid killThrows)) in
  listSessions s1 = listSessions s
  /\ In (sid, name se) (listSessions s1)
  /\ ptyCallsOf sid s1 = ptyCallsOf sid s ++ [PtyKill]
  /\ (forall c', inboxOf c' s1 = inboxOf c' s)
  /\ forall es,
      forallb (sparesSession sid ref) es = true ->
      let s2 := run s1 es in
      let s3 := snd (step s2 (PtyExit ref)) in
      In (sid, name se) (listSessions s2)
      /\ (forall c', connected c' s2 = true ->
                     In sid (roomsOf c' (snd (step s2 (SwitchSession c' sid)))))
      /\ (forall c' nm, In (SessionClosed sid nm) (inboxOf c' s2) ->
                        In (SessionClosed sid nm) (inboxOf c' s))
      /\ getSession sid s3 = None
      /\ ~ In sid (map fst (listSessions s3))
      /\ forall c', connected c' s2 = true ->
                    inboxOf c' s3 = inboxOf c' s2 ++ [SessionClosed sid (name se)].
Proof.
  intros Hreach Hc Hse Hsole s1.
  pose proof (reachable_wellFormed s Hreach) as Hwf.
  destruct (getSession_heap sid ref se s Hse) as [Hget Hnth].
  destruct (wf_refs s Hwf sid ref (get_In _ _ _ Hget)) as (se0 & Hse0 & Hid).
  assert (se0 = se) by congruence. subst se0.
  assert (Hlive : livesAt sid ref (name se) s).
  { split; [exact Hget |]. split; [| exact Hsole]. exists se. auto. }
  assert (Hs1 : s1 = ptyCall ref PtyKill s).
  { unfold s1. simpl. unfold guarded. rewrite Hc. unfold onCloseSession.
    rewrite Hse. reflexivity. }
  assert (Hwf1 : wellFormed s1) by (apply wellFormed_step, Hwf).
  assert (Hlive1 : livesAt sid ref (name se) s1)
    by (apply livesAt_step; [exact Hwf | exact Hlive | reflexivity]).
  split.
  { rewrite Hs1. eapply listSessions_updateAt; [| | reflexivity | reflexivity];
      reflexivity. }
  split; [apply (livesAt_listed s1 sid (name se) ref Hlive1) |].
  split.
  { rewrite Hs1. unfold ptyCallsOf.
    rewrite (getSession_ptyCall sid ref ref se PtyKill) by exact Hse.
    rewrite Hse, Nat.eqb_refl. reflexivity. }
  split; [intros c'; rewrite Hs1; reflexivity |].
  intros es Hes s2 s3.
  assert (Hwf2 : wellFormed s2) by (apply wellFormed_run, Hwf1).
  assert (Hlive2 : livesAt sid ref (name se) s2)
    by (apply livesAt_run; assumption).
  destruct (livesAt_listed s2 sid (name se) ref Hlive2) as [Hin2 [se2 Hget2]].
  split; [exact Hin2 |].
  split; [intros c' Hc'; exact (switch_joins s2 c' sid ref se2 Hc' Hget2) |].
  split.
  { intros c' nm Hin.
    apply (closed_not_announced es sid (name se) ref s1 Hwf1 Hlive1 Hes) in Hin.
    rewrite Hs1 in Hin. exact Hin. }
  destruct Hlive2 as (Hg2 & (x & Hx & Hxid & Hxnm) & _).
  assert (Hs3 : s3 = ioEmit (SessionClosed sid (name se))
                            (setSessions (JsMap.delete sid (sessions s2)) s2)).
  { unfold s3. simpl. unfold onPtyExit. rewrite Hx, Hxid, Hxnm. reflexivity. }
  assert (Hwf3 : wellFormed s3) by (apply wellFormed_step, Hwf2).
  split.
  { rewrite Hs3. unfold getSession. simpl. rewrite get_delete_same. reflexivity. }
  split.
  { intros Hin. apply in_map_iff in Hin. destruct Hin as ([k nm] & Hk & Hin).
    simpl in Hk. subst k. rewrite listSessions_flat in Hin.
    apply in_flat_map in Hin. destruct Hin as (r & Hr & Hin).
    unfold JsMap.values in Hr. apply in_map_iff in Hr.
    destruct Hr as ([k r'] & Hr' & Hkr). simpl in Hr'. subst r'.
    destruct (wf_refs s3 Hwf3 k r Hkr) as (y & Hy & Hyid).
    rewrite Hy in Hin. destruct Hin as [Heq | []]. injection Heq as Hk _.
    rewrite Hs3 in Hkr. simpl in Hkr. apply filter_In in Hkr.
    destruct Hkr as [_ Hkr]. simpl in Hkr.
    apply negb_true_iff, String.eqb_neq in Hkr. congruence. }
  intros c' Hc'. rewrite Hs3, inboxOf_ioEmit.
  unfold connected in *. simpl. rewrite Hc'. reflexivity.
Qed.

(** C7 on the server with one session: after the request, and after an
    input that follows it, "a" is still listed; after the exit it is not. *)
Lemma close_session_removes_on_exit_witness :
  let s1 := snd (step oneSession (CloseSession "c" "a" false)) in
  let s2 := run s1 [Input "c" "a" "ls" 5 false] in
  In ("a", "Session 1")%string (listSessions s1)
  /\ In ("a", "Session 1")%string (listSessions s2)
  /\ getSession "a" (snd (step s2 (PtyExit 0))) = None.
Proof.
  assert (Hsole : soleHolder "a" 0 oneSession).
  { intros [| [| r]] x Hx Hid; [reflexivity | discriminate Hx | destruct r; discriminate Hx]. }
  destruct (close_session_removes_on_exit oneSession "c" "a" false 0%nat sessionA
              (reachable_run _) eq_refl eq_refl Hsole)
    as (_ & H1 & _ & _ & H2).
  destruct (H2 [Input "c" "a" "ls" 5 false] eq_refl) as (H3 & _ & _ & H4 & _).
  intros s1 s2. split; [exact H1 |]. split; [exact H3 | exact H4].
Defined.

(** ** Ordering of history and output *)

Lemma appendAll_app (a b : list (list byte)) :
  forall h h',
    appendAll h a = (Normal, h') ->
    appendAll h (a ++ b) = appendAll h' b.
Proof.
  induction a as [| x rest IH]; intros h h' H; simpl in *.
  - injection H as ->. reflexivity.
  - destruct (append h x) as [[|] h1]; [| discriminate].
    apply IH, H.
Qed.

(** Where the objects of the heap after a turn come from. *)
Lemma heap_step_ids (s : Server) (e : Event) :
  wellFormed s ->
  forall r y,
    nth_error (heap (snd (step s e))) r = Some y ->
    (exists y0, nth_error (heap s) r = Some y0 /\ id y0 = id y)
    \/ (exists env, createdBy e = Some env /\ id y = uuid env).
Proof.
  intros Hwf r y Hy.
  assert (Hupd : forall i (f : Session -> Session),
             (forall x, id (f x) = id x) ->
             nth_error (updateAt i f (heap s)) r = Some y ->
             exists y0, nth_error (heap s) r = Some y0 /\ id y0 = id y).
  { intros i f Hf H. rewrite nth_error_updateAt in H.
    destruct (i =? r)%nat; [| eauto].
    destruct (nth_error (heap s) r) as [y0 |]; [| discriminate].
    simpl in H. injection H as <-. exists y0. rewrite Hf. auto. }
  destruct (step_registry s e Hwf) as
      [Hh Hm | i c Hh Hm | i d x h He Hx Ha Hh Hm | env He Hh Hm | r' x He Hx Hh Hm];
    rewrite Hh in Hy.
  - left. eauto.
  - left. eapply Hupd; [| exact Hy]. reflexivity.
  - left. eapply Hupd; [| exact Hy]. reflexivity.
  - destruct (Nat.lt_ge_cases r (List.length (heap s))) as [Hlt | Hge].
    + rewrite nth_error_app1 in Hy by exact Hlt. left. eauto.
    + rewrite nth_error_app2 in Hy by exact Hge. right. exists env.
      split; [exact He |].
      destruct (r - List.length (heap s))%nat as [| n]; simpl in Hy.
      * injection Hy as <-. reflexivity.
      * destruct n; discriminate.
  - left. eauto.
Qed.

(** The object at [ref] through a turn: it stays, with its id, and its
    history takes the chunk the turn brings for it, if any. *)
Lemma history_step (s : Server) (e : Event) (ref : nat) (x : Session) :
  wellFormed s ->
  nth_error (heap s) ref = Some x ->
  exists x',
    nth_error (heap (snd (step s e))) ref = Some x'
    /\ id x' = id x
    /\ appendAll (history x) (chunksOf ref [e]) = (Normal, history x').
Proof.
  intros Hwf Hx.
  assert (Hother : (forall r d, e <> PtyData r d) ->
                   exists x', nth_error (heap (snd (step s e))) ref = Some x'
                              /\ id x' = id x /\ history x' = history x).
  { intros Hne.
    destruct (step_registry s e Hwf) as
        [Hh Hm | i c Hh Hm | i d y h He Hy Ha Hh Hm | env He Hh Hm | r' y He Hy Hh Hm];
      rewrite Hh.
    - eauto.
    - rewrite nth_error_updateAt, Hx. destruct (i =? ref)%nat; simpl; eauto.
    - exfalso. exact (Hne i d He).
    - rewrite nth_error_app1 by (apply nth_error_Some; congruence). eauto.
    - eauto. }
  destruct e;
    try (destruct Hother as (x' & H1 & H2 & H3); [discriminate |];
         exists x'; simpl; rewrite H3; auto).
  (* PtyData *)
  simpl. unfold onPtyData, chunksOf. simpl.
  destruct (Nat.eqb_spec ref0 ref) as [-> | Hne].
  - rewrite Hx.
    destruct (wf_hist s Hwf x (nth_error_In _ _ Hx)) as [stream Hst].
    destruct (append_holdsTail (history x) stream d Hst) as (h' & Ha & _ & _).
    simpl. rewrite Ha. simpl. rewrite nth_error_updateAt, Nat.eqb_refl, Hx. simpl.
    eexists. split; [reflexivity |]. split; reflexivity.
  - exists x. split; [| split; reflexivity].
    destruct (nth_error (heap s) ref0) as [y |] eqn:Hy; simpl; [| exact Hx].
    destruct (wf_hist s Hwf y (nth_error_In _ _ Hy)) as [stream Hst].
    destruct (append_holdsTail (history y) stream d Hst) as (h' & Ha & _ & _).
    rewrite Ha. simpl. rewrite nth_error_updateAt.
    destruct (Nat.eqb_spec ref0 ref); [contradiction | exact Hx].
Qed.

Lemma get_ioEmit (c : string) (e : ServerEvent) (s : Server) :
  JsMap.get c (sockets (ioEmit e s)) = option_map (deliver e) (JsMap.get c (sockets s)).
Proof. unfold ioEmit. simpl. apply (get_map_values (fun _ v => deliver e v)). Qed.

Lemma get_ioToEmit (c room : string) (e : ServerEvent) (s : Server) :
  JsMap.get c (sockets (ioToEmit room e s))
  = option_map (fun v => if inRoom room v then deliver e v else v)
               (JsMap.get c (sockets s)).
Proof.
  unfold ioToEmit. simpl.
  apply (get_map_values (fun _ v => if inRoom room v then deliver e v else v)).
Qed.

Lemma get_withSocket (c c' : string) (f : Socket -> Socket) (s : Server) :
  JsMap.get c (sockets (withSocket c' f s))
  = option_map (fun v => if String.eqb c' c then f v else v) (JsMap.get c (sockets s)).
Proof.
  unfold withSocket. simpl.
  apply (get_map_values (fun key v => if String.eqb c' key then f v else v)).
Qed.

Lemma get_withSocket_other (c c' : string) (f : Socket -> Socket) (s : Server) :
  c' <> c ->
  JsMap.get c (sockets (withSocket c' f s)) = JsMap.get c (sockets s).
Proof.
  intros Hne. rewrite get_withSocket. apply String.eqb_neq in Hne. rewrite Hne.
  destruct (JsMap.get c (sockets s)); reflexivity.
Qed.

Lemma receivesOnly_stay (c : string) (k : Socket) (socks : list (string * Socket)) :
  JsMap.get c socks = Some k -> receivesOnly c k socks [].
Proof. intros H. exists k, []. rewrite app_nil_r. auto. Qed.

Lemma receivesOnly_one (c : string) (k : Socket) (socks socks0 : list (string * Socket))
      (ev : ServerEvent) :
  JsMap.get c socks0 = Some k ->
  JsMap.get c socks = option_map (deliver ev) (JsMap.get c socks0) ->
  outputsOf [ev] = [] -> historiesOf [ev] = [] ->
  receivesOnly c k socks [].
Proof.
  intros Hk Hs Ho Hh. exists (deliver ev k), [ev]. rewrite Hs, Hk. auto.
Qed.

(** What a turn that keeps the subscription sends to a subscribed socket:
    the chunk of the session if the turn brings one, no other output, and no
    history. *)
Lemma socket_step (s : Server) (e : Event) (c sid : string) (ref : nat)
      (k : Socket) (x : Session) :
  wellFormed s ->
  JsMap.get c (sockets s) = Some k ->
  subscribedTo c sid k ->
  nth_error (heap s) ref = Some x -> id x = sid ->
  soleHolder sid ref s ->
  noSessionNamed c s ->
  keepsSubscription c sid e = true ->
  receivesOnly c k (sockets (snd (step s e))) (chunksOf ref [e]).
Proof.
  intros Hwf Hk [Hin Hrooms] Hx Hid Hsole Hnone Hkeep.
  pose proof (receivesOnly_stay c k (sockets s) Hk) as Hstay.
  replace (chunksOf ref [e])
    with (match e with
          | PtyData r d => if (r =? ref)%nat then [d] else []
          | _ => []
          end) by (unfold chunksOf; simpl; rewrite app_nil_r; reflexivity).
  destruct e; simpl in Hkeep; unfold step, guarded;
    try (destruct (connected socketId s); [| exact Hstay]).
  - (* Startup *)
    destruct (sessions s); [| exact Hstay]. simpl.
    unfold createSession. destruct (spawned env); simpl; [| exact Hstay].
    eapply (receivesOnly_one c k _ (sockets s)
              (SessionCreated (uuid env) (sessionName (getNextSessionNumber s))));
      try reflexivity; [exact Hk |].
    apply (get_map_values (fun _ v => deliver _ v)).
  - (* Connection *)
    apply negb_true_iff, String.eqb_neq in Hkeep.
    apply receivesOnly_stay.
    unfold onConnection, socketEmit. simpl snd. rewrite get_withSocket_other by exact Hkeep. simpl.
    rewrite get_set_other by congruence. exact Hk.
  - (* SwitchSession *)
    apply negb_true_iff, String.eqb_neq in Hkeep.
    apply receivesOnly_stay.
    unfold onSwitchSession. rewrite getSession_withSocket.
    destruct (getSession sessionId s) as [[r se] |]; simpl snd.
    + destruct (toString (history se)); simpl snd; unfold socketEmit;
        rewrite !get_withSocket_other by exact Hkeep; exact Hk.
    + rewrite get_withSocket_other by exact Hkeep. exact Hk.
  - (* CreateSession *)
    unfold onCreateSession, createSession.
    destruct (spawned env); simpl; [| exact Hstay].
    set (ev := SessionCreated (uuid env) (sessionName (getNextSessionNumber s))).
    assert (Hcreated : JsMap.get c (map (fun kv => (fst kv, deliver ev (snd kv))) (sockets s))
                       = Some (deliver ev k)).
    { rewrite (get_map_values (fun _ v => deliver ev v)), Hk. reflexivity. }
    destruct hasCallback; simpl.
    + rewrite nth_error_app2 by lia. rewrite Nat.sub_diag. simpl.
      unfold receivesOnly.
      rewrite (get_map_values
                 (fun key v => if String.eqb socketId key
                               then deliver (Ack (uuid env)
                                                 (sessionName (getNextSessionNumber s))) v
                               else v)).
      rewrite Hcreated. simpl.
      destruct (String.eqb socketId c).
      * exists (deliver (Ack (uuid env) (sessionName (getNextSessionNumber s)))
                        (deliver ev k)),
          [ev; Ack (uuid env) (sessionName (getNextSessionNumber s))].
        simpl. rewrite <- app_assoc. auto.
      * exists (deliver ev k), [ev]. auto.
    + exists (deliver ev k), [ev]. auto.
  - (* CloseSession *)
    unfold onCloseSession.
    destruct (getSession sessionId s) as [[r se] |]; exact Hstay.
  - (* Input *)
    unfold onInput.
    destruct (getSession sessionId s) as [[r se] |]; [| exact Hstay].
    destruct (JsMap.get socketId (sockets s)) as [k0 |]; [| exact Hstay].
    destruct (take (bucket k0) now (inject_Z (byteLength data))) as [ok b].
    assert (Hb : receivesOnly c k (sockets (withSocket socketId (setBucket b) s)) []).
    { unfold receivesOnly. rewrite get_withSocket, Hk. simpl.
      destruct (String.eqb socketId c); eexists; exists [];
        rewrite app_nil_r; simpl; auto. }
    destruct ok; exact Hb.
  - (* Resize *)
    unfold onResize.
    destruct (getSession sessionId s) as [[r se] |]; [| exact Hstay].
    destruct (_ || _); exact Hstay.
  - (* Disconnect *)
    apply negb_true_iff, String.eqb_neq in Hkeep.
    apply receivesOnly_stay. simpl.
    rewrite get_delete_other by congruence. exact Hk.
  - (* PtyData *)
    unfold onPtyData.
    destruct (nth_error (heap s) ref0) as [y |] eqn:Hy; simpl snd.
    + destruct (wf_hist s Hwf y (nth_error_In _ _ Hy)) as [stream Hst].
      destruct (append_holdsTail (history y) stream d Hst) as (h' & Ha & _ & _).
      rewrite Ha. simpl snd. unfold receivesOnly. rewrite get_ioToEmit.
      change (sockets (setHistory ref0 h' s)) with (sockets s).
      rewrite Hk. simpl.
      destruct (Nat.eqb_spec ref0 ref) as [-> | Hne].
      * assert (y = x) by congruence. subst y. rewrite Hid, Hin.
        exists (deliver (Output d) k), [Output d]. auto.
      * assert (Hout : inRoom (id y) k = false).
        { destruct (inRoom (id y) k) eqn:E; [| reflexivity]. exfalso.
          unfold inRoom in E. apply existsb_exists in E.
          destruct E as (room & Hroom & Heq). apply String.eqb_eq in Heq. subst room.
          destruct (Hrooms _ Hroom) as [Hc | Hs].
          - exact (Hnone ref0 y Hy Hc).
          - exact (Hne (Hsole ref0 y Hy Hs)). }
        rewrite Hout. exists k, []. rewrite app_nil_r. auto.
    + destruct (Nat.eqb_spec ref0 ref) as [-> | Hne]; [congruence |].
      exact Hstay.
  - (* PtyExit *)
    unfold onPtyExit.
    destruct (nth_error (heap s) ref0) as [y |]; simpl; [| exact Hstay].
    eapply (receivesOnly_one c k _ (sockets s) (SessionClosed (id y) (name y)));
      try reflexivity; [exact Hk |].
    apply (get_map_values (fun _ v => deliver _ v)).
  - (* StartupTimer *)
    unfold onStartupTimer. destruct (timers s); exact Hstay.
Qed.

Lemma keepsSubscription_created (c sid : string) (e : Event) (env : SpawnEnv) :
  keepsSubscription c sid e = true ->
  createdBy e = Some env ->
  uuid env <> sid /\ uuid env <> c.
Proof.
  intros Hkeep He.
  destruct e; simpl in He; try discriminate; injection He as ->; simpl in Hkeep;
    apply andb_true_iff in Hkeep; destruct Hkeep as [H1 H2];
    apply negb_true_iff, String.eqb_neq in H1;
    apply negb_true_iff, String.eqb_neq in H2; auto.
Qed.

Lemma chunksOf_cons (ref : nat) (e : Event) (rest : list Event) :
  chunksOf ref (e :: rest) = chunksOf ref [e] ++ chunksOf ref rest.
Proof. unfold chunksOf. simpl. rewrite app_nil_r. reflexivity. Qed.

(** A subscribed socket through a run of turns that keep its subscription:
    it is sent the chunks of its session in arrival order and no other
    output, and no history; the history of the session takes the same
    chunks in the same order. *)
Lemma subscription_run (c sid : string) (ref : nat) (es : list Event) :
  forall (s : Server) (k : Socket) (x : Session),
    wellFormed s ->
    JsMap.get c (sockets s) = Some k ->
    subscribedTo c sid k ->
    nth_error (heap s) ref = Some x -> id x = sid ->
    soleHolder sid ref s ->
    noSessionNamed c s ->
    forallb (keepsSubscription c sid) es = true ->
    receivesOnly c k (sockets (run s es)) (chunksOf ref es)
    /\ exists x', nth_error (heap (run s es)) ref = Some x'
                  /\ appendAll (history x) (chunksOf ref es) = (Normal, history x').
Proof.
  induction es as [| e rest IH]; intros s k x Hwf Hk Hsub Hx Hid Hsole Hnone Hes.
  - simpl. split; [apply receivesOnly_stay, Hk |]. exists x. auto.
  - simpl in Hes. apply andb_true_iff in Hes. destruct Hes as [He Hrest].
    destruct (socket_step s e c sid ref k x Hwf Hk Hsub Hx Hid Hsole Hnone He)
      as (k1 & d1 & Hk1 & Hr1 & Hi1 & Ho1 & Hh1).
    destruct (history_step s e ref x Hwf Hx) as (x1 & Hx1 & Hid1 & Ha1).
    assert (Hsub1 : subscribedTo c sid k1).
    { destruct Hsub as [Hin Hrooms]. unfold subscribedTo, inRoom in *.
      rewrite Hr1. auto. }
    assert (Hsole1 : soleHolder sid ref (snd (step s e))).
    { intros r y Hy Hyid.
      destruct (heap_step_ids s e Hwf r y Hy) as [(y0 & Hy0 & Heq) | (env & Henv & Heq)].
      - apply (Hsole r y0 Hy0). congruence.
      - destruct (keepsSubscription_created c sid e env He Henv). congruence. }
    assert (Hnone1 : noSessionNamed c (snd (step s e))).
    { intros r y Hy Hyid.
      destruct (heap_step_ids s e Hwf r y Hy) as [(y0 & Hy0 & Heq) | (env & Henv & Heq)].
      - apply (Hnone r y0 Hy0). congruence.
      - destruct (keepsSubscription_created c sid e env He Henv). congruence. }
    destruct (IH (snd (step s e)) k1 x1 (wellFormed_step s e Hwf) Hk1 Hsub1 Hx1
                 (eq_trans Hid1 Hid) Hsole1 Hnone1 Hrest)
      as [(k2 & d2 & Hk2 & Hr2 & Hi2 & Ho2 & Hh2) (x2 & Hx2 & Ha2)].
    change (run s (e :: rest)) with (run (snd (step s e)) rest).
    rewrite chunksOf_cons.
    split.
    + exists k2, (d1 ++ d2). split; [exact Hk2 |]. split; [congruence |].
      split; [rewrite Hi2, Hi1, app_assoc; reflexivity |].
      unfold outputsOf, historiesOf in *. rewrite !flat_map_app.
      rewrite Ho1, Ho2, Hh1, Hh2. auto.
    + exists x2. split; [exact Hx2 |].
      rewrite (appendAll_app _ _ _ _ Ha1). exact Ha2.
Qed.

Lemma inRoom_join (room : string) (k : Socket) : inRoom room (join room k) = true.
Proof.
  unfold inRoom. apply existsb_exists. exists room.
  split; [apply in_join | apply String.eqb_refl].
Qed.

Lemma join_leaveRooms_subscribed (c sid : string) (k : Socket) :
  subscribedTo c sid (join sid (leaveRooms c k)).
Proof.
  split; [apply inRoom_join |].
  intros room Hin. unfold join in Hin.
  assert (Hleft : forall r, In r (rooms (leaveRooms c k)) -> r = c).
  { intros r Hr. simpl in Hr. apply filter_In in Hr. destruct Hr as [_ Hr].
    apply String.eqb_eq in Hr. exact Hr. }
  destruct (inRoom sid (leaveRooms c k)).
  - left. apply Hleft, Hin.
  - simpl in Hin. apply in_app_or in Hin. destruct Hin as [Hin | [<- | []]].
    + left. apply Hleft. simpl. exact Hin.
    + right. reflexivity.
Qed.

(** C6: a connection that switches to a live session with a nonempty
    history is sent that snapshot at once, as one event. Through any later
    turns in which it keeps the subscription, everything it is sent comes
    after the snapshot, it is sent no second history, and the output
    events it is sent are exactly the chunks the pseudo-terminal of the
    session produced after the switch, in arrival order; the history of
    the session is the result of appending those chunks in that same order,
    no append throwing. *)
Theorem subscriber_sees_history_then_output
        (s : Server) (c sid : string) (ref : nat) (se : Session) :
  reachable s ->
  connected c s = true ->
  getSession sid s = Some (ref, se) ->
  soleHolder sid ref s ->
  noSessionNamed c s ->
  toString (history se) <> [] ->
  let h := toString (history se) in
  let s1 := snd (step s (SwitchSession c sid)) in
  inboxOf c s1 = inboxOf c s ++ [History h]
  /\ forall es,
      forallb (keepsSubscription c sid) es = true ->
      exists later se2,
        inboxOf c (run s1 es) = inboxOf c s ++ History h :: later
        /\ outputsOf later = chunksOf ref es
        /\ historiesOf later = []
        /\ nth_error (heap (run s1 es)) ref = Some se2
        /\ appendAll (history se) (chunksOf ref es) = (Normal, history se2).
Proof.
  intros Hreach Hc Hse Hsole Hnone Hne h s1.
  assert (Hh : h = toString (history se)) by reflexivity. clearbody h.
  pose proof (reachable_wellFormed s Hreach) as Hwf.
  destruct (connected_get c s Hc) as [k Hk].
  destruct (getSession_heap sid ref se s Hse) as [Hget Hnth].
  destruct (wf_refs s Hwf sid ref (get_In _ _ _ Hget)) as (se0 & Hse0 & Hid).
  assert (se0 = se) by congruence. subst se0.
  set (k1 := deliver (History h) (join sid (leaveRooms c k))).
  assert (Hs1 : s1 = socketEmit c (History h)
                       (withSocket c (join sid) (withSocket c (leaveRooms c) s))).
  { unfold s1, step, guarded. rewrite Hc. unfold onSwitchSession.
    rewrite getSession_withSocket, Hse. rewrite <- Hh.
    destruct h; [congruence | reflexivity]. }
  assert (Hk1 : JsMap.get c (sockets s1) = Some k1).
  { rewrite Hs1. unfold socketEmit. rewrite !get_withSocket, Hk, String.eqb_refl.
    reflexivity. }
  assert (Hinbox : inboxOf c s = inbox k) by (unfold inboxOf; rewrite Hk; reflexivity).
  assert (Hinbox1 : inbox k1 = inbox k ++ [History h]).
  { unfold k1. simpl. rewrite inbox_join_keeps. reflexivity. }
  split.
  { unfold inboxOf. rewrite Hk1, Hk. exact Hinbox1. }
  intros es Hes.
  assert (Hsub1 : subscribedTo c sid k1).
  { destruct (join_leaveRooms_subscribed c sid k) as [H1 H2]. split; assumption. }
  destruct (subscription_run c sid ref es s1 k1 se) as
      [(k2 & later & Hk2 & _ & Hi2 & Ho2 & Hh2) (se2 & Hse2 & Ha2)];
    try assumption.
  - apply wellFormed_step, Hwf.
  - rewrite Hs1. exact Hnth.
  - unfold soleHolder. rewrite Hs1. exact Hsole.
  - unfold noSessionNamed. rewrite Hs1. exact Hnone.
  - exists later, se2. split.
    + unfold inboxOf at 1. rewrite Hk2, Hi2, Hinbox, Hinbox1.
      rewrite <- app_assoc. reflexivity.
    + auto.
Qed.

Lemma reachable_run_from (s : Server) (es : list Event) :
  reachable s -> reachable (run s es).
Proof.
  intros [es0 ->]. exists (es0 ++ es). unfold run. rewrite fold_left_app. reflexivity.
Qed.

Lemma onPtyData_appended (s : Server) (ref : nat) (d : list byte)
      (se : Session) (h : RingBuffer) :
  nth_error (heap s) ref = Some se ->
  append (history se) d = (Normal, h) ->
  step s (PtyData ref d) = (Normal, ioToEmit (id se) (Output d) (setHistory ref h s)).
Proof.
  intros Hse Ha. simpl. unfold onPtyData. rewrite Hse, Ha. reflexivity.
Qed.

(** C6 on a session that has produced "A": the connection "v" switches to
    it and "B" arrives; "v" is sent the history "A" and then the output
    "B". *)
Lemma subscriber_sees_history_then_output_witness :
  toString (history sessionAfterA) = [x41]
  /\ let s1 := snd (step withHistory (SwitchSession "v" "a")) in
     inboxOf "v" s1
     = inboxOf "v" withHistory ++ [History (toString (history sessionAfterA))]
     /\ exists later se2,
          inboxOf "v" (run s1 [PtyData 0 [x42]])
          = inboxOf "v" withHistory
              ++ History (toString (history sessionAfterA)) :: later
          /\ outputsOf later = [[x42]]
          /\ historiesOf later = []
          /\ nth_error (heap (run s1 [PtyData 0 [x42]])) 0 = Some se2
          /\ appendAll (history sessionAfterA) [[x42]] = (Normal, history se2).
Proof.
  destruct (append_holdsTail (history sessionA) [] [x41]
                             (newRingBuffer_holdsTail _ _ HISTORY_LIMIT_pos))
    as (h & Ha & Ht & Hl).
  assert (Hsnap : toString (history sessionAfterA) = [x41]).
  { change (history sessionAfterA) with (snd (append (history sessionA) [x41])).
    rewrite Ha. change (snd (Normal, h)) with h.
    rewrite (toString_holdsTail _ _ Ht), Hl. reflexivity. }
  assert (Hreach : reachable withHistory)
    by (apply reachable_run_from, reachable_run).
  assert (Hstate : withHistory
                   = snd (step (ioToEmit "a" (Output [x41]) (setHistory 0 h beforeA))
                               (Connection "v" 1))).
  { change withHistory
      with (snd (step (snd (step beforeA (PtyData 0 [x41]))) (Connection "v" 1))).
    rewrite (onPtyData_appended beforeA 0 [x41] sessionA h eq_refl Ha). reflexivity. }
  assert (Hobj : sessionAfterA
                 = {| id := "a"; name := "Session 1"; pty := []; history := h |}).
  { unfold sessionAfterA. rewrite Ha. reflexivity. }
  split; [exact Hsnap |].
  rewrite Hobj in *. rewrite Hstate in *.
  assert (Hsole : soleHolder "a" 0
                    (snd (step (ioToEmit "a" (Output [x41]) (setHistory 0 h beforeA))
                               (Connection "v" 1)))).
  { intros [| [| r]] x Hx Hid; [reflexivity | discriminate Hx | destruct r; discriminate Hx]. }
  assert (Hnone : noSessionNamed "v"
                    (snd (step (ioToEmit "a" (Output [x41]) (setHistory 0 h beforeA))
                               (Connection "v" 1)))).
  { intros [| [| r]] x Hx Hid;
      [injection Hx as <-; discriminate Hid | discriminate Hx
       | destruct r; discriminate Hx]. }
  destruct (subscriber_sees_history_then_output
              _ "v" "a" 0%nat
              {| id := "a"; name := "Session 1"; pty := []; history := h |}
              Hreach eq_refl eq_refl Hsole Hnone)
    as [H1 H2].
  - change (toString h = [x41]) in Hsnap. change (toString h <> []).
    rewrite Hsnap. discriminate.
  - intros s1. split; [exact H1 |]. exact (H2 [PtyData 0 [x42]] eq_refl).
Defined.

(** * Further properties *)

(** ** The ring buffer: bounds and edge cases *)

(** Decoding gives at most three bytes for each byte it reads. *)
Lemma toString_length (b : list byte) :
  (List.length (Buffer.toString b) <= 3 * List.length b)%nat.
Proof.
  remember (List.length b) as n eqn:Hn. revert b Hn.
  induction n as [n IH] using lt_wf_ind. intros b Hn.
  assert (IH' : forall r, (List.length r < n)%nat ->
                          (List.length (Buffer.toString r) <= 3 * List.length r)%nat)
    by (intros r Hr; apply (IH _ Hr r eq_refl)).
  clear IH. subst n.
  destruct b as [| b0 r0]; [simpl; lia |].
  cbn [Buffer.toString].
  repeat match goal with
         | |- context [if ?c then _ else _] => destruct c
         | |- context [match ?r with [] => _ | _ :: _ => _ end] => destruct r
         end;
    rewrite ?List.length_app; cbn [List.length Buffer.replacement] in *;
    repeat match goal with
           | |- context [Buffer.toString ?r] =>
               let H := fresh in
               assert (H := IH' r ltac:(cbn [List.length]; lia));
               cbn [List.length] in H; revert H;
               generalize (Buffer.toString r); intros ? ?
           end;
    lia.
Qed.

(** X1: for a capacity C > 0 and any chunks, the ring keeps its limit, its
    array keeps exactly C bytes, its start stays inside the array, its
    length is min(C, total), and the snapshot, as UTF-8, never has more
    than 3 C bytes. *)
Theorem ring_stays_in_bounds (C : Z) (junk : nat -> byte) (chunks : list (list byte)) :
  0 < C ->
  let this := snd (appendAll (newRingBuffer junk C) chunks) in
  limit this = C
  /\ Buffer.length (buf this) = C
  /\ 0 <= start this < C
  /\ len this = Z.min C (Buffer.length (List.concat chunks))
  /\ Buffer.length (toString this) <= 3 * C.
Proof.
  intros HC this.
  destruct (appendAll_holdsTail chunks _ _ (newRingBuffer_holdsTail junk C HC))
    as (this' & Ha & Ht & Hl).
  assert (this = this') by (unfold this; rewrite Ha; reflexivity). subst this'.
  simpl in Hl, Ht. clearbody this.
  pose proof (toString_holdsTail this _ Ht) as Hs.
  destruct Ht as [Hm Hbuf Hstart Hlen Hbytes].
  rewrite Hl in *.
  repeat split; try lia.
  rewrite Hs. unfold Buffer.length.
  match goal with |- Z.of_nat (List.length (Buffer.toString ?t)) <= _ =>
    pose proof (toString_length t) as Hd;
    assert (Hk : (List.length t <= Z.to_nat C)%nat)
      by (unfold lastn; rewrite List.length_skipn; unfold Buffer.length in *; lia)
  end.
  lia.
Qed.

(** X1 at capacity 4 with "abc", "de", "fgh". *)
Lemma ring_stays_in_bounds_witness :
  let this := snd (appendAll (newRingBuffer (fun _ => x00) 4)
                             [[x61; x62; x63]; [x64; x65]; [x66; x67; x68]]) in
  limit this = 4 /\ Buffer.length (buf this) = 4 /\ 0 <= start this < 4
  /\ len this = 4 /\ Buffer.length (toString this) <= 12.
Proof.
  apply (ring_stays_in_bounds 4 (fun _ => x00)
           [[x61; x62; x63]; [x64; x65]; [x66; x67; x68]]).
  lia.
Defined.

(** X2: a ring of capacity 0 accepts every chunk without throwing and
    stays empty: it is unchanged by any run of appends and its snapshot is
    empty. *)
Theorem ring_of_capacity_zero (junk : nat -> byte) (chunks : list (list byte)) :
  appendAll (newRingBuffer junk 0) chunks = (Normal, newRingBuffer junk 0)
  /\ toString (snd (appendAll (newRingBuffer junk 0) chunks)) = [].
Proof.
  assert (H : appendAll (newRingBuffer junk 0) chunks = (Normal, newRingBuffer junk 0)).
  { induction chunks as [| b rest IH]; simpl; [reflexivity |].
    assert (Hb : append (newRingBuffer junk 0) b = (Normal, newRingBuffer junk 0)).
    { pose proof (length_nonneg b) as Hb0.
      unfold append, newRingBuffer. simpl.
      replace (0 <=? Buffer.length b) with true by (symmetry; apply Z.leb_le; lia).
      unfold Buffer.copy. rewrite Z.sub_0_r.
      replace ((0 <? 0) || (Buffer.length b <? 0)
               || (Buffer.length b <? Buffer.length b) || (Buffer.length b <? 0))
        with false
        by (symmetry; rewrite !orb_false_iff, !Z.ltb_ge; lia).
      reflexivity. }
    rewrite Hb. exact IH. }
  split; [exact H |]. rewrite H. reflexivity.
Qed.

(** X3: appending an empty chunk to a ring that holds the tail of a stream
    does not throw and changes nothing, not even a field. *)
Theorem append_empty_chunk (this : RingBuffer) (s : list byte) :
  holdsTail this s ->
  append this [] = (Normal, this).
Proof.
  intros [Hm Hbuf Hstart Hlen Hbytes].
  pose proof (length_nonneg s) as Hs0.
  destruct this as [b l st ln]. simpl in *.
  unfold append. cbn [buf limit start len]. change (Buffer.length (@nil byte)) with 0.
  replace (l <=? 0) with false by (symmetry; apply Z.leb_gt; lia).
  replace (l - ln <? 0) with false by (symmetry; apply Z.ltb_ge; lia).
  cbn [buf limit start len]. rewrite Z.add_0_r, Z.sub_0_r.
  assert (Hw : 0 <= Z.rem (st + ln) l < l).
  { rewrite Z.rem_mod_nonneg by lia. apply Z.mod_pos_bound. lia. }
  rewrite (Z.min_l 0) by lia.
  unfold Buffer.copy. change (Buffer.length (@nil byte)) with 0.
  replace ((Z.rem (st + ln) l <? 0) || (0 <? 0) || (0 <? 0) || (0 <? 0))
    with false
    by (symmetry; rewrite !orb_false_iff, !Z.ltb_ge; lia).
  replace ((Buffer.length b <=? Z.rem (st + ln) l) || (0 <=? 0)) with true
    by (symmetry; apply orb_true_iff; right; reflexivity).
  reflexivity.
Qed.

(** X3 on a fresh ring of capacity 4. *)
Lemma append_empty_chunk_witness :
  append (newRingBuffer (fun _ => x00) 4) [] = (Normal, newRingBuffer (fun _ => x00) 4).
Proof.
  apply (append_empty_chunk (newRingBuffer (fun _ => x00) 4) []).
  apply newRingBuffer_holdsTail. lia.
Defined.
(** ** The token bucket: what it never does *)

Section BucketAccount.
Local Open Scope Q_scope.

Lemma refill_rate (this : Bucket) (now : Z) :
  refillRate (refill this now) = refillRate this.
Proof.
  destruct (refill_cases this now) as [[_ H] | [_ H]]; rewrite H; reflexivity.
Qed.

Lemma refill_last (this : Bucket) (now : Z) :
  last (refill this now) = Z.max (last this) now.
Proof.
  destruct (refill_cases this now) as [[Hle H] | [Hlt H]]; rewrite H; simpl; lia.
Qed.

Lemma refill_nonneg (this : Bucket) (now : Z) :
  0 <= capacity this -> 0 <= refillRate this -> 0 <= tokens this ->
  0 <= tokens (refill this now).
Proof.
  intros Hc Hr Ht.
  destruct (refill_cases this now) as [[_ H] | [Hlt H]]; rewrite H; [exact Ht |].
  cbn [tokens]. apply sub_Z_pos in Hlt.
  set (delta := Double.sub (inject_Z now) (inject_Z (last this))) in *.
  assert (Hd : 0 <= Double.div delta 1000).
  { apply round_nonneg. unfold Qdiv.
    apply Qmult_le_0_compat; [apply Qlt_le_weak, Hlt | discriminate]. }
  assert (Hm : 0 <= Double.mul (Double.div delta 1000) (refillRate this))
    by (apply round_nonneg, Qmult_le_0_compat; assumption).
  apply Q.min_glb; [exact Hc |]. apply round_nonneg. lra.
Qed.

Lemma take_fields (this : Bucket) (now : Z) (n : Q) :
  capacity (snd (take this now n)) = capacity this
  /\ refillRate (snd (take this now n)) = refillRate this
  /\ last (snd (take this now n)) = Z.max (last this) now.
Proof.
  unfold take. destruct (Qle_bool n (tokens (refill this now))); simpl;
    rewrite refill_capacity, refill_rate, refill_last; auto.
Qed.

Lemma take_nonneg (this : Bucket) (now : Z) (n : Q) :
  0 <= capacity this -> 0 <= refillRate this -> 0 <= tokens this ->
  0 <= tokens (snd (take this now n)).
Proof.
  intros Hc Hr Ht. pose proof (refill_nonneg this now Hc Hr Ht) as H.
  unfold take. destruct (Qle_bool n (tokens (refill this now))) eqn:E; simpl.
  - apply Qle_bool_iff in E. apply round_nonneg. lra.
  - exact H.
Qed.

Lemma takeAll_snd (this : Bucket) (now : Z) (n : Q) (rest : list (Z * Q)) :
  snd (takeAll this ((now, n) :: rest)) = snd (takeAll (snd (take this now n)) rest).
Proof.
  simpl. destruct (take this now n) as [ok this1]. simpl.
  destruct (takeAll this1 rest). reflexivity.
Qed.

Lemma takeAll_nonneg (calls : list (Z * Q)) :
  forall this,
    0 <= capacity this -> 0 <= refillRate this -> 0 <= tokens this ->
    0 <= tokens (snd (takeAll this calls)).
Proof.
  induction calls as [| [now n] rest IH]; intros this Hc Hr Ht; [exact Ht |].
  rewrite takeAll_snd. destruct (take_fields this now n) as (Hc1 & Hr1 & _).
  apply IH; rewrite ?Hc1, ?Hr1; try assumption.
  apply take_nonneg; assumption.
Qed.

(** While the clock does not pass the bucket's last reading, whole
    amounts are deducted exactly: what is admitted and what is left add
    up to what was there. *)
Lemma takeAll_standing (calls : list (Z * Z)) :
  forall this,
    representable (tokens this) ->
    tokens this <= 2 ^ 53 ->
    Forall (fun c => (fst c <= last this)%Z /\ (0 <= snd c)%Z) calls ->
    let calls' := map (fun c => (fst c, inject_Z (snd c))) calls in
    admitted this calls' + tokens (snd (takeAll this calls')) == tokens this
    /\ last (snd (takeAll this calls')) = last this.
Proof.
  induction calls as [| [now n] rest IH]; intros this Hrep Hmax Hall calls'.
  - simpl. split; [ring | reflexivity].
  - inversion Hall as [| ? ? [Hnow Hn] Hrest]; subst. simpl in Hnow, Hn.
    unfold calls'. cbn [map fst snd admitted]. rewrite takeAll_snd.
    destruct (refill_cases this now) as [[_ Hre] | [Hlt _]]; [| lia].
    assert (Hn0 : 0 <= inject_Z n)
      by (change 0 with (inject_Z 0); rewrite <- Zle_Qle; exact Hn).
    assert (Htake : let b := snd (take this now (inject_Z n)) in
                    (if fst (take this now (inject_Z n)) then inject_Z n else 0)
                    + tokens b == tokens this
                    /\ last b = last this
                    /\ representable (tokens b)
                    /\ tokens b <= 2 ^ 53).
    { unfold take. rewrite Hre.
      destruct (Qle_bool (inject_Z n) (tokens this)) eqn:E; cbn [fst snd tokens last].
      - apply Qle_bool_iff in E.
        pose proof (sub_whole_exact (tokens this) n Hrep Hmax Hn E) as Hx.
        split; [rewrite Hx; ring |]. split; [reflexivity |].
        split; [apply round_repr |]. rewrite Hx. lra.
      - split; [ring |]. auto. }
    destruct Htake as (H1 & H2 & H3 & H4).
    destruct (IH (snd (take this now (inject_Z n))) H3 H4) as [IH1 IH2].
    { rewrite H2. exact Hrest. }
    split.
    + cbv zeta in IH1. lra.
    + rewrite IH2. exact H2.
Qed.

(** X4: with a capacity and a rate that are not negative, the tokens of a
    fresh bucket never go below zero, whatever is asked of it and whatever
    the clock does. *)
Theorem tokens_never_negative (now0 : Z) (cap rate : Q) (calls : list (Z * Q)) :
  0 <= cap -> 0 <= rate ->
  0 <= tokens (snd (takeAll (createBucket now0 cap rate) calls)).
Proof.
  intros Hc Hr. apply takeAll_nonneg; simpl; assumption.
Qed.

(** X4 on the default bucket: the whole capacity is taken, then more is
    asked. *)
Lemma tokens_never_negative_witness :
  0 <= tokens (snd (takeAll (createBucket 0 32768 16384)
                            [(0%Z, 32768); (0%Z, 5); ((-3)%Z, 1)])).
Proof.
  apply (tokens_never_negative 0 32768 16384); discriminate.
Defined.

(** X5: a burst cannot pass the capacity. While the clock does not pass
    the reading at which a bucket was created, whatever whole amounts are
    asked of it, the amounts it admits and the tokens it has left add up
    to its capacity exactly, so it admits at most its capacity; and its
    last reading does not move. *)
Theorem burst_admits_at_most_capacity
        (now0 : Z) (cap rate : Q) (calls : list (Z * Z)) :
  representable cap -> 0 <= cap -> cap <= 2 ^ 53 -> 0 <= rate ->
  Forall (fun c => (fst c <= now0)%Z /\ (0 <= snd c)%Z) calls ->
  let calls' := map (fun c => (fst c, inject_Z (snd c))) calls in
  let final := snd (takeAll (createBucket now0 cap rate) calls') in
  admitted (createBucket now0 cap rate) calls' + tokens final == cap
  /\ admitted (createBucket now0 cap rate) calls' <= cap
  /\ last final = now0.
Proof.
  intros Hrep Hc Hmax Hr Hall calls' final.
  destruct (takeAll_standing calls (createBucket now0 cap rate) Hrep Hmax Hall)
    as [H1 H2].
  fold calls' in H1, H2. fold final in H1, H2. cbn [createBucket tokens last] in H1, H2.
  assert (H3 : 0 <= tokens final)
    by (apply takeAll_nonneg; simpl; assumption).
  split; [exact H1 |]. split; [lra | exact H2].
Qed.

(** X5 on the default bucket: 30000 bytes pass, 20000 more at the same
    instant do not, 2768 then do. *)
Lemma burst_admits_at_most_capacity_witness :
  let calls' := map (fun c : Z * Z => (fst c, inject_Z (snd c)))
                    [(0, 30000); (0, 20000); (0, 2768)]%Z in
  admitted (createBucket 0 32768 16384) calls' <= 32768.
Proof.
  intros calls'.
  destruct (burst_admits_at_most_capacity
              0 32768 16384 [(0, 30000); (0, 20000); (0, 2768)]%Z)
    as (_ & H & _).
  - apply (representable_Z 32768). reflexivity.
  - discriminate.
  - vm_compute. discriminate.
  - discriminate.
  - repeat constructor; simpl; lia.
  - exact H.
Defined.
End BucketAccount.

(** ** Session names and numbers *)

Lemma stripPrefix_app (p : string) :
  forall s r, stripPrefix p s = Some r -> s = (p ++ r)%string.
Proof.
  induction p as [| a p IH]; intros s r H; simpl in *.
  - injection H as ->. reflexivity.
  - destruct s as [| b s]; [discriminate |].
    destruct (Ascii.eqb a b) eqn:E; [| discriminate].
    apply Ascii.eqb_eq in E. subst b. f_equal. apply IH, H.
Qed.

Lemma sessionName_inj (n m : nat) : sessionName n = sessionName m -> n = m.
Proof.
  intros H. apply (f_equal sessionNumberOf) in H.
  rewrite !sessionNumberOf_sessionName in H. injection H as ->. reflexivity.
Qed.

(** X6: for numbers below 2^53, which are the ones [parseInt] reads
    exactly, the pattern of the allocator reads back from a name the
    server made the number it was made from, so distinct numbers give
    distinct names; a name it reads as such a number is "Session "
    followed by a nonempty run of decimal digits whose value is the
    number; and it accepts zero-padded numbers, reading "Session 0N" as
    N. *)
Theorem session_name_round_trip :
  (forall n, (Z.of_nat n < 2 ^ 53)%Z -> sessionNumberOf (sessionName n) = Some n)
  /\ (forall n m,
         (Z.of_nat n < 2 ^ 53)%Z -> (Z.of_nat m < 2 ^ 53)%Z ->
         sessionName n = sessionName m -> n = m)
  /\ (forall name n,
         sessionNumberOf name = Some n ->
         (Z.of_nat n < 2 ^ 53)%Z ->
         exists d, d <> Nil
                   /\ name = ("Session " ++ NilEmpty.string_of_uint d)%string
                   /\ Nat.of_uint d = n)
  /\ (forall n,
         (Z.of_nat n < 2 ^ 53)%Z ->
         sessionNumberOf ("Session 0" ++ NilZero.string_of_uint (Nat.to_uint n))
         = Some n).
Proof.
  split; [intros n _; apply sessionNumberOf_sessionName |].
  split; [intros n m _ _; apply sessionName_inj |].
  split.
  - intros name n H _. unfold sessionNumberOf in H.
    destruct (stripPrefix "Session " name) as [digits |] eqn:Ep; [| discriminate].
    apply stripPrefix_app in Ep.
    destruct (NilZero.uint_of_string digits) as [d |] eqn:Ed; [| discriminate].
    simpl in H. injection H as Hn.
    assert (Hd : d <> Nil)
      by (intros ->; exact (NilZero.uint_of_string_nonnil digits Ed)).
    exists d. split; [exact Hd |]. split; [| exact Hn].
    rewrite Ep. f_equal. apply NilZero.sus in Ed. rewrite <- Ed.
    destruct d; [contradiction | reflexivity ..].
  - intros n _. unfold sessionNumberOf.
    change (stripPrefix "Session " ("Session 0" ++ NilZero.string_of_uint (Nat.to_uint n)))
      with (Some (String "0" (NilZero.string_of_uint (Nat.to_uint n)))).
    pose proof (to_uint_nonnil n) as Hnil.
    assert (Hs : NilZero.string_of_uint (Nat.to_uint n)
                 = NilEmpty.string_of_uint (Nat.to_uint n))
      by (destruct (Nat.to_uint n); [contradiction | reflexivity ..]).
    rewrite Hs. unfold NilZero.uint_of_string. cbn [NilEmpty.uint_of_string].
    rewrite NilEmpty.usu. simpl.
    f_equal. rewrite <- (DecimalNat.Unsigned.of_to n) at 2. reflexivity.
Qed.

(** X7: when the numbers in use in a reachable state are exactly 1..k (none
    when k = 0), the next number is k+1. *)
Theorem next_number_after_dense_prefix (s : Server) (k : nat) :
  reachable s ->
  (forall m, In m (liveNumbers s) <-> (1 <= m <= k)%nat) ->
  getNextSessionNumber s = S k.
Proof.
  intros Hreach Hdense.
  pose proof (reachable_wellFormed s Hreach) as Hwf.
  destruct (getNextSessionNumber_least s) as (H1 & H2 & H3).
  - rewrite liveNumbers_numbers. apply wf_nodup, Hwf.
  - rewrite liveNumbers_numbers. apply wf_pos, Hwf.
  - destruct (Nat.lt_trichotomy (getNextSessionNumber s) (S k)) as [Hlt | [Heq | Hgt]].
    + exfalso. apply H2. apply Hdense. lia.
    + exact Heq.
    + exfalso. assert (Hin : In (S k) (liveNumbers s)) by (apply H3; lia).
      apply Hdense in Hin. lia.
Qed.

(** X7 after "Session 1" and "Session 2" were created (k = 2): the scan
    passes both and the next number is 3. *)
Lemma next_number_after_dense_prefix_witness :
  getNextSessionNumber
    (run emptyServer [Connection "c" 0;
                      CreateSession "c" true (spawnOk "a");
                      CreateSession "c" true (spawnOk "b")])
  = 3%nat.
Proof.
  apply (next_number_after_dense_prefix _ 2 (reachable_run _)).
  intros m.
  assert (E : liveNumbers (run emptyServer [Connection "c" 0;
                                            CreateSession "c" true (spawnOk "a");
                                            CreateSession "c" true (spawnOk "b")])
              = [1; 2]%nat) by reflexivity.
  rewrite E. simpl. lia.
Defined.

(** ** The registry: distinct ids and names, listing, creation, exit *)

Lemma in_keys_set {V} (k x : string) (v : V) (m : list (string * V)) :
  In x (map fst (JsMap.set k v m)) -> x = k \/ In x (map fst m).
Proof.
  induction m as [| [k0 v0] rest IH]; simpl.
  - intros [H | []]; auto.
  - destruct (String.eqb k k0) eqn:E; simpl.
    + apply String.eqb_eq in E. subst k0. tauto.
    + intros [H | H]; [auto | destruct (IH H); auto].
Qed.

Lemma NoDup_keys_set {V} (k : string) (v : V) (m : list (string * V)) :
  NoDup (map fst m) -> NoDup (map fst (JsMap.set k v m)).
Proof.
  induction m as [| [k0 v0] rest IH]; simpl; intros Hnd.
  - constructor; [intros [] | constructor].
  - apply NoDup_cons_iff in Hnd. destruct Hnd as [Hk0 Hnd].
    destruct (String.eqb k k0) eqn:E; simpl.
    + apply String.eqb_eq in E. subst k0. constructor; assumption.
    + apply String.eqb_neq in E. constructor; [| exact (IH Hnd)].
      intros Hin. apply in_keys_set in Hin. destruct Hin; [congruence | contradiction].
Qed.

Lemma in_values_set {V} (k : string) (v x : V) (m : list (string * V)) :
  In x (map snd (JsMap.set k v m)) -> x = v \/ In x (map snd m).
Proof.
  induction m as [| [k0 v0] rest IH]; simpl.
  - intros [H | []]; auto.
  - destruct (String.eqb k k0); simpl.
    + intros [H | H]; auto.
    + intros [H | H]; [auto | destruct (IH H); auto].
Qed.

Lemma NoDup_values_set {V} (k : string) (v : V) (m : list (string * V)) :
  NoDup (map snd m) -> ~ In v (map snd m) -> NoDup (map snd (JsMap.set k v m)).
Proof.
  induction m as [| [k0 v0] rest IH]; simpl; intros Hnd Hv.
  - constructor; [intros [] | constructor].
  - apply NoDup_cons_iff in Hnd. destruct Hnd as [Hv0 Hnd].
    destruct (String.eqb k k0); simpl.
    + constructor; [tauto | exact Hnd].
    + constructor; [| apply IH; tauto].
      intros Hin. apply in_values_set in Hin. destruct Hin as [-> | Hin]; tauto.
Qed.

Lemma NoDup_kept_entries {K V W : Type} (keep : K * V -> bool) (proj : K * V -> W) :
  forall m : list (K * V),
    NoDup (map proj m) -> NoDup (map proj (filter keep m)).
Proof.
  intros m. induction m as [| entry rest IH]; intros Hnd; [exact Hnd |].
  change (map proj (entry :: rest)) with (proj entry :: map proj rest) in Hnd.
  inversion Hnd as [| ? ? Hfresh Hrest]; subst.
  cbn [filter]. destruct (keep entry); [| exact (IH Hrest)].
  change (NoDup (proj entry :: map proj (filter keep rest))).
  constructor; [| exact (IH Hrest)].
  intros Hin. apply Hfresh.
  apply in_map_iff in Hin. destruct Hin as (x & Hx & Hin).
  apply filter_In in Hin. apply in_map_iff. exists x. tauto.
Qed.

Lemma registryOK_step (s : Server) (e : Event) :
  wellFormed s -> registryOK s -> registryOK (snd (step s e)).
Proof.
  intros Hwf [Hk Hr Hn].
  assert (Hupd : forall i (f : Session -> Session) h,
             (forall x, name (f x) = name x) ->
             h = updateAt i f (heap s) ->
             forall se, In se h -> exists n, name se = sessionName n).
  { intros i f h Hf -> se Hin. apply In_nth_error in Hin. destruct Hin as [j Hj].
    rewrite nth_error_updateAt in Hj.
    destruct (i =? j)%nat.
    - destruct (nth_error (heap s) j) as [y |] eqn:Hy; [| discriminate].
      simpl in Hj. injection Hj as <-. rewrite Hf. eapply Hn, nth_error_In, Hy.
    - eapply Hn, nth_error_In, Hj. }
  destruct (step_registry s e Hwf) as
      [Hh Hm | i c Hh Hm | i d x h He Hx Ha Hh Hm | env He Hh Hm | r x He Hx Hh Hm];
    constructor; rewrite ?Hm; try assumption.
  - rewrite Hh. exact Hn.
  - eapply Hupd; [| exact Hh]. reflexivity.
  - eapply Hupd; [| exact Hh]. reflexivity.
  - apply NoDup_keys_set, Hk.
  - apply NoDup_values_set; [exact Hr |].
    intros Hin. apply in_map_iff in Hin. destruct Hin as ([k0 r0] & Hr0 & Hin).
    simpl in Hr0. subst r0.
    destruct (wf_refs s Hwf k0 _ Hin) as (se & Hse & _).
    assert (Hsome : nth_error (heap s) (List.length (heap s)) <> None) by congruence.
    apply nth_error_Some in Hsome. lia.
  - rewrite Hh. intros se Hin. apply in_app_or in Hin.
    destruct Hin as [Hin | [<- | []]]; [exact (Hn se Hin) |].
    exists (getNextSessionNumber s). reflexivity.
  - apply NoDup_kept_entries, Hk.
  - apply NoDup_kept_entries, Hr.
  - rewrite Hh. exact Hn.
Qed.

Lemma reachable_registryOK (s : Server) : reachable s -> registryOK s.
Proof.
  intros [es ->].
  assert (H : forall es s0, wellFormed s0 -> registryOK s0 -> registryOK (run s0 es)).
  { clear es. induction es as [| e rest IH]; intros s0 Hwf Hok; [exact Hok |].
    simpl. apply IH; [apply wellFormed_step, Hwf | apply registryOK_step; assumption]. }
  apply H; [apply wellFormed_emptyServer |].
  constructor; simpl; [constructor | constructor | intros se []].
Qed.

(** The listing of a map whose entries refer to objects that carry their
    key and a name the server made. *)
Lemma listing_of_entries (h : list Session) (m : list (string * nat)) :
  (forall k ref, In (k, ref) m ->
                 exists se, nth_error h ref = Some se /\ id se = k
                            /\ exists n, name se = sessionName n) ->
  let listing :=
    flat_map (fun ref => match nth_error h ref with
                         | Some x => [(id x, name x)]
                         | None => []
                         end) (JsMap.values m) in
  map fst listing = map fst m
  /\ map snd listing = map sessionName (numbers h m).
Proof.
  induction m as [| [k ref] rest IH]; intros H; simpl; [auto |].
  destruct (H k ref (or_introl eq_refl)) as (se & Hse & Hid & n & Hname).
  destruct IH as [IH1 IH2]; [intros k' r' Hin; apply H; right; exact Hin |].
  unfold JsMap.values in *. unfold numAt at 1. rewrite Hse. simpl.
  rewrite Hname at 2. rewrite sessionNumberOf_sessionName. simpl.
  rewrite IH1, IH2, Hid, Hname. auto.
Qed.

Lemma NoDup_map_sessionName (l : list nat) : NoDup l -> NoDup (map sessionName l).
Proof.
  induction 1 as [| n rest Hn Hnd IH]; simpl; constructor; [| exact IH].
  intros Hin. apply in_map_iff in Hin. destruct Hin as (m & Hm & Hin).
  apply sessionName_inj in Hm. subst m. contradiction.
Qed.

Lemma reachable_entries (s : Server) :
  reachable s ->
  forall k ref, In (k, ref) (sessions s) ->
    exists se, nth_error (heap s) ref = Some se /\ id se = k
               /\ exists n, name se = sessionName n.
Proof.
  intros Hreach k ref Hin.
  destruct (wf_refs s (reachable_wellFormed s Hreach) k ref Hin) as (se & Hse & Hid).
  exists se. split; [exact Hse |]. split; [exact Hid |].
  apply (rk_names s (reachable_registryOK s Hreach)). eapply nth_error_In, Hse.
Qed.

(** X8: in every state the server reaches, the list of sessions sent to a
    new connection has exactly the keys of the map, in its order, as ids;
    these ids are pairwise distinct, and so are the names. *)
Theorem listing_ids_and_names_distinct (s : Server) :
  reachable s ->
  map fst (listSessions s) = map fst (sessions s)
  /\ NoDup (map fst (listSessions s))
  /\ NoDup (map snd (listSessions s)).
Proof.
  intros Hreach.
  destruct (listing_of_entries (heap s) (sessions s) (reachable_entries s Hreach))
    as [H1 H2].
  rewrite listSessions_flat. split; [exact H1 |]. split.
  - rewrite H1. apply rk_keys, reachable_registryOK, Hreach.
  - rewrite H2. apply NoDup_map_sessionName, wf_nodup, reachable_wellFormed, Hreach.
Qed.

(** X8 after sessions 1, 2, 3 were created and 2 is gone. *)
Lemma listing_ids_and_names_distinct_witness :
  map fst (listSessions threeMinusOne) = map fst (sessions threeMinusOne)
  /\ NoDup (map fst (listSessions threeMinusOne))
  /\ NoDup (map snd (listSessions threeMinusOne)).
Proof.
  apply (listing_ids_and_names_distinct threeMinusOne (reachable_run _)).
Defined.

(** ** Creation and exit, as the connections see them *)

Lemma set_absent {V} (k : string) (v : V) (m : list (string * V)) :
  JsMap.get k m = None -> JsMap.set k v m = m ++ [(k, v)].
Proof.
  induction m as [| [k0 v0] rest IH]; simpl; [reflexivity |].
  destruct (String.eqb k k0); [discriminate |].
  intros H. rewrite (IH H). reflexivity.
Qed.

Lemma flat_map_ext_in {A B} (f g : A -> list B) (l : list A) :
  (forall a, In a l -> f a = g a) -> flat_map f l = flat_map g l.
Proof.
  induction l as [| a rest IH]; simpl; intros H; [reflexivity |].
  rewrite (H a) by (left; reflexivity).
  rewrite IH by (intros x Hx; apply H; right; exact Hx). reflexivity.
Qed.

Lemma roomsOf_ioEmit (c : string) (e : ServerEvent) (s : Server) :
  roomsOf c (ioEmit e s) = roomsOf c s.
Proof.
  unfold roomsOf. rewrite get_ioEmit.
  destruct (JsMap.get c (sockets s)); reflexivity.
Qed.

Lemma connected_ioEmit (c : string) (e : ServerEvent) (s : Server) :
  connected c (ioEmit e s) = connected c s.
Proof.
  unfold connected. rewrite get_ioEmit.
  destruct (JsMap.get c (sockets s)); reflexivity.
Qed.

(** The server after a create-session whose spawn works. *)
Lemma step_createSession (s : Server) (c : string) (hasCallback : bool) (env : SpawnEnv) :
  connected c s = true ->
  spawned env = true ->
  let nm := sessionName (getNextSessionNumber s) in
  let s1 := ioEmit (SessionCreated (uuid env) nm)
                   (setSessions (JsMap.set (uuid env) (List.length (heap s)) (sessions s))
                                (setHeap (heap s ++ [freshSession env s]) s)) in
  snd (step s (CreateSession c hasCallback env))
  = if hasCallback then socketEmit c (Ack (uuid env) nm) s1 else s1.
Proof.
  intros Hc Hsp nm s1. unfold step, guarded. rewrite Hc.
  unfold onCreateSession, createSession. rewrite Hsp. simpl.
  destruct hasCallback; [| reflexivity].
  rewrite nth_error_app2 by lia. rewrite Nat.sub_diag. reflexivity.
Qed.

(** X9: in a reachable state, a create-session whose spawn works under an
    id that is not in use lists the new session last, under the next free
    name, and leaves the listing of the others as it was; the requester is
    sent session-created and then, if it passed a callback, the
    acknowledgement with the same id and name; every other connection is
    sent session-created; and nobody's rooms change. *)
Theorem create_session_listed_last_and_announced
        (s : Server) (c : string) (hasCallback : bool) (env : SpawnEnv) :
  reachable s ->
  connected c s = true ->
  spawned env = true ->
  JsMap.get (uuid env) (sessions s) = None ->
  let nm := sessionName (getNextSessionNumber s) in
  let s' := snd (step s (CreateSession c hasCallback env)) in
  listSessions s' = listSessions s ++ [(uuid env, nm)]
  /\ inboxOf c s'
     = inboxOf c s ++ SessionCreated (uuid env) nm
                     :: (if hasCallback then [Ack (uuid env) nm] else [])
  /\ (forall c', c' <> c -> connected c' s = true ->
                 inboxOf c' s' = inboxOf c' s ++ [SessionCreated (uuid env) nm])
  /\ (forall c', roomsOf c' s' = roomsOf c' s).
Proof.
  intros Hreach Hc Hsp Hfree nm s'.
  pose proof (reachable_wellFormed s Hreach) as Hwf.
  pose proof (step_createSession s c hasCallback env Hc Hsp) as Hs'.
  cbv zeta in Hs'. fold nm in Hs'. fold s' in Hs'.
  set (s1 := ioEmit (SessionCreated (uuid env) nm)
                    (setSessions (JsMap.set (uuid env) (List.length (heap s)) (sessions s))
                                 (setHeap (heap s ++ [freshSession env s]) s))) in *.
  assert (Hlist : listSessions s1 = listSessions s ++ [(uuid env, nm)]).
  { rewrite !listSessions_flat. unfold s1. simpl.
    rewrite (set_absent _ _ _ Hfree). unfold JsMap.values.
    rewrite map_app, flat_map_app. simpl.
    rewrite nth_error_app2 by lia. rewrite Nat.sub_diag. simpl. f_equal.
    apply flat_map_ext_in. intros ref Hin.
    apply in_map_iff in Hin. destruct Hin as ([k r] & Hr & Hin). simpl in Hr. subst r.
    destruct (wf_refs s Hwf k ref Hin) as (se & Hse & _).
    rewrite nth_error_app1 by (apply nth_error_Some; congruence). reflexivity. }
  assert (Hin1 : forall c', connected c' s = true ->
                            inboxOf c' s1 = inboxOf c' s ++ [SessionCreated (uuid env) nm]).
  { intros c' Hc'. unfold s1. rewrite inboxOf_ioEmit.
    change (connected c' (setSessions _ _)) with (connected c' s). rewrite Hc'.
    reflexivity. }
  assert (Hrooms1 : forall c', roomsOf c' s1 = roomsOf c' s)
    by (intros c'; unfold s1; rewrite roomsOf_ioEmit; reflexivity).
  assert (Hc1 : connected c s1 = true).
  { unfold s1. rewrite connected_ioEmit. exact Hc. }
  rewrite Hs'. destruct hasCallback.
  - split; [exact Hlist |]. split.
    + rewrite inboxOf_socketEmit, String.eqb_refl, Hc1. simpl.
      rewrite (Hin1 c Hc), <- app_assoc. reflexivity.
    + split.
      * intros c' Hne Hc'. rewrite inboxOf_socketEmit.
        replace (String.eqb c c') with false
          by (symmetry; apply String.eqb_neq; congruence).
        simpl. exact (Hin1 c' Hc').
      * intros c'. rewrite roomsOf_socketEmit. apply Hrooms1.
  - split; [exact Hlist |]. split; [exact (Hin1 c Hc) |].
    split; [intros c' _ Hc'; exact (Hin1 c' Hc') | exact Hrooms1].
Qed.

(** X9 on the server with one session: "c" creates "b" with a callback. *)
Lemma create_session_listed_last_and_announced_witness :
  let s' := snd (step oneSession (CreateSession "c" true (spawnOk "b"))) in
  listSessions s'
  = listSessions oneSession ++ [("b", sessionName (getNextSessionNumber oneSession))]%string.
Proof.
  apply (create_session_listed_last_and_announced
           oneSession "c" true (spawnOk "b") (reachable_run _));
    reflexivity.
Defined.

Lemma listing_filter (h : list Session) (sid : string) (m : list (string * nat)) :
  (forall k ref, In (k, ref) m ->
                 exists se, nth_error h ref = Some se /\ id se = k) ->
  flat_map (fun ref => match nth_error h ref with
                       | Some x => [(id x, name x)]
                       | None => []
                       end) (JsMap.values (JsMap.delete sid m))
  = filter (fun p => negb (String.eqb sid (fst p)))
           (flat_map (fun ref => match nth_error h ref with
                                 | Some x => [(id x, name x)]
                                 | None => []
                                 end) (JsMap.values m)).
Proof.
  unfold JsMap.values, JsMap.delete.
  induction m as [| [k ref] rest IH]; intros H; [reflexivity |].
  destruct (H k ref (or_introl eq_refl)) as (se & Hse & Hid).
  assert (IH' := IH (fun k' r' Hin => H k' r' (or_intror Hin))).
  change (map snd ((k, ref) :: rest)) with (ref :: map snd rest).
  change (filter (fun kv : string * nat => negb (String.eqb sid (fst kv)))
                 ((k, ref) :: rest))
    with (if negb (String.eqb sid k)
          then (k, ref) :: filter (fun kv => negb (String.eqb sid (fst kv))) rest
          else filter (fun kv => negb (String.eqb sid (fst kv))) rest).
  cbn [flat_map]. rewrite Hse, filter_app, <- IH', Hid.
  cbn [filter fst].
  destruct (negb (String.eqb sid k)); cbn [map flat_map snd]; rewrite ?Hse, ?Hid;
    reflexivity.
Qed.

(** X10: in a reachable state, the exit of the pseudo-terminal of a session
    object takes out of the listing exactly the entry with the id of that
    object, the others staying in their order; it changes no session
    object; and every connection is sent session-closed with the id and
    name of that object. *)
Theorem exit_removes_only_that_session (s : Server) (ref : nat) (se : Session) :
  reachable s ->
  nth_error (heap s) ref = Some se ->
  let s' := snd (step s (PtyExit ref)) in
  listSessions s'
  = filter (fun p => negb (String.eqb (id se) (fst p))) (listSessions s)
  /\ heap s' = heap s
  /\ (forall c, connected c s = true ->
                inboxOf c s' = inboxOf c s ++ [SessionClosed (id se) (name se)])
  /\ (forall c, roomsOf c s' = roomsOf c s).
Proof.
  intros Hreach Hse s'.
  pose proof (reachable_wellFormed s Hreach) as Hwf.
  assert (Hs' : s' = ioEmit (SessionClosed (id se) (name se))
                            (setSessions (JsMap.delete (id se) (sessions s)) s)).
  { unfold s', step, onPtyExit. rewrite Hse. reflexivity. }
  rewrite Hs'. split.
  - rewrite !listSessions_flat. simpl. apply listing_filter. apply wf_refs, Hwf.
  - split; [reflexivity |]. split.
    + intros c Hc. rewrite inboxOf_ioEmit.
      change (connected c (setSessions _ s)) with (connected c s). rewrite Hc.
      reflexivity.
    + intros c. rewrite roomsOf_ioEmit. reflexivity.
Qed.

(** X10 after sessions "a", "b", "d" were created by "c": the exit of "b". *)
Lemma exit_removes_only_that_session_witness :
  let s := run emptyServer [Connection "c" 0;
                            CreateSession "c" true (spawnOk "a");
                            CreateSession "c" true (spawnOk "b");
                            CreateSession "c" true (spawnOk "d")] in
  listSessions (snd (step s (PtyExit 1)))
  = filter (fun p => negb (String.eqb "b" (fst p))) (listSessions s).
Proof.
  intros s.
  apply (exit_removes_only_that_session
           s 1 {| id := "b"; name := "Session 2"; pty := [];
                  history := newRingBuffer (fun _ => x00) HISTORY_LIMIT |}
           (reachable_run _)).
  reflexivity.
Defined.

(** ** shutdown *)

Lemma fold_kill (refs : list nat) :
  forall s,
    let s' := fold_left (fun s ref => ptyCall ref PtyKill s) refs s in
    sessions s' = sessions s
    /\ sockets s' = sockets s
    /\ (NoDup refs ->
        forall r, nth_error (heap s') r
                  = if existsb (Nat.eqb r) refs
                    then option_map (called PtyKill) (nth_error (heap s) r)
                    else nth_error (heap s) r).
Proof.
  induction refs as [| a rest IH]; intros s; simpl.
  - auto.
  - destruct (IH (ptyCall a PtyKill s)) as (H1 & H2 & H3).
    split; [exact H1 |]. split; [exact H2 |].
    intros Hnd r. apply NoDup_cons_iff in Hnd. destruct Hnd as [Ha Hnd].
    rewrite (H3 Hnd r). unfold ptyCall at 1 2. simpl.
    rewrite nth_error_updateAt. fold (called PtyKill).
    destruct (Nat.eqb_spec r a) as [-> | Hne].
    + rewrite Nat.eqb_refl. simpl.
      replace (existsb (Nat.eqb a) rest) with false; [reflexivity |].
      symmetry. destruct (existsb (Nat.eqb a) rest) eqn:E; [| reflexivity].
      apply existsb_exists in E. destruct E as (x & Hx & Heq).
      apply Nat.eqb_eq in Heq. subst x. contradiction.
    + replace (a =? r)%nat with false by (symmetry; apply Nat.eqb_neq; congruence).
      simpl. reflexivity.
Qed.

(** X11: in a reachable state, shutdown completes normally whatever the
    kills do; it asks every session of the map, once, to terminate, and
    touches no other session object; it removes nothing from the map, so
    the listing is unchanged, and it sends nothing to the connections. *)
Theorem shutdown_kills_every_live_session (s : Server) :
  reachable s ->
  let s' := snd (shutdown s) in
  fst (shutdown s) = Normal
  /\ sessions s' = sessions s
  /\ sockets s' = sockets s
  /\ listSessions s' = listSessions s
  /\ (forall k ref se, getSession k s = Some (ref, se) ->
                       ptyCallsOf k s' = pty se ++ [PtyKill])
  /\ (forall r, ~ In r (map snd (sessions s)) ->
                nth_error (heap s') r = nth_error (heap s) r).
Proof.
  intros Hreach s'. subst s'. unfold shutdown. cbn [fst snd].
  destruct (fold_kill (JsMap.values (sessions s)) s) as (H1 & H2 & H3).
  cbv zeta in H1, H2, H3.
  set (s' := fold_left (fun s0 ref => ptyCall ref PtyKill s0)
                       (JsMap.values (sessions s)) s) in *.
  specialize (H3 (rk_refs s (reachable_registryOK s Hreach))).
  split; [reflexivity |]. split; [exact H1 |]. split; [exact H2 |].
  split.
  - rewrite !listSessions_flat, H1. apply flat_map_ext. intros ref. rewrite H3.
    destruct (existsb (Nat.eqb ref) (JsMap.values (sessions s))); [| reflexivity].
    destruct (nth_error (heap s) ref); reflexivity.
  - split.
    + intros k ref se Hget. destruct (getSession_heap k ref se s Hget) as [Hk Hse].
      unfold ptyCallsOf, getSession. rewrite H1, Hk, H3, Hse.
      replace (existsb (Nat.eqb ref) (JsMap.values (sessions s))) with true;
        [reflexivity |].
      symmetry. apply existsb_exists. exists ref. split; [| apply Nat.eqb_refl].
      unfold JsMap.values. apply in_map_iff. exists (k, ref).
      split; [reflexivity | apply get_In, Hk].
    + intros r Hr. rewrite H3.
      destruct (existsb (Nat.eqb r) (JsMap.values (sessions s))) eqn:E; [| reflexivity].
      exfalso. apply existsb_exists in E. destruct E as (x & Hx & Heq).
      apply Nat.eqb_eq in Heq. subst x. exact (Hr Hx).
Qed.

(** X11 after sessions 1, 2, 3 were created and 2 is gone: "a" and "d" are
    asked to terminate. *)
Lemma shutdown_kills_every_live_session_witness :
  ptyCallsOf "d" (snd (shutdown threeMinusOne))
  = pty {| id := "d"; name := "Session 3"; pty := [];
           history := newRingBuffer (fun _ => x00) HISTORY_LIMIT |} ++ [PtyKill].
Proof.
  destruct (shutdown_kills_every_live_session threeMinusOne (reachable_run _))
    as (_ & _ & _ & _ & H & _).
  apply (H "d"%string 2%nat). reflexivity.
Defined.

(** ** Connections: rooms, switching, connecting, output *)

Lemma Forall_map_values {V} (P : string -> V -> Prop) (g : string -> V -> V)
      (l : list (string * V)) :
  (forall k v, P k v -> P k (g k v)) ->
  Forall (fun kv => P (fst kv) (snd kv)) l ->
  Forall (fun kv => P (fst kv) (snd kv))
         (map (fun kv => (fst kv, g (fst kv) (snd kv))) l).
Proof.
  intros Hg H. induction H as [| [k v] rest Hkv Hrest IH]; simpl; constructor; auto.
  simpl in *. auto.
Qed.

Lemma Forall_set {V} (P : string -> V -> Prop) (k : string) (v : V)
      (l : list (string * V)) :
  P k v ->
  Forall (fun kv => P (fst kv) (snd kv)) l ->
  Forall (fun kv => P (fst kv) (snd kv)) (JsMap.set k v l).
Proof.
  intros Hv H. induction H as [| [k0 v0] rest Hkv Hrest IH]; simpl.
  - constructor; [exact Hv | constructor].
  - destruct (String.eqb k k0); constructor; auto.
Qed.

Lemma Forall_delete {V} (P : string -> V -> Prop) (k : string) (l : list (string * V)) :
  Forall (fun kv => P (fst kv) (snd kv)) l ->
  Forall (fun kv => P (fst kv) (snd kv)) (JsMap.delete k l).
Proof.
  intros H. apply Forall_forall. intros kv Hin. apply filter_In in Hin.
  rewrite Forall_forall in H. apply H. tauto.
Qed.

Lemma socketsOK_ioEmit (e : ServerEvent) (s : Server) :
  socketsOK s -> socketsOK (ioEmit e s).
Proof.
  apply (Forall_map_values socketOK (fun _ v => deliver e v)). intros k v H. exact H.
Qed.

Lemma socketsOK_ioToEmit (room : string) (e : ServerEvent) (s : Server) :
  socketsOK s -> socketsOK (ioToEmit room e s).
Proof.
  apply (Forall_map_values socketOK
           (fun _ v => if inRoom room v then deliver e v else v)).
  intros k v H. destruct (inRoom room v); exact H.
Qed.

Lemma socketsOK_withSocket (c : string) (f : Socket -> Socket) (s : Server) :
  (forall v, socketOK c v -> socketOK c (f v)) ->
  socketsOK s -> socketsOK (withSocket c f s).
Proof.
  intros Hf.
  apply (Forall_map_values socketOK (fun key v => if String.eqb c key then f v else v)).
  intros k v H. destruct (String.eqb c k) eqn:E; [| exact H].
  apply String.eqb_eq in E. subst k. apply Hf, H.
Qed.

Lemma withSocket_twice (c : string) (f g : Socket -> Socket) (s : Server) :
  withSocket c g (withSocket c f s) = withSocket c (fun v => g (f v)) s.
Proof.
  unfold withSocket, setSockets. simpl. f_equal. rewrite map_map.
  apply map_ext. intros [k v]. simpl. destruct (String.eqb c k); reflexivity.
Qed.

Lemma leaveRooms_own (c : string) (k : Socket) :
  roomsOK c k -> rooms (leaveRooms c k) = [c].
Proof.
  intros [H | (sid & Hne & H)]; simpl; rewrite H; simpl; rewrite String.eqb_refl.
  - reflexivity.
  - apply String.eqb_neq in Hne. rewrite Hne. reflexivity.
Qed.

Lemma join_after_leave (c sid : string) (k : Socket) :
  roomsOK c k ->
  rooms (join sid (leaveRooms c k)) = if String.eqb sid c then [c] else [c; sid].
Proof.
  intros H. pose proof (leaveRooms_own c k H) as Hl.
  unfold join, inRoom. rewrite Hl. cbn [existsb]. rewrite orb_false_r.
  destruct (String.eqb sid c); [exact Hl | reflexivity].
Qed.

Lemma bucket_join (room : string) (k : Socket) : bucket (join room k) = bucket k.
Proof. unfold join. destruct (inRoom room k); reflexivity. Qed.

Lemma socketOK_join_after_leave (c sid : string) (k : Socket) :
  socketOK c k -> socketOK c (join sid (leaveRooms c k)).
Proof.
  intros [H Hb]. split.
  - unfold roomsOK. rewrite (join_after_leave c sid k H).
    destruct (String.eqb sid c) eqn:E; [left; reflexivity |].
    right. exists sid. apply String.eqb_neq in E. auto.
  - unfold bucketOK. rewrite bucket_join. exact Hb.
Qed.

Lemma socketOK_leaveRooms (c : string) (k : Socket) :
  socketOK c k -> socketOK c (leaveRooms c k).
Proof.
  intros [H Hb]. split; [left; apply leaveRooms_own, H | exact Hb].
Qed.

Lemma socketsOK_step (s : Server) (e : Event) :
  socketsOK s -> socketsOK (snd (step s e)).
Proof.
  intros H. destruct e; unfold step, guarded;
    try (destruct (connected socketId s); [| exact H]).
  - destruct (sessions s); [| exact H]. simpl snd.
    unfold createSession. destruct (spawned env); [| exact H].
    apply (socketsOK_ioEmit (SessionCreated (uuid env)
                                            (sessionName (getNextSessionNumber s)))) in H.
    exact H.
  - unfold onConnection. simpl snd.
    apply (socketsOK_withSocket socketId (deliver _)); [intros v Hv; exact Hv |].
    apply (Forall_set socketOK); [| exact H].
    split; [left; reflexivity |]. split; [reflexivity | simpl; apply Qle_refl].
  - unfold onSwitchSession. rewrite getSession_withSocket.
    destruct (getSession sessionId s) as [[r se] |]; simpl snd.
    + rewrite withSocket_twice.
      assert (H2 : socketsOK (withSocket socketId
                                (fun v => join sessionId (leaveRooms socketId v)) s))
        by (apply socketsOK_withSocket;
            [intros v; apply socketOK_join_after_leave | exact H]).
      destruct (toString (history se)); simpl snd; [exact H2 |].
      apply (socketsOK_withSocket socketId (deliver _)); [intros v Hv; exact Hv | exact H2].
    + apply socketsOK_withSocket; [| exact H].
      intros v. apply socketOK_leaveRooms.
  - unfold onCreateSession, createSession. destruct (spawned env); [| exact H].
    apply (socketsOK_ioEmit (SessionCreated (uuid env)
                                            (sessionName (getNextSessionNumber s)))) in H.
    destruct hasCallback; simpl; [| exact H].
    rewrite nth_error_app2 by lia. rewrite Nat.sub_diag. simpl.
    apply (Forall_map_values socketOK
             (fun key v => if String.eqb socketId key
                           then deliver (Ack (uuid env)
                                             (sessionName (getNextSessionNumber s))) v
                           else v)); [| exact H].
    intros k v Hv. destruct (String.eqb socketId k); exact Hv.
  - unfold onCloseSession. destruct (getSession sessionId s) as [[r se] |]; exact H.
  - unfold onInput. destruct (getSession sessionId s) as [[r se] |]; [| exact H].
    destruct (JsMap.get socketId (sockets s)) as [k0 |] eqn:Hk0; [| exact H].
    assert (H2 : socketsOK
                   (withSocket socketId
                      (setBucket (snd (take (bucket k0) now (inject_Z (byteLength data)))))
                      s)).
    { apply (Forall_map_values socketOK
               (fun key v => if String.eqb socketId key
                             then setBucket (snd (take (bucket k0) now
                                                       (inject_Z (byteLength data)))) v
                             else v)); [| exact H].
      intros key v Hv. destruct (String.eqb socketId key); [| exact Hv].
      destruct Hv as [Hr Hb]. split; [exact Hr |].
      pose proof (get_In _ _ _ Hk0) as Hin0. unfold socketsOK in H.
      rewrite Forall_forall in H. destruct (H _ Hin0) as [_ [Hcap Htok]].
      unfold bucketOK. simpl. rewrite take_capacity. split; [exact Hcap |].
      simpl in Hcap, Htok.
      apply take_below; [unfold byteLength, Qle; simpl; lia | | exact Htok].
      rewrite Hcap. apply (representable_Z 32768). reflexivity. }
    destruct (take (bucket k0) now (inject_Z (byteLength data))) as [ok b].
    destruct ok; exact H2.
  - unfold onResize. destruct (getSession sessionId s) as [[r se] |]; [| exact H].
    destruct (_ || _); exact H.
  - apply (Forall_delete socketOK), H.
  - unfold onPtyData. destruct (nth_error (heap s) ref) as [y |]; [| exact H].
    destruct (append (history y) d) as [[|] h]; simpl snd; [| exact H].
    apply (socketsOK_ioToEmit (id y) (Output d)) in H. exact H.
  - unfold onPtyExit. destruct (nth_error (heap s) ref) as [y |]; [| exact H].
    apply (socketsOK_ioEmit (SessionClosed (id y) (name y))) in H. exact H.
  - unfold onStartupTimer. destruct (timers s); exact H.
Qed.

Lemma reachable_socketsOK (s : Server) : reachable s -> socketsOK s.
Proof.
  intros [es ->].
  assert (H : forall es s0, socketsOK s0 -> socketsOK (run s0 es)).
  { clear es. induction es as [| e rest IH]; intros s0 H0; [exact H0 |].
    simpl. apply IH, socketsOK_step, H0. }
  apply H. constructor.
Qed.

Lemma socketsOK_get (s : Server) (c : string) (k : Socket) :
  socketsOK s -> JsMap.get c (sockets s) = Some k -> socketOK c k.
Proof.
  intros H Hk. apply get_In in Hk. unfold socketsOK in H.
  rewrite Forall_forall in H. exact (H (c, k) Hk).
Qed.

(** X12: in every state the server reaches, a connected socket is in its
    own room and in at most one other room: it is subscribed to at most
    one session. *)
Theorem at_most_one_subscription (s : Server) (c : string) (k : Socket) :
  reachable s ->
  JsMap.get c (sockets s) = Some k ->
  rooms k = [c] \/ exists sid, sid <> c /\ rooms k = [c; sid].
Proof.
  intros Hreach Hk.
  exact (proj1 (socketsOK_get s c k (reachable_socketsOK s Hreach) Hk)).
Qed.

(** X12 on the server with one session. *)
Lemma at_most_one_subscription_witness :
  rooms socketC = ["c"%string]
  \/ exists sid, sid <> "c"%string /\ rooms socketC = ["c"%string; sid].
Proof.
  apply (at_most_one_subscription oneSession "c" socketC (reachable_run _)).
  reflexivity.
Defined.

Lemma onSwitchSession_live
      (s : Server) (c sid : string) (ref : nat) (se : Session) (k : Socket) :
  JsMap.get c (sockets s) = Some k ->
  roomsOK c k ->
  getSession sid s = Some (ref, se) ->
  let s' := snd (step s (SwitchSession c sid)) in
  roomsOf c s' = (if String.eqb sid c then [c] else [c; sid])
  /\ inboxOf c s'
     = inboxOf c s ++ match toString (history se) with
                      | [] => []
                      | h => [History h]
                      end
  /\ (forall c', c' <> c ->
                 JsMap.get c' (sockets s') = JsMap.get c' (sockets s))
  /\ heap s' = heap s
  /\ sessions s' = sessions s.
Proof.
  intros Hk Hok Hse s'.
  assert (Hc : connected c s = true) by (unfold connected; rewrite Hk; reflexivity).
  set (s2 := withSocket c (fun v => join sid (leaveRooms c v)) s).
  assert (Hs' : s' = match toString (history se) with
                     | [] => s2
                     | h => socketEmit c (History h) s2
                     end).
  { unfold s', step, guarded. rewrite Hc. unfold onSwitchSession.
    rewrite getSession_withSocket, Hse, withSocket_twice. fold s2.
    destruct (toString (history se)); reflexivity. }
  assert (Hk2 : JsMap.get c (sockets s2) = Some (join sid (leaveRooms c k))).
  { unfold s2. rewrite get_withSocket, Hk, String.eqb_refl. reflexivity. }
  assert (Hr2 : roomsOf c s2 = if String.eqb sid c then [c] else [c; sid]).
  { unfold roomsOf. rewrite Hk2. apply join_after_leave, Hok. }
  assert (Hi2 : inboxOf c s2 = inboxOf c s).
  { unfold inboxOf. rewrite Hk2, Hk, inbox_join_keeps. reflexivity. }
  assert (Ho2 : forall c', c' <> c ->
                           JsMap.get c' (sockets s2) = JsMap.get c' (sockets s)).
  { intros c' Hne. unfold s2. apply get_withSocket_other. congruence. }
  rewrite Hs'. destruct (toString (history se)) as [| b h].
  - rewrite app_nil_r. auto.
  - split; [rewrite roomsOf_socketEmit; exact Hr2 |].
    split.
    + rewrite inboxOf_socketEmit, String.eqb_refl. unfold connected. rewrite Hk2.
      simpl. rewrite Hi2. reflexivity.
    + split; [| split; reflexivity].
      intros c' Hne. unfold socketEmit. rewrite get_withSocket_other by congruence.
      apply Ho2, Hne.
Qed.

(** X13: in a reachable state, a connected socket that switches to a live
    session ends in its own room and that of the session only, whatever it
    was subscribed to before; it is sent the snapshot of the history as one
    history event when the snapshot is not empty and nothing at all when it
    is; no other socket and no session is touched. *)
Theorem switch_to_live_session
        (s : Server) (c sid : string) (ref : nat) (se : Session) :
  reachable s ->
  connected c s = true ->
  getSession sid s = Some (ref, se) ->
  let s' := snd (step s (SwitchSession c sid)) in
  roomsOf c s' = (if String.eqb sid c then [c] else [c; sid])
  /\ inboxOf c s'
     = inboxOf c s ++ match toString (history se) with
                      | [] => []
                      | h => [History h]
                      end
  /\ (forall c', c' <> c ->
                 JsMap.get c' (sockets s') = JsMap.get c' (sockets s))
  /\ heap s' = heap s
  /\ sessions s' = sessions s.
Proof.
  intros Hreach Hc Hse.
  destruct (connected_get c s Hc) as [k Hk].
  apply (onSwitchSession_live s c sid ref se k Hk); [| exact Hse].
  exact (proj1 (socketsOK_get s c k (reachable_socketsOK s Hreach) Hk)).
Qed.

(** X13 on the server with one session, whose history is empty: nothing is
    sent. *)
Lemma switch_to_live_session_witness :
  let s' := snd (step oneSession (SwitchSession "c" "a")) in
  roomsOf "c" s' = ["c"; "a"]%string
  /\ inboxOf "c" s'
     = inboxOf "c" oneSession ++ match toString (history sessionA) with
                                 | [] => []
                                 | h => [History h]
                                 end.
Proof.
  destruct (switch_to_live_session oneSession "c" "a" 0%nat sessionA
              (reachable_run _) eq_refl eq_refl) as (H1 & H2 & _).
  split; [exact H1 | exact H2].
Defined.

(** ** Input against the bucket of the connection *)

(** X14: in every state the server reaches, an input of more than 32768
    bytes is never written: whoever sends it, whenever, for whatever
    session, no session object changes, the map does not change and nobody
    is sent anything. *)
Theorem oversized_input_always_dropped
        (s : Server) (c sid data : string) (now : Z) (writeThrows : bool) :
  reachable s ->
  32768 < byteLength data ->
  let r := step s (Input c sid data now writeThrows) in
  fst r = Normal
  /\ heap (snd r) = heap s
  /\ sessions (snd r) = sessions s
  /\ forall c', inboxOf c' (snd r) = inboxOf c' s.
Proof.
  intros Hreach Hbig r. subst r. unfold step, guarded.
  destruct (connected c s); [| auto].
  unfold onInput.
  destruct (getSession sid s) as [[ref se] |]; [| auto].
  destruct (JsMap.get c (sockets s)) as [k |] eqn:Hk; [| auto].
  destruct (socketsOK_get s c k (reachable_socketsOK s Hreach) Hk) as [_ [Hcap Htok]].
  pose proof (refill_below (bucket k) now Htok) as Hfill. rewrite Hcap in Hfill.
  unfold take.
  assert (Hno : Qle_bool (inject_Z (byteLength data)) (tokens (refill (bucket k) now))
                = false).
  { destruct (Qle_bool (inject_Z (byteLength data)) (tokens (refill (bucket k) now)))
      eqn:E; [| reflexivity].
    apply Qle_bool_iff in E. exfalso.
    assert (H : (inject_Z (byteLength data) <= 32768)%Q)
      by (eapply Qle_trans; [exact E | exact Hfill]).
    unfold Qle in H. simpl in H. lia. }
  rewrite Hno. simpl.
  split; [reflexivity |]. split; [reflexivity |]. split; [reflexivity |].
  intros c'. apply inboxOf_withSocket. reflexivity.
Qed.

(** X14 on the server with one session: an input of 32784 bytes. *)
Lemma oversized_input_always_dropped_witness :
  let data := String.concat "" (repeat "aaaaaaaaaaaaaaaa"%string 2049) in
  heap (snd (step oneSession (Input "c" "a" data 5 false))) = heap oneSession.
Proof.
  intros data.
  apply (oversized_input_always_dropped oneSession "c" "a" data 5 false
                                        (reachable_run _)).
  vm_compute. reflexivity.
Defined.

(** X15: a socket that connects is sent the current listing and nothing
    else, is in no room but its own, and starts with a full bucket: its
    first input for a live session, if it has at most 32768 bytes, is
    written to that session whatever the clock reads by then. The other
    sockets and the sessions are as they were. *)
Theorem new_connection_listing_and_full_bucket
        (s : Server) (c : string) (now : Z) :
  let s1 := snd (step s (Connection c now)) in
  inboxOf c s1 = [SessionsList (listSessions s)]
  /\ roomsOf c s1 = [c]
  /\ (forall c', c' <> c -> JsMap.get c' (sockets s1) = JsMap.get c' (sockets s))
  /\ heap s1 = heap s
  /\ sessions s1 = sessions s
  /\ forall sid ref se data now' writeThrows,
      getSession sid s = Some (ref, se) ->
      byteLength data <= 32768 ->
      ptyCallsOf sid (snd (step s1 (Input c sid data now' writeThrows)))
      = pty se ++ [PtyWrite data].
Proof.
  intros s1.
  set (k0 := {| rooms := [c]; bucket := createBucket now 32768 16384; inbox := [] |}).
  set (k1 := deliver (SessionsList (listSessions s)) k0).
  assert (Hk1 : JsMap.get c (sockets s1) = Some k1).
  { unfold s1, step, onConnection. simpl snd. unfold socketEmit.
    rewrite get_withSocket, String.eqb_refl. simpl. rewrite get_set_same. reflexivity. }
  split; [unfold inboxOf; rewrite Hk1; reflexivity |].
  split; [unfold roomsOf; rewrite Hk1; reflexivity |].
  split.
  { intros c' Hne. unfold s1, step, onConnection. simpl snd. unfold socketEmit.
    rewrite get_withSocket_other by congruence. simpl.
    apply get_set_other. exact Hne. }
  split; [reflexivity |]. split; [reflexivity |].
  intros sid ref se data now' writeThrows Hse Hsmall.
  assert (Hse1 : getSession sid s1 = Some (ref, se)) by exact Hse.
  unfold step, guarded, connected. rewrite Hk1. unfold onInput. rewrite Hse1, Hk1.
  assert (Hyes : fst (take (bucket k1) now' (inject_Z (byteLength data))) = true).
  { unfold take.
    assert (Hle : (inject_Z (byteLength data) <= tokens (refill (bucket k1) now'))%Q).
    { assert (H1 : (inject_Z (byteLength data) <= 32768)%Q)
        by (unfold Qle; simpl; lia).
      change (bucket k1) with (createBucket now 32768 16384).
      destruct (refill_cases (createBucket now 32768 16384) now')
        as [[_ H] | [Hlt H]]; rewrite H; [exact H1 |].
      cbn [tokens createBucket capacity refillRate last].
      apply sub_Z_pos in Hlt. cbn [createBucket last] in Hlt.
      set (delta := Double.sub (inject_Z now') (inject_Z now)) in *.
      assert (Hd : (0 <= Double.div delta 1000)%Q).
      { apply round_nonneg. unfold Qdiv.
        apply Qmult_le_0_compat; [apply Qlt_le_weak, Hlt | discriminate]. }
      assert (Hm : (0 <= Double.mul (Double.div delta 1000) 16384)%Q).
      { apply round_nonneg, Qmult_le_0_compat; [exact Hd | discriminate]. }
      apply Q.min_glb; [exact H1 |].
      eapply Qle_trans; [exact H1 |].
      apply round_ge; [apply (representable_Z 32768); reflexivity | lra]. }
    apply Qle_bool_iff in Hle. rewrite Hle. reflexivity. }
  destruct (take (bucket k1) now' (inject_Z (byteLength data))) as [ok b].
  simpl in Hyes. subst ok. simpl.
  unfold ptyCallsOf.
  rewrite (getSession_ptyCall sid ref ref se (PtyWrite data)) by exact Hse1.
  rewrite Nat.eqb_refl. reflexivity.
Qed.

(** X15 on the server with one session: "v" connects and types "ls". *)
Lemma new_connection_listing_and_full_bucket_witness :
  let s1 := snd (step oneSession (Connection "v" 7)) in
  ptyCallsOf "a" (snd (step s1 (Input "v" "a" "ls" 9 false)))
  = pty sessionA ++ [PtyWrite "ls"].
Proof.
  destruct (new_connection_listing_and_full_bucket oneSession "v" 7)
    as (_ & _ & _ & _ & _ & H).
  apply (H "a"%string 0%nat sessionA "ls"%string 9 false); [reflexivity |].
  vm_compute. discriminate.
Defined.

(** ** Output, scrollback, and what follows an exit *)

(** X16: in a reachable state, a chunk of output of a session object is
    appended to its history without throwing, whether or not anybody is
    subscribed, and is sent as one output event to exactly the sockets
    that are in the room named by the id of that object; no other session
    object, no room and no entry of the map changes. *)
Theorem output_reaches_exactly_the_room
        (s : Server) (ref : nat) (d : list byte) (se : Session) :
  reachable s ->
  nth_error (heap s) ref = Some se ->
  let s' := snd (step s (PtyData ref d)) in
  exists h,
    append (history se) d = (Normal, h)
    /\ nth_error (heap s') ref
       = Some {| id := id se; name := name se; pty := pty se; history := h |}
    /\ (forall r, r <> ref -> nth_error (heap s') r = nth_error (heap s) r)
    /\ sessions s' = sessions s
    /\ forall c k, JsMap.get c (sockets s) = Some k ->
                   inboxOf c s' = inbox k ++ (if inRoom (id se) k then [Output d] else [])
                   /\ roomsOf c s' = rooms k.
Proof.
  intros Hreach Hse s'.
  pose proof (reachable_wellFormed s Hreach) as Hwf.
  destruct (wf_hist s Hwf se (nth_error_In _ _ Hse)) as [stream Hst].
  destruct (append_holdsTail (history se) stream d Hst) as (h & Ha & _ & _).
  exists h. split; [exact Ha |].
  assert (Hs' : s' = ioToEmit (id se) (Output d) (setHistory ref h s)).
  { unfold s'. rewrite (onPtyData_appended s ref d se h Hse Ha). reflexivity. }
  rewrite Hs'. split.
  { simpl. rewrite nth_error_updateAt, Nat.eqb_refl, Hse. reflexivity. }
  split.
  { intros r Hne. simpl. rewrite nth_error_updateAt.
    destruct (Nat.eqb_spec ref r); [congruence | reflexivity]. }
  split; [reflexivity |].
  intros c k Hk. unfold inboxOf, roomsOf. rewrite get_ioToEmit.
  change (sockets (setHistory ref h s)) with (sockets s). rewrite Hk. simpl.
  destruct (inRoom (id se) k); simpl; rewrite ?app_nil_r; auto.
Qed.

(** X16 on the server with one session: "c" is subscribed to "a". *)
Lemma output_reaches_exactly_the_room_witness :
  let s' := snd (step oneSession (PtyData 0 [x41])) in
  exists h,
    append (history sessionA) [x41] = (Normal, h)
    /\ nth_error (heap s') 0
       = Some {| id := id sessionA; name := name sessionA; pty := pty sessionA;
                 history := h |}
    /\ (forall r, r <> 0%nat -> nth_error (heap s') r = nth_error (heap oneSession) r)
    /\ sessions s' = sessions oneSession
    /\ forall c k, JsMap.get c (sockets oneSession) = Some k ->
                   inboxOf c s'
                   = inbox k ++ (if inRoom (id sessionA) k then [Output [x41]] else [])
                   /\ roomsOf c s' = rooms k.
Proof.
  apply (output_reaches_exactly_the_room oneSession 0 [x41] sessionA (reachable_run _)).
  reflexivity.
Defined.

Lemma history_run (ref : nat) (es : list Event) :
  forall s x,
    wellFormed s ->
    nth_error (heap s) ref = Some x ->
    exists x',
      nth_error (heap (run s es)) ref = Some x'
      /\ id x' = id x
      /\ appendAll (history x) (chunksOf ref es) = (Normal, history x').
Proof.
  induction es as [| e rest IH]; intros s x Hwf Hx.
  - exists x. auto.
  - destruct (history_step s e ref x Hwf Hx) as (x1 & Hx1 & Hid1 & Ha1).
    destruct (IH (snd (step s e)) x1 (wellFormed_step s e Hwf) Hx1)
      as (x2 & Hx2 & Hid2 & Ha2).
    exists x2. change (run s (e :: rest)) with (run (snd (step s e)) rest).
    split; [exact Hx2 |]. split; [congruence |].
    rewrite chunksOf_cons, (appendAll_app _ _ _ _ Ha1). exact Ha2.
Qed.

(** X17: from its creation on, through any turns of the loop, the history
    of a session object is never thrown out of shape, and its snapshot is
    the UTF-8 decoding of the last min(524288, total) bytes of everything
    its pseudo-terminal has produced since, in order: those bytes
    themselves when they are well-formed UTF-8, and, when the output is
    well-formed but the window cuts a character, one U+FFFD for each of
    the at most three bytes left of it, followed by the rest as it is. *)
Theorem scrollback_is_tail_of_all_output
        (s : Server) (isInitial : bool) (env : SpawnEnv) (es : list Event) :
  reachable s ->
  spawned env = true ->
  let s1 := fst (createSession isInitial env s) in
  let ref := List.length (heap s) in
  let out := List.concat (chunksOf ref es) in
  exists x,
    nth_error (heap (run s1 es)) ref = Some x
    /\ id x = uuid env
    /\ let tail := lastn (Z.to_nat (Z.min HISTORY_LIMIT (Buffer.length out))) out in
       toString (history x) = Buffer.toString tail
       /\ (utf8 tail -> toString (history x) = tail)
       /\ (utf8 out ->
           exists lead rest,
             tail = lead ++ rest
             /\ Forall (fun b => Buffer.continuation b = true) lead
             /\ (List.length lead <= 3)%nat
             /\ utf8 rest
             /\ toString (history x)
                = flat_map (fun _ => [xef; xbf; xbd]) lead ++ rest).
Proof.
  intros Hreach Hsp s1 ref out.
  pose proof (reachable_wellFormed s Hreach) as Hwf.
  destruct (createSession_spawned isInitial env s Hsp) as (_ & Hh & _).
  fold s1 in Hh.
  assert (Hwf1 : wellFormed s1) by (apply wellFormed_createSession, Hwf).
  assert (Hx : nth_error (heap s1) ref = Some (freshSession env s)).
  { rewrite Hh. unfold ref. rewrite nth_error_app2 by lia.
    rewrite Nat.sub_diag. reflexivity. }
  destruct (history_run ref es s1 _ Hwf1 Hx) as (x & Hx' & Hid & Ha).
  destruct (appendAll_holdsTail (chunksOf ref es) _ _
              (newRingBuffer_holdsTail (junk env) HISTORY_LIMIT HISTORY_LIMIT_pos))
    as (this & Ha' & Ht & Hl).
  simpl in Ha. rewrite Ha' in Ha. injection Ha as Hthis.
  exists x. split; [exact Hx' |]. split; [exact Hid |].
  intros tail.
  assert (Hs : toString (history x) = Buffer.toString tail).
  { rewrite <- Hthis, (toString_holdsTail _ _ Ht), Hl. reflexivity. }
  split; [exact Hs |].
  split; [intros Hu; rewrite Hs; apply toString_utf8, Hu |].
  intros Hu. rewrite Hs. apply toString_lastn_utf8, Hu.
Qed.

(** X17 from the empty server: a session is created and produces "A". *)
Lemma scrollback_is_tail_of_all_output_witness :
  let s1 := fst (createSession false (spawnOk "a") emptyServer) in
  let ref := List.length (heap emptyServer) in
  let out := List.concat (chunksOf ref [PtyData 0 [x41]]) in
  exists x,
    nth_error (heap (run s1 [PtyData 0 [x41]])) ref = Some x
    /\ id x = uuid (spawnOk "a")
    /\ let tail := lastn (Z.to_nat (Z.min HISTORY_LIMIT (Buffer.length out))) out in
       toString (history x) = Buffer.toString tail
       /\ (utf8 tail -> toString (history x) = tail)
       /\ (utf8 out ->
           exists lead rest,
             tail = lead ++ rest
             /\ Forall (fun b => Buffer.continuation b = true) lead
             /\ (List.length lead <= 3)%nat
             /\ utf8 rest
             /\ toString (history x)
                = flat_map (fun _ => [xef; xbf; xbd]) lead ++ rest).
Proof.
  apply (scrollback_is_tail_of_all_output emptyServer false (spawnOk "a")
                                          [PtyData 0 [x41]] (reachable_run [])).
  reflexivity.
Defined.

(** X18: in a reachable state, once the exit callback of a live session
    has run, its id names no session, and an input, a resize or a close
    request for that id leaves the whole server as it is: a second close is
    a no-op. *)
Theorem requests_after_exit_are_ignored
        (s : Server) (sid : string) (ref : nat) (se : Session) :
  reachable s ->
  getSession sid s = Some (ref, se) ->
  let s' := snd (step s (PtyExit ref)) in
  getSession sid s' = None
  /\ (forall c data now writeThrows,
         step s' (Input c sid data now writeThrows) = (Normal, s'))
  /\ (forall c cols rows resizeThrows,
         step s' (Resize c sid cols rows resizeThrows) = (Normal, s'))
  /\ (forall c killThrows, step s' (CloseSession c sid killThrows) = (Normal, s')).
Proof.
  intros Hreach Hse s'.
  pose proof (reachable_wellFormed s Hreach) as Hwf.
  destruct (getSession_heap sid ref se s Hse) as [Hget Hnth].
  destruct (wf_refs s Hwf sid ref (get_In _ _ _ Hget)) as (se0 & Hse0 & Hid).
  assert (se0 = se) by congruence. subst se0.
  assert (Hnone : getSession sid s' = None).
  { unfold s', step, onPtyExit. rewrite Hnth, Hid. unfold getSession. simpl.
    rewrite get_delete_same. reflexivity. }
  split; [exact Hnone |]. split; [| split].
  - intros c data now writeThrows. unfold step, guarded, onInput. rewrite Hnone.
    destruct (connected c s'); reflexivity.
  - intros c cols rows resizeThrows. unfold step, guarded, onResize. rewrite Hnone.
    destruct (connected c s'); reflexivity.
  - intros c killThrows. unfold step, guarded, onCloseSession. rewrite Hnone.
    destruct (connected c s'); reflexivity.
Qed.

(** X18 on the server with one session: a close after the exit of "a". *)
Lemma requests_after_exit_are_ignored_witness :
  let s' := snd (step oneSession (PtyExit 0)) in
  step s' (CloseSession "c" "a" true) = (Normal, s').
Proof.
  destruct (requests_after_exit_are_ignored oneSession "a" 0%nat sessionA
              (reachable_run _) eq_refl) as (_ & _ & _ & H).
  apply H.
Defined.

(** X19: at startup with an empty registry and a spawn that works, the
    initial session is registered as "Session 1" and the startup command
    is scheduled for it; when the timer fires the command is written to
    it, once, and nothing stays scheduled; a startup with a session
    already registered does nothing; and a session created on request
    never has the command scheduled. *)
Theorem startup_session_gets_the_command (env : SpawnEnv) (writeThrows : bool) :
  spawned env = true ->
  let s1 := snd (step emptyServer (Startup env)) in
  let s2 := snd (step s1 (StartupTimer writeThrows)) in
  listSessions s1 = [(uuid env, "Session 1"%string)]
  /\ timers s1 = [0%nat]
  /\ ptyCallsOf (uuid env) s2 = [PtyWrite startupCommand]
  /\ timers s2 = []
  /\ (forall env', step s1 (Startup env') = (Normal, s1))
  /\ (forall s c hasCallback env',
         timers (snd (step s (CreateSession c hasCallback env'))) = timers s).
Proof.
  intros Hsp s1 s2.
  assert (Hs1 : s1 = setTimers [0%nat]
                       (setSessions [(uuid env, 0%nat)]
                          (setHeap [freshSession env emptyServer] emptyServer))).
  { unfold s1, step. simpl. unfold createSession. rewrite Hsp. reflexivity. }
  split; [rewrite Hs1; reflexivity |].
  split; [rewrite Hs1; reflexivity |].
  split.
  { unfold s2. rewrite Hs1. unfold ptyCallsOf, getSession. simpl.
    rewrite String.eqb_refl. reflexivity. }
  split; [unfold s2; rewrite Hs1; reflexivity |].
  split; [intros env'; rewrite Hs1; reflexivity |].
  intros s c hasCallback env'. unfold step, guarded.
  destruct (connected c s); [| reflexivity].
  unfold onCreateSession, createSession.
  destruct (spawned env'); [| reflexivity]. simpl.
  destruct hasCallback; [| reflexivity].
  rewrite nth_error_app2 by lia. rewrite Nat.sub_diag. reflexivity.
Qed.

(** X19 with the id "a". *)
Lemma startup_session_gets_the_command_witness :
  let s1 := snd (step emptyServer (Startup (spawnOk "a"))) in
  ptyCallsOf "a" (snd (step s1 (StartupTimer false))) = [PtyWrite startupCommand].
Proof.
  destruct (startup_session_gets_the_command (spawnOk "a") false eq_refl)
    as (_ & _ & H & _).
  exact H.
Defined.

(** ** Disconnect and reconnect *)

(** X24: a disconnect takes the socket off the server and touches neither
    the other sockets nor any session; a socket that connects afterwards
    and switches to a live session is sent the listing as it was and then
    the snapshot of the history of that session (nothing when it is
    empty), and ends in its own room and that of the session. *)
Theorem reconnect_restores_view
        (s : Server) (c c' sid : string) (ref : nat) (se : Session) (now : Z) :
  connected c s = true ->
  getSession sid s = Some (ref, se) ->
  let s1 := snd (step s (Disconnect c)) in
  let s2 := snd (step s1 (Connection c' now)) in
  let s3 := snd (step s2 (SwitchSession c' sid)) in
  connected c s1 = false
  /\ (forall o, o <> c -> JsMap.get o (sockets s1) = JsMap.get o (sockets s))
  /\ heap s3 = heap s
  /\ sessions s3 = sessions s
  /\ inboxOf c' s3
     = SessionsList (listSessions s)
       :: match toString (history se) with
          | [] => []
          | h => [History h]
          end
  /\ roomsOf c' s3 = (if String.eqb sid c' then [c'] else [c'; sid]).
Proof.
  intros Hc Hse s1 s2 s3.
  assert (Hs1 : s1 = setSockets (JsMap.delete c (sockets s)) s).
  { unfold s1, step, guarded. rewrite Hc. reflexivity. }
  set (k1 := deliver (SessionsList (listSessions s))
                     {| rooms := [c']; bucket := createBucket now 32768 16384;
                        inbox := [] |}).
  assert (Hk1 : JsMap.get c' (sockets s2) = Some k1).
  { unfold s2, step, onConnection. simpl snd. unfold socketEmit.
    rewrite get_withSocket, String.eqb_refl. simpl. rewrite get_set_same.
    rewrite Hs1. reflexivity. }
  assert (Hse2 : getSession sid s2 = Some (ref, se)).
  { unfold s2. rewrite Hs1. exact Hse. }
  assert (Hh2 : heap s2 = heap s) by (unfold s2; rewrite Hs1; reflexivity).
  assert (Hm2 : sessions s2 = sessions s) by (unfold s2; rewrite Hs1; reflexivity).
  destruct (onSwitchSession_live s2 c' sid ref se k1 Hk1 (or_introl eq_refl) Hse2)
    as (Hr & Hi & _ & Hh & Hm).
  fold s3 in Hr, Hi, Hh, Hm.
  split; [rewrite Hs1; unfold connected; simpl; rewrite get_delete_same; reflexivity |].
  split; [intros o Hne; rewrite Hs1; simpl; apply get_delete_other; exact Hne |].
  split; [rewrite Hh; exact Hh2 |].
  split; [rewrite Hm; exact Hm2 |].
  split; [| exact Hr].
  rewrite Hi. unfold inboxOf. rewrite Hk1. reflexivity.
Qed.

(** X24 on the server with one session: "c" leaves, "v" arrives and
    switches to "a". *)
Lemma reconnect_restores_view_witness :
  let s1 := snd (step oneSession (Disconnect "c")) in
  let s2 := snd (step s1 (Connection "v" 7)) in
  let s3 := snd (step s2 (SwitchSession "v" "a")) in
  connected "c" s1 = false
  /\ inboxOf "v" s3
     = SessionsList (listSessions oneSession)
       :: match toString (history sessionA) with
          | [] => []
          | h => [History h]
          end.
Proof.
  destruct (reconnect_restores_view oneSession "c" "v" "a" 0%nat sessionA 7
              eq_refl eq_refl) as (H1 & _ & _ & _ & H2 & _).
  split; [exact H1 | exact H2].
Defined.

(** ** The page: which session it shows and what it asks for *)

Lemma client_switchSession_cases (k : string) (c : Client.State) :
  (Client.switchSession k c = c
   /\ (Client.has k c = false \/ Client.activeSessionId c = Some k))
  \/ (Client.has k c = true
      /\ Client.activeSessionId c <> Some k
      /\ Client.sessions (Client.switchSession k c) = Client.sessions c
      /\ Client.activeSessionId (Client.switchSession k c) = Some k
      /\ Client.sent (Client.switchSession k c)
         = Client.sent c ++ [Client.SwitchSession k]).
Proof.
  unfold Client.switchSession.
  destruct (Client.has k c) eqn:Hh; simpl.
  - unfold Client.isActive.
    destruct (Client.activeSessionId c) as [a |] eqn:Ha.
    + destruct (String.eqb_spec k a) as [-> | Hne].
      * left. auto.
      * right. split; [reflexivity |]. split; [congruence |].
        unfold Client.resizeTerminal. destruct (Client.activeTruthy _); simpl; auto.
    + right. split; [reflexivity |]. split; [discriminate |].
      unfold Client.resizeTerminal. destruct (Client.activeTruthy _); simpl; auto.
  - left. auto.
Qed.

Lemma client_has_first (c : Client.State) (k : string) :
  Client.firstKey c = Some k -> Client.has k c = true.
Proof.
  unfold Client.firstKey, Client.has.
  destruct (Client.sessions c) as [| [k0 v] rest]; [discriminate |].
  intros H. injection H as ->. simpl. rewrite String.eqb_refl. reflexivity.
Qed.

Lemma client_switchSession_known (k : string) (c : Client.State) :
  Client.has k c = true ->
  Client.activeKnown c ->
  Client.activeKnown (Client.switchSession k c)
  /\ Client.activeSessionId (Client.switchSession k c) = Some k.
Proof.
  intros Hk Hc.
  destruct (client_switchSession_cases k c)
    as [[Heq [Hno | Hact]] | (_ & _ & Hs & Ha & _)].
  - congruence.
  - rewrite Heq. auto.
  - split; [| exact Ha]. unfold Client.activeKnown, Client.has in *.
    rewrite Ha, Hs. exact Hk.
Qed.

Lemma set_nonempty {V} (k : string) (v : V) (m : list (string * V)) :
  JsMap.set k v m <> [].
Proof.
  destruct m as [| [k0 v0] rest]; simpl; [discriminate |].
  destruct (String.eqb k k0); discriminate.
Qed.

Lemma fold_set_nonempty (l : list (string * string)) :
  forall m, (l <> [] \/ m <> []) ->
            fold_left (fun m s => JsMap.set (fst s) s m) l m <> [].
Proof.
  induction l as [| s rest IH]; intros m H; simpl.
  - destruct H as [H | H]; [contradiction | exact H].
  - apply IH. right. apply set_nonempty.
Qed.

(** X20: the page shows only sessions it knows, with one exception. If the
    active session is null or known before an event, it is null or known
    after it, unless the event is an empty sessions-list arriving while a
    session is active. *)
Theorem client_active_session_known (c : Client.State) (e : Client.Event) :
  Client.activeKnown c ->
  (e = Client.SessionsList [] -> Client.activeSessionId c = None) ->
  Client.activeKnown (Client.handle c e).
Proof.
  intros Hc Hex. destruct e; simpl.
  - (* sessions-list *)
    unfold Client.onSessionsList.
    set (m := fold_left (fun m s => JsMap.set (fst s) s m) sessionList []).
    set (c1 := Client.setSessions m c).
    destruct (Client.activeSessionId c) as [a |] eqn:Ha.
    + change (Client.activeSessionId c1) with (Client.activeSessionId c). rewrite Ha.
      assert (Hm : m <> []).
      { apply fold_set_nonempty. left. intros ->.
        specialize (Hex eq_refl). congruence. }
      destruct (Client.has a c1) eqn:Hknown.
      * rewrite andb_false_r. unfold Client.activeKnown.
        change (Client.activeSessionId c1) with (Client.activeSessionId c).
        rewrite Ha. exact Hknown.
      * replace (0 <? List.length m)%nat with true
          by (symmetry; apply Nat.ltb_lt; destruct m; [contradiction | simpl; lia]).
        simpl. unfold Client.switchToFirst.
        destruct (Client.firstKey c1) as [k |] eqn:Hf.
        -- pose proof (client_has_first c1 k Hf) as Hk.
           destruct (client_switchSession_cases k c1)
             as [[Heq [Hno | Hact]] | (_ & _ & Hs & Hact & _)].
           ++ congruence.
           ++ change (Client.activeSessionId c1) with (Client.activeSessionId c) in Hact.
              congruence.
           ++ unfold Client.activeKnown, Client.has in *. rewrite Hact, Hs. exact Hk.
        -- unfold Client.firstKey in Hf. simpl in Hf. destruct m as [| [k0 v0] rest];
             [contradiction | discriminate].
    + change (Client.activeSessionId c1) with (Client.activeSessionId c). rewrite Ha.
      simpl. rewrite andb_true_r.
      destruct (0 <? List.length m)%nat eqn:E.
      * unfold Client.switchToFirst.
        destruct (Client.firstKey c1) as [k |] eqn:Hf.
        -- apply client_switchSession_known; [exact (client_has_first c1 k Hf) |].
           unfold Client.activeKnown.
           change (Client.activeSessionId c1) with (Client.activeSessionId c).
           rewrite Ha. exact I.
        -- unfold Client.activeKnown.
           change (Client.activeSessionId c1) with (Client.activeSessionId c).
           rewrite Ha. exact I.
      * unfold Client.activeKnown.
        change (Client.activeSessionId c1) with (Client.activeSessionId c).
        rewrite Ha. exact I.
  - (* session-created *)
    unfold Client.onSessionCreated.
    set (c1 := Client.setSessions (JsMap.set (fst session) session (Client.sessions c)) c).
    assert (Hk : Client.has (fst session) c1 = true).
    { unfold Client.has, c1. simpl. rewrite get_set_same. reflexivity. }
    destruct (client_switchSession_cases (fst session) c1)
      as [[Heq [Hno | Hact]] | (_ & _ & Hs & Hact & _)].
    + congruence.
    + rewrite Heq. unfold Client.activeKnown. rewrite Hact. exact Hk.
    + unfold Client.activeKnown, Client.has in *. rewrite Hact, Hs. exact Hk.
  - (* session-closed *)
    unfold Client.onSessionClosed.
    destruct (Client.has sessionId c) eqn:Hhas; [| exact Hc].
    set (c1 := Client.setSessions (JsMap.delete sessionId (Client.sessions c)) c).
    destruct (Client.isActive sessionId c
              && (0 <? List.length (Client.sessions c1))%nat) eqn:E1.
    + unfold Client.switchToFirst.
      destruct (Client.firstKey c1) as [k |] eqn:Hf.
      * pose proof (client_has_first c1 k Hf) as Hk.
        destruct (client_switchSession_cases k c1)
          as [[Heq [Hno | Hact]] | (_ & _ & Hs & Hact & _)].
        -- congruence.
        -- rewrite Heq. unfold Client.activeKnown. rewrite Hact. exact Hk.
        -- unfold Client.activeKnown, Client.has in *. rewrite Hact, Hs. exact Hk.
      * apply andb_true_iff in E1. destruct E1 as [_ E1]. apply Nat.ltb_lt in E1.
        unfold Client.firstKey in Hf. destruct (Client.sessions c1) as [| [k0 v0] rest];
          [simpl in E1; lia | discriminate].
    + destruct (List.length (Client.sessions c1) =? 0)%nat eqn:E2; [exact I |].
      apply Nat.eqb_neq in E2.
      assert (Hpos : (0 <? List.length (Client.sessions c1))%nat = true)
        by (apply Nat.ltb_lt; lia).
      rewrite Hpos, andb_true_r in E1.
      unfold Client.activeKnown, Client.isActive in *.
      change (Client.activeSessionId c1) with (Client.activeSessionId c).
      destruct (Client.activeSessionId c) as [a |]; [| exact I].
      apply String.eqb_neq in E1.
      unfold Client.has in *. unfold c1. simpl.
      rewrite get_delete_other by congruence. exact Hc.
  - exact Hc.
  - exact Hc.
  - unfold Client.activeKnown in *.
    destruct (Client.activeSessionId c) as [a |] eqn:Ha; [| rewrite Ha; exact I].
    destruct (Client.activeTruthy c); simpl; rewrite ?Ha; exact Hc.
  - exact Hc.
  - unfold Client.activeKnown in *.
    destruct (Client.activeSessionId c) as [a |] eqn:Ha; [| rewrite Ha; exact I].
    destruct (Client.activeTruthy c); simpl; rewrite ?Ha; exact Hc.
  - (* click on a tab *)
    destruct (Client.isActive sessionId c); [exact Hc |].
    destruct (client_switchSession_cases sessionId c)
      as [[Heq _] | (Hk & _ & Hs & Hact & _)].
    + rewrite Heq. exact Hc.
    + unfold Client.activeKnown, Client.has in *. rewrite Hact, Hs. exact Hk.
  - destruct (_ && _); exact Hc.
  - exact Hc.
  - unfold Client.resizeTerminal. destruct (Client.activeTruthy c); exact Hc.
  - exact Hc.
Qed.

(** X20 on a fresh page that is told of two sessions. *)
Lemma client_active_session_known_witness :
  Client.activeKnown
    (Client.handle Client.init
                   (Client.SessionsList [("a", "Session 1"); ("b", "Session 2")]%string)).
Proof.
  apply (client_active_session_known Client.init); [exact I | discriminate].
Defined.

(** X21: the exception is real. An empty sessions-list that arrives while a
    session is active empties the map and keeps the active id, so the page
    then shows a session it does not know; it sends nothing and does not
    touch the terminal. *)
Theorem client_empty_list_strands_active (c : Client.State) (a : string) :
  Client.activeSessionId c = Some a ->
  let c' := Client.handle c (Client.SessionsList []) in
  Client.sessions c' = []
  /\ Client.activeSessionId c' = Some a
  /\ ~ Client.activeKnown c'
  /\ Client.sent c' = Client.sent c
  /\ Client.term c' = Client.term c.
Proof.
  intros Ha c'. unfold c'. simpl. unfold Client.onSessionsList. simpl.
  split; [reflexivity |]. split; [exact Ha |]. split.
  - unfold Client.activeKnown. simpl. rewrite Ha. discriminate.
  - split; reflexivity.
Qed.

(** X21 on a page that shows "a". *)
Lemma client_empty_list_strands_active_witness :
  let c := Client.handle Client.init (Client.SessionsList [("a", "Session 1")]%string) in
  ~ Client.activeKnown (Client.handle c (Client.SessionsList [])).
Proof.
  intros c.
  destruct (client_empty_list_strands_active c "a" eq_refl) as (_ & _ & H & _).
  exact H.
Defined.

Lemma client_first_of_delete (sessionId k : string) (m : list (string * (string * string))) :
  match JsMap.delete sessionId m with
  | [] => None
  | (k0, _) :: _ => Some k0
  end = Some k ->
  k <> sessionId.
Proof.
  unfold JsMap.delete. induction m as [| [k0 v0] rest IH]; simpl; [discriminate |].
  destruct (String.eqb sessionId k0) eqn:E; simpl; [exact IH |].
  intros H. injection H as <-. apply String.eqb_neq in E. congruence.
Qed.

(** X22: when the page is told that a session it knows has closed, it
    forgets it. If that session was the active one, the page moves to the
    first session left and asks the server, once, to switch to it, or
    shows none and asks nothing when none is left. If it was not, the page
    asks nothing and keeps its active session unless none is left. A
    session it does not know changes nothing. *)
Theorem client_session_closed (c : Client.State) (sessionId : string) :
  let c' := Client.handle c (Client.SessionClosed sessionId) in
  (Client.has sessionId c = false -> c' = c)
  /\ (Client.has sessionId c = true ->
      Client.sessions c' = JsMap.delete sessionId (Client.sessions c)
      /\ Client.has sessionId c' = false
      /\ (Client.activeSessionId c = Some sessionId ->
          Client.activeSessionId c' = Client.firstKey c'
          /\ Client.sent c'
             = Client.sent c ++ match Client.firstKey c' with
                                | Some k => [Client.SwitchSession k]
                                | None => []
                                end)
      /\ (Client.activeSessionId c <> Some sessionId ->
          Client.sent c' = Client.sent c
          /\ Client.activeSessionId c'
             = match Client.sessions c' with
               | [] => None
               | _ :: _ => Client.activeSessionId c
               end)).
Proof.
  intros c'. unfold c'. simpl. unfold Client.onSessionClosed.
  destruct (Client.has sessionId c) eqn:Hhas; [| split; [reflexivity | discriminate]].
  split; [discriminate |]. intros _.
  set (c1 := Client.setSessions (JsMap.delete sessionId (Client.sessions c)) c).
  assert (Hgone : Client.has sessionId c1 = false)
    by (unfold Client.has, c1; simpl; rewrite get_delete_same; reflexivity).
  assert (Hact : Client.isActive sessionId c = true
                 <-> Client.activeSessionId c = Some sessionId).
  { unfold Client.isActive. destruct (Client.activeSessionId c) as [a |].
    - rewrite String.eqb_eq. split; [intros ->; reflexivity | intros H; congruence].
    - split; discriminate. }
  assert (Hm1 : JsMap.delete sessionId (Client.sessions c) = Client.sessions c1) by reflexivity.
  rewrite Hm1.
  assert (Hfk : forall r, Client.sessions r = Client.sessions c1 ->
                          Client.firstKey r = Client.firstKey c1)
    by (intros r Hr; unfold Client.firstKey; rewrite Hr; reflexivity).
  assert (Hhs : forall r, Client.sessions r = Client.sessions c1 ->
                          Client.has sessionId r = false)
    by (intros r Hr; unfold Client.has in *; rewrite Hr; exact Hgone).
  destruct (Client.isActive sessionId c) eqn:Eact.
  - assert (Ha : Client.activeSessionId c = Some sessionId) by (apply Hact; reflexivity).
    destruct (Client.sessions c1) as [| [k v] rest] eqn:Hm;
      cbn [andb Datatypes.length Nat.ltb Nat.leb Nat.eqb].
    + split; [exact Hm |]. split; [apply Hhs; exact Hm |].
      split; [| intros Hne; contradiction].
      intros _. rewrite Hfk by exact Hm. unfold Client.firstKey. rewrite Hm.
      split; [reflexivity |]. symmetry. apply app_nil_r.
    + assert (Hk : Client.has k c1 = true)
        by (apply client_has_first; unfold Client.firstKey; rewrite Hm; reflexivity).
      assert (Hne : k <> sessionId).
      { apply (client_first_of_delete sessionId k (Client.sessions c)).
        rewrite Hm1. reflexivity. }
      assert (Hfk1 : Client.firstKey c1 = Some k)
        by (unfold Client.firstKey; rewrite Hm; reflexivity).
      unfold Client.switchToFirst. rewrite Hfk1.
      destruct (client_switchSession_cases k c1)
        as [[Heq [Hno | Hact1]] | (_ & _ & Hs & Hact1 & Hsent)].
      * congruence.
      * change (Client.activeSessionId c1) with (Client.activeSessionId c) in Hact1.
        congruence.
      * split; [rewrite Hs; exact Hm |].
        split; [apply Hhs; rewrite Hs; exact Hm |].
        split; [| intros Hn; contradiction].
        intros _. unfold Client.firstKey. rewrite Hs, Hm. split; [exact Hact1 |].
        exact Hsent.
  - assert (Ha : Client.activeSessionId c <> Some sessionId).
    { intros H. apply Hact in H. discriminate. }
    destruct (Client.sessions c1) as [| [k v] rest] eqn:Hm;
      cbn [andb Datatypes.length Nat.ltb Nat.leb Nat.eqb].
    + split; [exact Hm |]. split; [apply Hhs; exact Hm |].
      split; [intros H; contradiction |]. intros _. split; [reflexivity |].
      change (Client.sessions (Client.onTerm [Client.Reset; Client.Write Client.allClosedNotice]
                                 (Client.setActive None c1)))
        with (Client.sessions c1).
      rewrite Hm. reflexivity.
    + split; [exact Hm |]. split; [exact Hgone |].
      split; [intros H; contradiction |]. intros _. rewrite Hm. split; reflexivity.
Qed.

(** X22 on a page with sessions "a" (active) and "b": closing "a" moves
    the page to "b" and asks the server for it. *)
Lemma client_session_closed_witness :
  let c := Client.handle Client.init
             (Client.SessionsList [("a", "Session 1"); ("b", "Session 2")]%string) in
  let c' := Client.handle c (Client.SessionClosed "a") in
  Client.activeSessionId c' = Client.firstKey c'
  /\ Client.sent c'
     = Client.sent c ++ match Client.firstKey c' with
                        | Some k => [Client.SwitchSession k]
                        | None => []
                        end.
Proof.
  intros c c'.
  destruct (client_session_closed c "a") as [_ H].
  destruct (H eq_refl) as (_ & _ & Hact & _).
  exact (Hact eq_refl).
Defined.

(** X23: whatever happens to the page, what it has sent only grows, and a
    switch-session request it sends then, other than the resubscription on
    reconnect, names a session it knows and has just made active. *)
Theorem client_switch_requests_name_known_sessions
        (c : Client.State) (e : Client.Event) :
  exists new,
    Client.sent (Client.handle c e) = Client.sent c ++ new
    /\ forall k, In (Client.SwitchSession k) new ->
                 e <> Client.Connect ->
                 Client.has k (Client.handle c e) = true
                 /\ Client.activeSessionId (Client.handle c e) = Some k.
Proof.
  assert (Hsw : forall k c0,
             exists new,
               Client.sent (Client.switchSession k c0) = Client.sent c0 ++ new
               /\ forall k', In (Client.SwitchSession k') new ->
                             Client.has k' (Client.switchSession k c0) = true
                             /\ Client.activeSessionId (Client.switchSession k c0)
                                = Some k').
  { intros k c0.
    destruct (client_switchSession_cases k c0)
      as [[Heq _] | (Hk & _ & Hs & Hact & Hsent)].
    - exists []. rewrite Heq, app_nil_r. split; [reflexivity | intros k' []].
    - exists [Client.SwitchSession k]. split; [exact Hsent |].
      intros k' [H | []]. injection H as <-.
      unfold Client.has in *. rewrite Hs. auto. }
  assert (Hnone : forall c0, Client.sent c0 = Client.sent c ->
             exists new,
               Client.sent c0 = Client.sent c ++ new
               /\ forall k, In (Client.SwitchSession k) new ->
                            e <> Client.Connect ->
                            Client.has k c0 = true
                            /\ Client.activeSessionId c0 = Some k).
  { intros c0 H. exists []. rewrite app_nil_r. split; [exact H | intros k []]. }
  assert (Hvia : forall k c0, Client.sent c0 = Client.sent c ->
             exists new,
               Client.sent (Client.switchSession k c0) = Client.sent c ++ new
               /\ forall k', In (Client.SwitchSession k') new ->
                             e <> Client.Connect ->
                             Client.has k' (Client.switchSession k c0) = true
                             /\ Client.activeSessionId (Client.switchSession k c0)
                                = Some k').
  { intros k c0 H0. destruct (Hsw k c0) as (new & H1 & H2).
    exists new. rewrite <- H0. split; [exact H1 |]. intros k' Hin _. exact (H2 k' Hin). }
  assert (Hmsg : forall m r,
             (forall k, m <> Client.SwitchSession k) ->
             Client.sent r = Client.sent c ++ [m] ->
             exists new,
               Client.sent r = Client.sent c ++ new
               /\ forall k, In (Client.SwitchSession k) new ->
                            e <> Client.Connect ->
                            Client.has k r = true
                            /\ Client.activeSessionId r = Some k).
  { intros m r Hm Hr. exists [m]. split; [exact Hr |].
    intros k [H | []]. exfalso. exact (Hm k H). }
  destruct e; unfold Client.handle.
  - unfold Client.onSessionsList. cbv zeta.
    destruct (_ && _); [| apply Hnone; reflexivity].
    unfold Client.switchToFirst.
    destruct (Client.firstKey _) as [k |]; [apply Hvia | apply Hnone]; reflexivity.
  - unfold Client.onSessionCreated. apply Hvia. reflexivity.
  - unfold Client.onSessionClosed. cbv zeta.
    destruct (Client.has sessionId c); [| apply Hnone; reflexivity].
    destruct (_ && _).
    + unfold Client.switchToFirst.
      destruct (Client.firstKey _) as [k |]; [apply Hvia | apply Hnone]; reflexivity.
    + destruct (_ =? _)%nat; apply Hnone; reflexivity.
  - apply Hnone. reflexivity.
  - apply Hnone. reflexivity.
  - destruct (Client.activeSessionId c) as [a |]; [| apply Hnone; reflexivity].
    destruct (Client.activeTruthy c); [| apply Hnone; reflexivity].
    exists [Client.SwitchSession a]. split; [reflexivity |].
    intros k _ Hne. contradiction.
  - apply Hnone. reflexivity.
  - destruct (Client.activeSessionId c) as [a |]; [| apply Hnone; reflexivity].
    destruct (Client.activeTruthy c); [| apply Hnone; reflexivity].
    apply (Hmsg (Client.Input a data)); [discriminate | reflexivity].
  - destruct (Client.isActive sessionId c); [apply Hnone | apply Hvia]; reflexivity.
  - destruct (_ && _); [| apply Hnone; reflexivity].
    apply (Hmsg (Client.CloseSession sessionId)); [discriminate | reflexivity].
  - apply (Hmsg Client.CreateSession); [discriminate | reflexivity].
  - unfold Client.resizeTerminal. destruct (Client.activeTruthy c); apply Hnone; reflexivity.
  - cbv zeta.
    apply (Hmsg (Client.Resize (Client.activeSessionId c) cols rows));
      [discriminate | reflexivity].
Qed.
